(** * TinyGPS++ : a shallow embedding of the NMEA sentence parser

    The development follows [src/TinyGPS++.h] and [src/TinyGPS++.cpp]:
    the C library routines the parser calls ([atol], [isdigit], [strcmp],
    [strcpy], [strncpy]), the field containers with their staged and
    committed values, the custom-field registry, the two numeric decoders
    and the character-driven state machine ([encode] and
    [endOfTermHandler]).

    Conventions.
    - A [char] is an [ascii]; [code c] is its value as an unsigned byte.
    - A C string or [char] buffer is a [list ascii]; reading stops at the
      first NUL, and reading past the end of the list yields NUL.
    - Fixed-width integers are [Z] with the wrap-around written out
      ([to_uint8], [to_uint16], [to_uint32], [to_int16], [to_int32]).
    - Characters compare as unsigned bytes, as [strcmp] compares them and
      as plain [char] does on the ARM targets of the repository; the test
      [term[0] > '0'] of the fix-quality digit is the only place where a
      signed [char] would differ, and only on bytes above 127.
    - The registry is the list of the entries linked from [customElts];
      every registration links in an entry that is not yet in the list.
    - [millis()] is an external clock: the [n]-th reading is [millis n],
      and the parser state counts the readings made so far. *)

From Stdlib Require Import Ascii String.
From Stdlib Require Import ZArith List Bool Lia.
From Stdlib Require Import Sorting.Sorted.
Import ListNotations.
Open Scope Z_scope.

Infix "=c" := Ascii.eqb (at level 70, no associativity).

(** ** Characters and fixed-width integers *)

Definition code (c : ascii) : Z := Z.of_N (N_of_ascii c).

Definition NUL : ascii := "000"%char.
Definition TAB : ascii := "009"%char.
Definition LF : ascii := "010"%char.
Definition VT : ascii := "011"%char.
Definition FF : ascii := "012"%char.
Definition CR : ascii := "013"%char.

Definition chars (s : string) : list ascii := list_ascii_of_string s.

Definition to_uint8 (z : Z) : Z := z mod 2 ^ 8.
Definition to_uint16 (z : Z) : Z := z mod 2 ^ 16.
Definition to_uint32 (z : Z) : Z := z mod 2 ^ 32.
Definition to_int16 (z : Z) : Z := (z + 2 ^ 15) mod 2 ^ 16 - 2 ^ 15.
Definition to_int32 (z : Z) : Z := (z + 2 ^ 31) mod 2 ^ 32 - 2 ^ 31.

(** [ULONG_MAX] where [unsigned long] has 32 bits; where it has 64, the
    cast [(uint32_t)ULONG_MAX] of the [age()] accessors yields the same
    value. *)
Definition ULONG_MAX : Z := 2 ^ 32 - 1.

(** [buf[i]] for a buffer read as a C string. *)
Definition at_ (buf : list ascii) (i : nat) : ascii := nth i buf NUL.

(** [buf[i] = c]; a write outside the buffer is not modelled (the parser
    guards every write by the buffer size). *)
Fixpoint store (buf : list ascii) (i : nat) (c : ascii) : list ascii :=
  match buf, i with
  | [], _ => []
  | _ :: r, O => c :: r
  | x :: r, S j => x :: store r j c
  end.

(** ** The C library *)

Definition isdigit (c : ascii) : bool :=
  (code "0"%char <=? code c) && (code c <=? code "9"%char).

Definition isspace (c : ascii) : bool :=
  (c =c " "%char) || (c =c TAB) || (c =c LF) || (c =c VT) || (c =c FF) || (c =c CR).

(** The text of a C string: the characters before the first NUL. *)
Fixpoint cstr (s : list ascii) : list ascii :=
  match s with
  | [] => []
  | c :: r => if c =c NUL then [] else c :: cstr r
  end.

(** [strcmp]: the difference of the first two differing bytes, compared
    as unsigned chars; the comparison stops at a NUL. *)
Fixpoint strcmp (a b : list ascii) : Z :=
  match a, b with
  | [], [] => 0
  | [], y :: _ => 0 - code y
  | x :: _, [] => code x
  | x :: a', y :: b' =>
      if x =c y then (if x =c NUL then 0 else strcmp a' b')
      else code x - code y
  end.

(** [strcpy(dst, src)]: the text of [src] and its terminating NUL
    overwrite the start of [dst]. *)
Definition strcpy (dst src : list ascii) : list ascii :=
  let s := cstr src in
  s ++ NUL :: skipn (S (length s)) dst.

(** [strncpy(dst, src, n)]: at most [n] characters of the text of [src],
    padded with NULs up to [n]. *)
Definition strncpy (dst src : list ascii) (n : nat) : list ascii :=
  let s := firstn n (cstr src) in
  s ++ repeat NUL (n - length s) ++ skipn n dst.

Fixpoint skip_spaces (s : list ascii) : list ascii :=
  match s with
  | c :: r => if isspace c then skip_spaces r else s
  | [] => []
  end.

Fixpoint skip_digits (s : list ascii) : list ascii :=
  match s with
  | c :: r => if isdigit c then skip_digits r else s
  | [] => []
  end.

Fixpoint atol_digits (acc : Z) (s : list ascii) : Z :=
  match s with
  | c :: r =>
      if isdigit c then atol_digits (10 * acc + (code c - code "0"%char)) r
      else acc
  | [] => acc
  end.

(** [atol]: leading white space, an optional sign, then decimal digits.
    The result is the exact value: [long] is taken wide enough for the
    digits read, and every caller narrows the result itself. *)
Definition atol (s : list ascii) : Z :=
  match skip_spaces s with
  | "-"%char :: r => - atol_digits 0 r
  | "+"%char :: r => atol_digits 0 r
  | r => atol_digits 0 r
  end.

(** ** RawDegrees *)

Record RawDegrees := mkRawDegrees {
  deg : Z;            (* uint16_t *)
  billionths : Z;     (* uint32_t *)
  negative : bool
}.

Definition RawDegrees_init : RawDegrees := mkRawDegrees 0 0 false.

(** ** The numeric decoders *)

Definition fromHex (a : ascii) : Z :=
  if (code "A"%char <=? code a) && (code a <=? code "F"%char) then code a - code "A"%char + 10
  else if (code "a"%char <=? code a) && (code a <=? code "f"%char) then code a - code "a"%char + 10
  else code a - code "0"%char.

Definition parseDecimal (term : list ascii) : Z :=
  let negative := at_ term 0 =c "-"%char in
  let term := if negative then tl term else term in
  let ret := to_int32 (100 * to_int32 (atol term)) in
  let term := skip_digits term in
  let ret :=
    if (at_ term 0 =c "."%char) && isdigit (at_ term 1) then
      let ret := to_int32 (ret + 10 * (code (at_ term 1) - code "0"%char)) in
      if isdigit (at_ term 2)
      then to_int32 (ret + (code (at_ term 2) - code "0"%char))
      else ret
    else ret in
  if negative then to_int32 (- ret) else ret.

(** The loop [while (isdigit( *++term))] of [parseDegrees]: [s] is the text
    after the decimal point. *)
Fixpoint parseDegrees_fraction (multiplier acc : Z) (s : list ascii) : Z :=
  match s with
  | c :: r =>
      if isdigit c then
        let multiplier := multiplier / 10 in
        parseDegrees_fraction multiplier
          (to_uint32 (acc + (code c - code "0"%char) * multiplier)) r
      else acc
  | [] => acc
  end.

Definition parseDegrees (term : list ascii) : RawDegrees :=
  let leftOfDecimal := to_uint32 (atol term) in
  let minutes := to_uint16 (leftOfDecimal mod 100) in
  let multiplier := 10000000 in
  let tenMillionthsOfMinutes := to_uint32 (minutes * multiplier) in
  let deg_deg := to_uint16 (to_int16 (leftOfDecimal / 100)) in
  let term := skip_digits term in
  let tenMillionthsOfMinutes :=
    if at_ term 0 =c "."%char
    then parseDegrees_fraction multiplier tenMillionthsOfMinutes (tl term)
    else tenMillionthsOfMinutes in
  mkRawDegrees deg_deg
    (to_uint32 (to_uint32 (5 * tenMillionthsOfMinutes + 1) / 3))
    false.

(** ** Field containers

    Each container holds a committed value, a staged value, the [valid]
    and [updated] flags and the time of the last commit.  [commit] is
    given the clock reading [now] that its call to [millis()] returns. *)

Module TinyGPSLocation.
Record t := mk {
  valid : bool;
  updated : bool;
  rawLatData : RawDegrees;
  rawLngData : RawDegrees;
  rawNewLatData : RawDegrees;
  rawNewLngData : RawDegrees;
  lastCommitTime : Z
}.
Definition init : t :=
  mk false false RawDegrees_init RawDegrees_init RawDegrees_init
     RawDegrees_init 0.
Definition isValid (l : t) : bool := valid l.
Definition isUpdated (l : t) : bool := updated l.
Definition commit (now : Z) (l : t) : t :=
  mk true true (rawNewLatData l) (rawNewLngData l)
     (rawNewLatData l) (rawNewLngData l) now.
Definition setLatitude (term : list ascii) (l : t) : t :=
  mk (valid l) (updated l) (rawLatData l) (rawLngData l)
     (parseDegrees term) (rawNewLngData l) (lastCommitTime l).
Definition setLongitude (term : list ascii) (l : t) : t :=
  mk (valid l) (updated l) (rawLatData l) (rawLngData l)
     (rawNewLatData l) (parseDegrees term) (lastCommitTime l).
Definition setLatitudeNegative (b : bool) (l : t) : t :=
  mk (valid l) (updated l) (rawLatData l) (rawLngData l)
     (mkRawDegrees (deg (rawNewLatData l)) (billionths (rawNewLatData l)) b)
     (rawNewLngData l) (lastCommitTime l).
Definition setLongitudeNegative (b : bool) (l : t) : t :=
  mk (valid l) (updated l) (rawLatData l) (rawLngData l)
     (rawNewLatData l)
     (mkRawDegrees (deg (rawNewLngData l)) (billionths (rawNewLngData l)) b)
     (lastCommitTime l).
(** [rawLat()], [rawLng()]: the committed angle; the read clears
    [updated]. *)
Definition rawLat (l : t) : RawDegrees * t :=
  (rawLatData l,
   mk (valid l) false (rawLatData l) (rawLngData l) (rawNewLatData l)
      (rawNewLngData l) (lastCommitTime l)).
Definition rawLng (l : t) : RawDegrees * t :=
  (rawLngData l,
   mk (valid l) false (rawLatData l) (rawLngData l) (rawNewLatData l)
      (rawNewLngData l) (lastCommitTime l)).
(** What a reader of the container can observe: everything but the
    staged angles. *)
Definition published (l : t) :=
  (valid l, updated l, rawLatData l, rawLngData l, lastCommitTime l).
(** [age()]: the time since the last commit, [now] being what the call of
    [millis()] returns. *)
Definition age (now : Z) (l : t) : Z :=
  if valid l then to_uint32 (now - lastCommitTime l) else to_uint32 ULONG_MAX.
End TinyGPSLocation.

Module TinyGPSDate.
Record t := mk {
  valid : bool;
  updated : bool;
  date : Z;        (* uint32_t *)
  newDate : Z;     (* uint32_t *)
  lastCommitTime : Z
}.
Definition init : t := mk false false 0 0 0.
Definition isValid (d : t) : bool := valid d.
Definition isUpdated (d : t) : bool := updated d.
Definition commit (now : Z) (d : t) : t :=
  mk true true (newDate d) (newDate d) now.
Definition setDate (term : list ascii) (d : t) : t :=
  mk (valid d) (updated d) (date d) (to_uint32 (atol term))
     (lastCommitTime d).
Definition value (d : t) : Z * t :=
  (date d, mk (valid d) false (date d) (newDate d) (lastCommitTime d)).
Definition published (d : t) := (valid d, updated d, date d, lastCommitTime d).
(** [age()]: the time since the last commit, [now] being what the call of
    [millis()] returns. *)
Definition age (now : Z) (d : t) : Z :=
  if valid d then to_uint32 (now - lastCommitTime d) else to_uint32 ULONG_MAX.
(** [year()], [month()], [day()]: the fields of [ddmmyy]; each read clears
    [updated]. *)
Definition read (d : t) : t :=
  mk (valid d) false (date d) (newDate d) (lastCommitTime d).
Definition year (d : t) : Z * t :=
  let year := to_uint16 (date d mod 100) in
  (to_uint16 (year + 2000), read d).
Definition month (d : t) : Z * t := (to_uint8 ((date d / 100) mod 100), read d).
Definition day (d : t) : Z * t := (to_uint8 (date d / 10000), read d).
End TinyGPSDate.

Module TinyGPSTime.
Record t := mk {
  valid : bool;
  updated : bool;
  time : Z;        (* uint32_t *)
  newTime : Z;     (* uint32_t *)
  lastCommitTime : Z
}.
Definition init : t := mk false false 0 0 0.
Definition isValid (d : t) : bool := valid d.
Definition isUpdated (d : t) : bool := updated d.
Definition commit (now : Z) (d : t) : t :=
  mk true true (newTime d) (newTime d) now.
Definition setTime (term : list ascii) (d : t) : t :=
  mk (valid d) (updated d) (time d) (to_uint32 (parseDecimal term))
     (lastCommitTime d).
Definition value (d : t) : Z * t :=
  (time d, mk (valid d) false (time d) (newTime d) (lastCommitTime d)).
Definition published (d : t) := (valid d, updated d, time d, lastCommitTime d).
(** [age()]: the time since the last commit, [now] being what the call of
    [millis()] returns. *)
Definition age (now : Z) (d : t) : Z :=
  if valid d then to_uint32 (now - lastCommitTime d) else to_uint32 ULONG_MAX.
(** [hour()], [minute()], [second()], [centisecond()]: the fields of
    [hhmmsscc]; each read clears [updated]. *)
Definition read (d : t) : t :=
  mk (valid d) false (time d) (newTime d) (lastCommitTime d).
Definition hour (d : t) : Z * t := (to_uint8 (time d / 1000000), read d).
Definition minute (d : t) : Z * t := (to_uint8 ((time d / 10000) mod 100), read d).
Definition second (d : t) : Z * t := (to_uint8 ((time d / 100) mod 100), read d).
Definition centisecond (d : t) : Z * t := (to_uint8 (time d mod 100), read d).
End TinyGPSTime.

(** [TinyGPSSpeed], [TinyGPSCourse], [TinyGPSAltitude] and [TinyGPSHDOP]
    derive from [TinyGPSDecimal] and add unit conversions only. *)
Module TinyGPSDecimal.
Record t := mk {
  valid : bool;
  updated : bool;
  lastCommitTime : Z;
  val : Z;         (* int32_t *)
  newval : Z       (* int32_t *)
}.
Definition init : t := mk false false 0 0 0.
Definition isValid (d : t) : bool := valid d.
Definition isUpdated (d : t) : bool := updated d.
Definition commit (now : Z) (d : t) : t :=
  mk true true now (newval d) (newval d).
Definition set (term : list ascii) (d : t) : t :=
  mk (valid d) (updated d) (lastCommitTime d) (val d) (parseDecimal term).
Definition value (d : t) : Z * t :=
  (val d, mk (valid d) false (lastCommitTime d) (val d) (newval d)).
Definition published (d : t) := (valid d, updated d, val d, lastCommitTime d).
(** [age()]: the time since the last commit, [now] being what the call of
    [millis()] returns. *)
Definition age (now : Z) (d : t) : Z :=
  if valid d then to_uint32 (now - lastCommitTime d) else to_uint32 ULONG_MAX.
End TinyGPSDecimal.

Module TinyGPSInteger.
Record t := mk {
  valid : bool;
  updated : bool;
  lastCommitTime : Z;
  val : Z;         (* uint32_t *)
  newval : Z       (* uint32_t *)
}.
Definition init : t := mk false false 0 0 0.
Definition isValid (d : t) : bool := valid d.
Definition isUpdated (d : t) : bool := updated d.
Definition commit (now : Z) (d : t) : t :=
  mk true true now (newval d) (newval d).
Definition set (term : list ascii) (d : t) : t :=
  mk (valid d) (updated d) (lastCommitTime d) (val d) (to_uint32 (atol term)).
Definition value (d : t) : Z * t :=
  (val d, mk (valid d) false (lastCommitTime d) (val d) (newval d)).
Definition published (d : t) := (valid d, updated d, val d, lastCommitTime d).
(** [age()]: the time since the last commit, [now] being what the call of
    [millis()] returns. *)
Definition age (now : Z) (d : t) : Z :=
  if valid d then to_uint32 (now - lastCommitTime d) else to_uint32 ULONG_MAX.
End TinyGPSInteger.

Definition _GPS_MAX_FIELD_SIZE : nat := 15.

(** A registered custom field.  The [next] link of the source is the
    order of the entries in the registry list of the parser. *)
Module TinyGPSCustom.
Record t := mk {
  stagingBuffer : list ascii;   (* char[_GPS_MAX_FIELD_SIZE + 1] *)
  buffer : list ascii;          (* char[_GPS_MAX_FIELD_SIZE + 1] *)
  lastCommitTime : Z;
  valid : bool;
  updated : bool;
  sentenceName : list ascii;
  termNumber : Z                (* int *)
}.
(** The entry as [begin] leaves it before linking it into the parser. *)
Definition fresh (_sentenceName : list ascii) (_termNumber : Z) : t :=
  mk (repeat NUL (S _GPS_MAX_FIELD_SIZE)) (repeat NUL (S _GPS_MAX_FIELD_SIZE))
     0 false false _sentenceName _termNumber.
Definition isValid (p : t) : bool := valid p.
Definition isUpdated (p : t) : bool := updated p.
Definition commit (now : Z) (p : t) : t :=
  mk (stagingBuffer p) (strcpy (buffer p) (stagingBuffer p)) now true true
     (sentenceName p) (termNumber p).
Definition set (term : list ascii) (p : t) : t :=
  mk (strncpy (stagingBuffer p) term (S _GPS_MAX_FIELD_SIZE)) (buffer p)
     (lastCommitTime p) (valid p) (updated p) (sentenceName p) (termNumber p).
(** [value()]: the committed text; the read clears [updated]. *)
Definition value (p : t) : list ascii * t :=
  (cstr (buffer p),
   mk (stagingBuffer p) (buffer p) (lastCommitTime p) (valid p) false
      (sentenceName p) (termNumber p)).
Definition published (p : t) :=
  (buffer p, valid p, updated p, lastCommitTime p).
(** [age()]: the time since the last commit, [now] being what the call of
    [millis()] returns. *)
Definition age (now : Z) (p : t) : Z :=
  if valid p then to_uint32 (now - lastCommitTime p) else to_uint32 ULONG_MAX.
End TinyGPSCustom.

(** ** The parser object *)

Definition GPS_SENTENCE_GPGGA : Z := 0.
Definition GPS_SENTENCE_GPRMC : Z := 1.
Definition GPS_SENTENCE_OTHER : Z := 2.

Definition _GPRMCterm : list ascii := chars "GPRMC".
Definition _GPGGAterm : list ascii := chars "GPGGA".
Definition _GNRMCterm : list ascii := chars "GNRMC".
Definition _GNGGAterm : list ascii := chars "GNGGA".

(** [customElts] is the registry, head first; [customCandidates] points
    into it and is kept as the position of the entry it points to
    ([None] for the null pointer).  [clockReads] counts the calls made to
    [millis()]. *)
Record TinyGPSPlus := mkTinyGPSPlus {
  location : TinyGPSLocation.t;
  date : TinyGPSDate.t;
  time : TinyGPSTime.t;
  speed : TinyGPSDecimal.t;
  course : TinyGPSDecimal.t;
  altitude : TinyGPSDecimal.t;
  satellites : TinyGPSInteger.t;
  hdop : TinyGPSDecimal.t;
  parity : Z;   (* uint8_t *)
  isChecksumTerm : bool;
  term : list ascii;   (* char[_GPS_MAX_FIELD_SIZE] *)
  curSentenceType : Z;   (* uint8_t *)
  curTermNumber : Z;   (* uint8_t *)
  curTermOffset : Z;   (* uint8_t *)
  sentenceHasFix : bool;
  customElts : list TinyGPSCustom.t;
  customCandidates : option nat;
  encodedCharCount : Z;   (* uint32_t *)
  sentencesWithFixCount : Z;   (* uint32_t *)
  failedChecksumCount : Z;   (* uint32_t *)
  passedChecksumCount : Z;   (* uint32_t *)
  clockReads : nat
}.

(** Assignment to one member of the parser object. *)
Definition set_location (v : TinyGPSLocation.t) (g : TinyGPSPlus) : TinyGPSPlus :=
  mkTinyGPSPlus v (date g) (time g) (speed g) (course g) (altitude g)
    (satellites g) (hdop g) (parity g) (isChecksumTerm g) (term g)
    (curSentenceType g) (curTermNumber g) (curTermOffset g) (sentenceHasFix g)
    (customElts g) (customCandidates g) (encodedCharCount g)
    (sentencesWithFixCount g) (failedChecksumCount g) (passedChecksumCount g)
    (clockReads g).
Definition set_date (v : TinyGPSDate.t) (g : TinyGPSPlus) : TinyGPSPlus :=
  mkTinyGPSPlus (location g) v (time g) (speed g) (course g) (altitude g)
    (satellites g) (hdop g) (parity g) (isChecksumTerm g) (term g)
    (curSentenceType g) (curTermNumber g) (curTermOffset g) (sentenceHasFix g)
    (customElts g) (customCandidates g) (encodedCharCount g)
    (sentencesWithFixCount g) (failedChecksumCount g) (passedChecksumCount g)
    (clockReads g).
Definition set_time (v : TinyGPSTime.t) (g : TinyGPSPlus) : TinyGPSPlus :=
  mkTinyGPSPlus (location g) (date g) v (speed g) (course g) (altitude g)
    (satellites g) (hdop g) (parity g) (isChecksumTerm g) (term g)
    (curSentenceType g) (curTermNumber g) (curTermOffset g) (sentenceHasFix g)
    (customElts g) (customCandidates g) (encodedCharCount g)
    (sentencesWithFixCount g) (failedChecksumCount g) (passedChecksumCount g)
    (clockReads g).
Definition set_speed (v : TinyGPSDecimal.t) (g : TinyGPSPlus) : TinyGPSPlus :=
  mkTinyGPSPlus (location g) (date g) (time g) v (course g) (altitude g)
    (satellites g) (hdop g) (parity g) (isChecksumTerm g) (term g)
    (curSentenceType g) (curTermNumber g) (curTermOffset g) (sentenceHasFix g)
    (customElts g) (customCandidates g) (encodedCharCount g)
    (sentencesWithFixCount g) (failedChecksumCount g) (passedChecksumCount g)
    (clockReads g).
Definition set_course (v : TinyGPSDecimal.t) (g : TinyGPSPlus) : TinyGPSPlus :=
  mkTinyGPSPlus (location g) (date g) (time g) (speed g) v (altitude g)
    (satellites g) (hdop g) (parity g) (isChecksumTerm g) (term g)
    (curSentenceType g) (curTermNumber g) (curTermOffset g) (sentenceHasFix g)
    (customElts g) (customCandidates g) (encodedCharCount g)
    (sentencesWithFixCount g) (failedChecksumCount g) (passedChecksumCount g)
    (clockReads g).
Definition set_altitude (v : TinyGPSDecimal.t) (g : TinyGPSPlus) : TinyGPSPlus :=
  mkTinyGPSPlus (location g) (date g) (time g) (speed g) (course g) v
    (satellites g) (hdop g) (parity g) (isChecksumTerm g) (term g)
    (curSentenceType g) (curTermNumber g) (curTermOffset g) (sentenceHasFix g)
    (customElts g) (customCandidates g) (encodedCharCount g)
    (sentencesWithFixCount g) (failedChecksumCount g) (passedChecksumCount g)
    (clockReads g).
Definition set_satellites (v : TinyGPSInteger.t) (g : TinyGPSPlus) : TinyGPSPlus :=
  mkTinyGPSPlus (location g) (date g) (time g) (speed g) (course g)
    (altitude g) v (hdop g) (parity g) (isChecksumTerm g) (term g)
    (curSentenceType g) (curTermNumber g) (curTermOffset g) (sentenceHasFix g)
    (customElts g) (customCandidates g) (encodedCharCount g)
    (sentencesWithFixCount g) (failedChecksumCount g) (passedChecksumCount g)
    (clockReads g).
Definition set_hdop (v : TinyGPSDecimal.t) (g : TinyGPSPlus) : TinyGPSPlus :=
  mkTinyGPSPlus (location g) (date g) (time g) (speed g) (course g)
    (altitude g) (satellites g) v (parity g) (isChecksumTerm g) (term g)
    (curSentenceType g) (curTermNumber g) (curTermOffset g) (sentenceHasFix g)
    (customElts g) (customCandidates g) (encodedCharCount g)
    (sentencesWithFixCount g) (failedChecksumCount g) (passedChecksumCount g)
    (clockReads g).
Definition set_parity (v : Z) (g : TinyGPSPlus) : TinyGPSPlus :=
  mkTinyGPSPlus (location g) (date g) (time g) (speed g) (course g)
    (altitude g) (satellites g) (hdop g) v (isChecksumTerm g) (term g)
    (curSentenceType g) (curTermNumber g) (curTermOffset g) (sentenceHasFix g)
    (customElts g) (customCandidates g) (encodedCharCount g)
    (sentencesWithFixCount g) (failedChecksumCount g) (passedChecksumCount g)
    (clockReads g).
Definition set_isChecksumTerm (v : bool) (g : TinyGPSPlus) : TinyGPSPlus :=
  mkTinyGPSPlus (location g) (date g) (time g) (speed g) (course g)
    (altitude g) (satellites g) (hdop g) (parity g) v (term g)
    (curSentenceType g) (curTermNumber g) (curTermOffset g) (sentenceHasFix g)
    (customElts g) (customCandidates g) (encodedCharCount g)
    (sentencesWithFixCount g) (failedChecksumCount g) (passedChecksumCount g)
    (clockReads g).
Definition set_term (v : list ascii) (g : TinyGPSPlus) : TinyGPSPlus :=
  mkTinyGPSPlus (location g) (date g) (time g) (speed g) (course g)
    (altitude g) (satellites g) (hdop g) (parity g) (isChecksumTerm g) v
    (curSentenceType g) (curTermNumber g) (curTermOffset g) (sentenceHasFix g)
    (customElts g) (customCandidates g) (encodedCharCount g)
    (sentencesWithFixCount g) (failedChecksumCount g) (passedChecksumCount g)
    (clockReads g).
Definition set_curSentenceType (v : Z) (g : TinyGPSPlus) : TinyGPSPlus :=
  mkTinyGPSPlus (location g) (date g) (time g) (speed g) (course g)
    (altitude g) (satellites g) (hdop g) (parity g) (isChecksumTerm g)
    (term g) v (curTermNumber g) (curTermOffset g) (sentenceHasFix g)
    (customElts g) (customCandidates g) (encodedCharCount g)
    (sentencesWithFixCount g) (failedChecksumCount g) (passedChecksumCount g)
    (clockReads g).
Definition set_curTermNumber (v : Z) (g : TinyGPSPlus) : TinyGPSPlus :=
  mkTinyGPSPlus (location g) (date g) (time g) (speed g) (course g)
    (altitude g) (satellites g) (hdop g) (parity g) (isChecksumTerm g)
    (term g) (curSentenceType g) v (curTermOffset g) (sentenceHasFix g)
    (customElts g) (customCandidates g) (encodedCharCount g)
    (sentencesWithFixCount g) (failedChecksumCount g) (passedChecksumCount g)
    (clockReads g).
Definition set_curTermOffset (v : Z) (g : TinyGPSPlus) : TinyGPSPlus :=
  mkTinyGPSPlus (location g) (date g) (time g) (speed g) (course g)
    (altitude g) (satellites g) (hdop g) (parity g) (isChecksumTerm g)
    (term g) (curSentenceType g) (curTermNumber g) v (sentenceHasFix g)
    (customElts g) (customCandidates g) (encodedCharCount g)
    (sentencesWithFixCount g) (failedChecksumCount g) (passedChecksumCount g)
    (clockReads g).
Definition set_sentenceHasFix (v : bool) (g : TinyGPSPlus) : TinyGPSPlus :=
  mkTinyGPSPlus (location g) (date g) (time g) (speed g) (course g)
    (altitude g) (satellites g) (hdop g) (parity g) (isChecksumTerm g)
    (term g) (curSentenceType g) (curTermNumber g) (curTermOffset g) v
    (customElts g) (customCandidates g) (encodedCharCount g)
    (sentencesWithFixCount g) (failedChecksumCount g) (passedChecksumCount g)
    (clockReads g).
Definition set_customElts (v : list TinyGPSCustom.t) (g : TinyGPSPlus) : TinyGPSPlus :=
  mkTinyGPSPlus (location g) (date g) (time g) (speed g) (course g)
    (altitude g) (satellites g) (hdop g) (parity g) (isChecksumTerm g)
    (term g) (curSentenceType g) (curTermNumber g) (curTermOffset g)
    (sentenceHasFix g) v (customCandidates g) (encodedCharCount g)
    (sentencesWithFixCount g) (failedChecksumCount g) (passedChecksumCount g)
    (clockReads g).
Definition set_customCandidates (v : option nat) (g : TinyGPSPlus) : TinyGPSPlus :=
  mkTinyGPSPlus (location g) (date g) (time g) (speed g) (course g)
    (altitude g) (satellites g) (hdop g) (parity g) (isChecksumTerm g)
    (term g) (curSentenceType g) (curTermNumber g) (curTermOffset g)
    (sentenceHasFix g) (customElts g) v (encodedCharCount g)
    (sentencesWithFixCount g) (failedChecksumCount g) (passedChecksumCount g)
    (clockReads g).
Definition set_encodedCharCount (v : Z) (g : TinyGPSPlus) : TinyGPSPlus :=
  mkTinyGPSPlus (location g) (date g) (time g) (speed g) (course g)
    (altitude g) (satellites g) (hdop g) (parity g) (isChecksumTerm g)
    (term g) (curSentenceType g) (curTermNumber g) (curTermOffset g)
    (sentenceHasFix g) (customElts g) (customCandidates g) v
    (sentencesWithFixCount g) (failedChecksumCount g) (passedChecksumCount g)
    (clockReads g).
Definition set_sentencesWithFixCount (v : Z) (g : TinyGPSPlus) : TinyGPSPlus :=
  mkTinyGPSPlus (location g) (date g) (time g) (speed g) (course g)
    (altitude g) (satellites g) (hdop g) (parity g) (isChecksumTerm g)
    (term g) (curSentenceType g) (curTermNumber g) (curTermOffset g)
    (sentenceHasFix g) (customElts g) (customCandidates g)
    (encodedCharCount g) v (failedChecksumCount g) (passedChecksumCount g)
    (clockReads g).
Definition set_failedChecksumCount (v : Z) (g : TinyGPSPlus) : TinyGPSPlus :=
  mkTinyGPSPlus (location g) (date g) (time g) (speed g) (course g)
    (altitude g) (satellites g) (hdop g) (parity g) (isChecksumTerm g)
    (term g) (curSentenceType g) (curTermNumber g) (curTermOffset g)
    (sentenceHasFix g) (customElts g) (customCandidates g)
    (encodedCharCount g) (sentencesWithFixCount g) v (passedChecksumCount g)
    (clockReads g).
Definition set_passedChecksumCount (v : Z) (g : TinyGPSPlus) : TinyGPSPlus :=
  mkTinyGPSPlus (location g) (date g) (time g) (speed g) (course g)
    (altitude g) (satellites g) (hdop g) (parity g) (isChecksumTerm g)
    (term g) (curSentenceType g) (curTermNumber g) (curTermOffset g)
    (sentenceHasFix g) (customElts g) (customCandidates g)
    (encodedCharCount g) (sentencesWithFixCount g) (failedChecksumCount g) v
    (clockReads g).
Definition set_clockReads (v : nat) (g : TinyGPSPlus) : TinyGPSPlus :=
  mkTinyGPSPlus (location g) (date g) (time g) (speed g) (course g)
    (altitude g) (satellites g) (hdop g) (parity g) (isChecksumTerm g)
    (term g) (curSentenceType g) (curTermNumber g) (curTermOffset g)
    (sentenceHasFix g) (customElts g) (customCandidates g)
    (encodedCharCount g) (sentencesWithFixCount g) (failedChecksumCount g)
    (passedChecksumCount g) v.

(** The constructor; the bytes of [term] after the first are left
    indeterminate by the source and are taken as NUL here. *)
Definition TinyGPSPlus_init : TinyGPSPlus :=
  mkTinyGPSPlus TinyGPSLocation.init TinyGPSDate.init TinyGPSTime.init
    TinyGPSDecimal.init TinyGPSDecimal.init TinyGPSDecimal.init
    TinyGPSInteger.init TinyGPSDecimal.init
    0 false (repeat NUL _GPS_MAX_FIELD_SIZE) GPS_SENTENCE_OTHER 0 0 false
    [] None 0 0 0 0 0%nat.

Definition COMBINE (sentence_type term_number : Z) : Z :=
  Z.lor (Z.shiftl sentence_type 5) term_number.

(** [TinyGPSPlus::isUpdated]. *)
Definition isUpdated (g : TinyGPSPlus) : bool :=
  TinyGPSLocation.isUpdated (location g) || TinyGPSDate.isUpdated (date g) ||
  TinyGPSTime.isUpdated (time g) || TinyGPSDecimal.isUpdated (speed g) ||
  TinyGPSDecimal.isUpdated (course g) || TinyGPSDecimal.isUpdated (altitude g) ||
  TinyGPSInteger.isUpdated (satellites g) || TinyGPSDecimal.isUpdated (hdop g).

(** The statistics accessors. *)
Definition charsProcessed (g : TinyGPSPlus) : Z := encodedCharCount g.
Definition sentencesWithFix (g : TinyGPSPlus) : Z := sentencesWithFixCount g.
Definition failedChecksum (g : TinyGPSPlus) : Z := failedChecksumCount g.
Definition passedChecksum (g : TinyGPSPlus) : Z := passedChecksumCount g.

(** *** The registry *)

(** The loop of [insertCustom]: the position of the link at which it
    breaks, counted from position [k] of the head of [l]. *)
Fixpoint insertCustom_pos (sentenceName : list ascii) (termNumber : Z)
    (l : list TinyGPSCustom.t) (k : nat) : nat :=
  match l with
  | [] => k
  | e :: rest =>
      let cmp := strcmp sentenceName (TinyGPSCustom.sentenceName e) in
      if (cmp <? 0) || ((cmp =? 0) && (termNumber <? TinyGPSCustom.termNumber e))
      then k
      else insertCustom_pos sentenceName termNumber rest (S k)
  end.

(** [insertCustom]: [pElt] is linked in at that position.  An entry that
    [customCandidates] points to stays the same entry, so its position
    moves by one when [pElt] goes in before it. *)
Definition insertCustom (pElt : TinyGPSCustom.t) (sentenceName : list ascii)
    (termNumber : Z) (g : TinyGPSPlus) : TinyGPSPlus :=
  let k := insertCustom_pos sentenceName termNumber (customElts g) 0 in
  let g' :=
    set_customElts (firstn k (customElts g) ++ pElt :: skipn k (customElts g)) g in
  match customCandidates g with
  | Some j => if (k <=? j)%nat then set_customCandidates (Some (S j)) g' else g'
  | None => g'
  end.

(** [TinyGPSCustom::begin] on an entry that is not yet in the registry. *)
Definition begin (_sentenceName : list ascii) (_termNumber : Z)
    (g : TinyGPSPlus) : TinyGPSPlus :=
  insertCustom (TinyGPSCustom.fresh _sentenceName _termNumber)
    _sentenceName _termNumber g.

(** The scan of [endOfTermHandler] for the first entry whose name is not
    below [term], from position [k]. *)
Fixpoint scanCandidates (term : list ascii) (l : list TinyGPSCustom.t)
    (k : nat) : option nat :=
  match l with
  | [] => None
  | e :: rest =>
      if strcmp (TinyGPSCustom.sentenceName e) term <? 0
      then scanCandidates term rest (S k)
      else Some k
  end.

Definition findCandidates (term : list ascii) (elts : list TinyGPSCustom.t)
    : option nat :=
  match scanCandidates term elts 0 with
  | None => None
  | Some k =>
      match nth_error elts k with
      | Some e =>
          if 0 <? strcmp (TinyGPSCustom.sentenceName e) term then None
          else Some k
      | None => None
      end
  end.

(** The staging loop: entries named as the first candidate, while their
    term number does not exceed the current one. *)
Fixpoint setCandidates (head term : list ascii) (curTermNumber : Z)
    (l : list TinyGPSCustom.t) : list TinyGPSCustom.t :=
  match l with
  | [] => []
  | p :: rest =>
      if (strcmp (TinyGPSCustom.sentenceName p) head =? 0)
         && (TinyGPSCustom.termNumber p <=? curTermNumber)
      then (if TinyGPSCustom.termNumber p =? curTermNumber
            then TinyGPSCustom.set term p else p)
           :: setCandidates head term curTermNumber rest
      else l
  end.

Definition setCustoms (g : TinyGPSPlus) : TinyGPSPlus :=
  match customCandidates g with
  | None => g
  | Some k =>
      match skipn k (customElts g) with
      | [] => g
      | (first :: _) as l =>
          set_customElts
            (firstn k (customElts g) ++
             setCandidates (TinyGPSCustom.sentenceName first) (term g)
               (curTermNumber g) l) g
      end
  end.

(** What a client does to a parser: it registers a custom field or it
    feeds a character. *)
Inductive action : Type :=
  | Register (sentenceName : list ascii) (termNumber : Z)
  | Feed (c : ascii).

Section Parser.

(** The clock: [millis n] is what the [n]-th call of [millis()] returns. *)
Variable millis : nat -> Z.

(** The commit loop: every entry named as the first candidate is
    committed; [n] counts the clock readings. *)
Fixpoint commitCandidates (head : list ascii) (n : nat)
    (l : list TinyGPSCustom.t) : list TinyGPSCustom.t * nat :=
  match l with
  | [] => ([], n)
  | p :: rest =>
      if strcmp (TinyGPSCustom.sentenceName p) head =? 0
      then let '(rest', n') := commitCandidates head (S n) rest in
           (TinyGPSCustom.commit (millis n) p :: rest', n')
      else (l, n)
  end.

Definition commitCustoms (g : TinyGPSPlus) : TinyGPSPlus :=
  match customCandidates g with
  | None => g
  | Some k =>
      match skipn k (customElts g) with
      | [] => g
      | (first :: _) as l =>
          let '(l', n) :=
            commitCandidates (TinyGPSCustom.sentenceName first) (clockReads g) l in
          set_clockReads n (set_customElts (firstn k (customElts g) ++ l') g)
      end
  end.

(** *** Commits of the native containers *)

Definition now (g : TinyGPSPlus) : Z := millis (clockReads g).
Definition tick (g : TinyGPSPlus) : TinyGPSPlus :=
  set_clockReads (S (clockReads g)) g.

Definition commit_location (g : TinyGPSPlus) : TinyGPSPlus :=
  tick (set_location (TinyGPSLocation.commit (now g) (location g)) g).
Definition commit_date (g : TinyGPSPlus) : TinyGPSPlus :=
  tick (set_date (TinyGPSDate.commit (now g) (date g)) g).
Definition commit_time (g : TinyGPSPlus) : TinyGPSPlus :=
  tick (set_time (TinyGPSTime.commit (now g) (time g)) g).
Definition commit_speed (g : TinyGPSPlus) : TinyGPSPlus :=
  tick (set_speed (TinyGPSDecimal.commit (now g) (speed g)) g).
Definition commit_course (g : TinyGPSPlus) : TinyGPSPlus :=
  tick (set_course (TinyGPSDecimal.commit (now g) (course g)) g).
Definition commit_altitude (g : TinyGPSPlus) : TinyGPSPlus :=
  tick (set_altitude (TinyGPSDecimal.commit (now g) (altitude g)) g).
Definition commit_satellites (g : TinyGPSPlus) : TinyGPSPlus :=
  tick (set_satellites (TinyGPSInteger.commit (now g) (satellites g)) g).
Definition commit_hdop (g : TinyGPSPlus) : TinyGPSPlus :=
  tick (set_hdop (TinyGPSDecimal.commit (now g) (hdop g)) g).

(** The [switch (curSentenceType)] of a sentence that passed its
    checksum. *)
Definition commitNative (g : TinyGPSPlus) : TinyGPSPlus :=
  if curSentenceType g =? GPS_SENTENCE_GPRMC then
    let g := commit_date g in
    let g := commit_time g in
    if sentenceHasFix g
    then commit_course (commit_speed (commit_location g))
    else g
  else if curSentenceType g =? GPS_SENTENCE_GPGGA then
    let g := commit_time g in
    let g := if sentenceHasFix g
             then commit_altitude (commit_location g) else g in
    commit_hdop (commit_satellites g)
  else g.

(** *** End of a term *)

(** The checksum byte read from the first two characters of [term]. *)
Definition termChecksum (term : list ascii) : Z :=
  to_uint8 (16 * fromHex (at_ term 0) + fromHex (at_ term 1)).

(** The first term names the sentence. *)
Definition classify (term : list ascii) : Z :=
  if (strcmp term _GPRMCterm =? 0) || (strcmp term _GNRMCterm =? 0)
  then GPS_SENTENCE_GPRMC
  else if (strcmp term _GPGGAterm =? 0) || (strcmp term _GNGGAterm =? 0)
  then GPS_SENTENCE_GPGGA
  else GPS_SENTENCE_OTHER.

(** The [switch (COMBINE(curSentenceType, curTermNumber))], guarded by
    [curSentenceType != GPS_SENTENCE_OTHER && term[0]]. *)
Definition setNative (g : TinyGPSPlus) : TinyGPSPlus :=
  let t := term g in
  if negb (curSentenceType g =? GPS_SENTENCE_OTHER) && negb (at_ t 0 =c NUL)
  then
    let k := COMBINE (curSentenceType g) (curTermNumber g) in
    if (k =? COMBINE GPS_SENTENCE_GPRMC 1) || (k =? COMBINE GPS_SENTENCE_GPGGA 1)
    then set_time (TinyGPSTime.setTime t (time g)) g
    else if k =? COMBINE GPS_SENTENCE_GPRMC 2
    then set_sentenceHasFix (at_ t 0 =c "A"%char) g
    else if (k =? COMBINE GPS_SENTENCE_GPRMC 3) || (k =? COMBINE GPS_SENTENCE_GPGGA 2)
    then set_location (TinyGPSLocation.setLatitude t (location g)) g
    else if (k =? COMBINE GPS_SENTENCE_GPRMC 4) || (k =? COMBINE GPS_SENTENCE_GPGGA 3)
    then set_location
           (TinyGPSLocation.setLatitudeNegative (at_ t 0 =c "S"%char) (location g)) g
    else if (k =? COMBINE GPS_SENTENCE_GPRMC 5) || (k =? COMBINE GPS_SENTENCE_GPGGA 4)
    then set_location (TinyGPSLocation.setLongitude t (location g)) g
    else if (k =? COMBINE GPS_SENTENCE_GPRMC 6) || (k =? COMBINE GPS_SENTENCE_GPGGA 5)
    then set_location
           (TinyGPSLocation.setLongitudeNegative (at_ t 0 =c "W"%char) (location g)) g
    else if k =? COMBINE GPS_SENTENCE_GPRMC 7
    then set_speed (TinyGPSDecimal.set t (speed g)) g
    else if k =? COMBINE GPS_SENTENCE_GPRMC 8
    then set_course (TinyGPSDecimal.set t (course g)) g
    else if k =? COMBINE GPS_SENTENCE_GPRMC 9
    then set_date (TinyGPSDate.setDate t (date g)) g
    else if k =? COMBINE GPS_SENTENCE_GPGGA 6
    then set_sentenceHasFix (code "0"%char <? code (at_ t 0)) g
    else if k =? COMBINE GPS_SENTENCE_GPGGA 7
    then set_satellites (TinyGPSInteger.set t (satellites g)) g
    else if k =? COMBINE GPS_SENTENCE_GPGGA 8
    then set_hdop (TinyGPSDecimal.set t (hdop g)) g
    else if k =? COMBINE GPS_SENTENCE_GPGGA 9
    then set_altitude (TinyGPSDecimal.set t (altitude g)) g
    else g
  else g.

Definition endOfTermHandler (g : TinyGPSPlus) : bool * TinyGPSPlus :=
  if isChecksumTerm g then
    let checksum := termChecksum (term g) in
    if checksum =? parity g then
      let g := set_passedChecksumCount (to_uint32 (passedChecksumCount g + 1)) g in
      let g := if sentenceHasFix g
               then set_sentencesWithFixCount
                      (to_uint32 (sentencesWithFixCount g + 1)) g
               else g in
      let g := commitNative g in
      (true, commitCustoms g)
    else
      (false, set_failedChecksumCount (to_uint32 (failedChecksumCount g + 1)) g)
  else if curTermNumber g =? 0 then
    let g := set_curSentenceType (classify (term g)) g in
    (false, set_customCandidates (findCandidates (term g) (customElts g)) g)
  else
    (false, setCustoms (setNative g)).

(** *** One character *)

Definition isTermTerminator (c : ascii) : bool :=
  (c =c ","%char) || (c =c CR) || (c =c LF) || (c =c "*"%char).

(** [parity ^= (uint8_t)c] for the field separator.  The exclusive-or of
    two bytes is a byte, so there is no wrap-around to write out. *)
Definition foldSeparator (c : ascii) (g : TinyGPSPlus) : TinyGPSPlus :=
  if c =c ","%char then set_parity (Z.lxor (parity g) (code c)) g else g.

(** [term[curTermOffset] = 0]. *)
Definition terminateTerm (g : TinyGPSPlus) : TinyGPSPlus :=
  set_term (store (term g) (Z.to_nat (curTermOffset g)) NUL) g.

Definition encode (c : ascii) (g : TinyGPSPlus) : bool * TinyGPSPlus :=
  let g := set_encodedCharCount (to_uint32 (encodedCharCount g + 1)) g in
  if isTermTerminator c then
    let g := foldSeparator c g in
    let '(isValidSentence, g) :=
      if curTermOffset g <? Z.of_nat _GPS_MAX_FIELD_SIZE
      then endOfTermHandler (terminateTerm g)
      else (false, g) in
    let g := set_curTermNumber (to_uint8 (curTermNumber g + 1)) g in
    let g := set_curTermOffset 0 g in
    let g := set_isChecksumTerm (c =c "*"%char) g in
    (isValidSentence, g)
  else if c =c "$"%char then
    let g := set_curTermOffset 0 (set_curTermNumber 0 g) in
    let g := set_parity 0 g in
    let g := set_curSentenceType GPS_SENTENCE_OTHER g in
    let g := set_isChecksumTerm false g in
    let g := set_sentenceHasFix false g in
    (false, g)
  else
    let g :=
      if curTermOffset g <? Z.of_nat _GPS_MAX_FIELD_SIZE - 1
      then set_curTermOffset (curTermOffset g + 1)
             (set_term (store (term g) (Z.to_nat (curTermOffset g)) c) g)
      else g in
    let g := if negb (isChecksumTerm g)
             then set_parity (Z.lxor (parity g) (code c)) g else g in
    (false, g).

(** Feeding a sequence of characters, as [operator<<] chains do. *)
Fixpoint feed (g : TinyGPSPlus) (s : list ascii) : TinyGPSPlus :=
  match s with
  | [] => g
  | c :: r => feed (snd (encode c g)) r
  end.

(** A client session. *)
Definition perform (a : action) (g : TinyGPSPlus) : TinyGPSPlus :=
  match a with
  | Register sentenceName termNumber => begin sentenceName termNumber g
  | Feed c => snd (encode c g)
  end.

Definition session (acts : list action) : TinyGPSPlus :=
  fold_left (fun g a => perform a g) acts TinyGPSPlus_init.

End Parser.

(** ** Vocabulary of the statements *)

(** The state in which [endOfTermHandler] runs when [c] ends a term. *)
Definition atEndOfTerm (c : ascii) (g : TinyGPSPlus) : TinyGPSPlus :=
  terminateTerm (foldSeparator c (set_encodedCharCount
    (to_uint32 (encodedCharCount g + 1)) g)).

(** An ordinary character: neither a term terminator nor ['$']. *)
Definition ordinary (c : ascii) : bool :=
  negb (isTermTerminator c) && negb (c =c "$"%char).

Definition digit (c : ascii) : Z := code c - code "0"%char.

(** The number written by a run of decimal digits. *)
Definition decimalValue (ds : list ascii) : Z :=
  fold_left (fun acc c => 10 * acc + digit c) ds 0.

(** The exclusive-or of the bytes of a text. *)
Definition xorAll (s : list ascii) : Z :=
  fold_left (fun acc c => Z.lxor acc (code c)) s 0.

(** *** Views of the parser object *)

(** Everything the read surface of the containers exposes: the committed
    values with their flags and commit times, for the eight native
    containers and for every registry entry. *)
Definition observable (g : TinyGPSPlus) :=
  (TinyGPSLocation.published (location g), TinyGPSDate.published (date g),
   TinyGPSTime.published (time g), TinyGPSDecimal.published (speed g),
   TinyGPSDecimal.published (course g), TinyGPSDecimal.published (altitude g),
   TinyGPSInteger.published (satellites g), TinyGPSDecimal.published (hdop g),
   map TinyGPSCustom.published (customElts g)).

(** The eight native containers. *)
Definition natives (g : TinyGPSPlus) :=
  (location g, date g, time g, speed g, course g, altitude g, satellites g,
   hdop g).

(** The [updated] flags of the native containers. *)
Definition nativeUpdated (g : TinyGPSPlus) :=
  (TinyGPSLocation.updated (location g), TinyGPSDate.updated (date g),
   TinyGPSTime.updated (time g), TinyGPSDecimal.updated (speed g),
   TinyGPSDecimal.updated (course g), TinyGPSDecimal.updated (altitude g),
   TinyGPSInteger.updated (satellites g), TinyGPSDecimal.updated (hdop g)).

(** The staged values of the native containers. *)
Definition nativeStaged (g : TinyGPSPlus) :=
  (TinyGPSLocation.rawNewLatData (location g),
   TinyGPSLocation.rawNewLngData (location g),
   TinyGPSDate.newDate (date g), TinyGPSTime.newTime (time g),
   TinyGPSDecimal.newval (speed g), TinyGPSDecimal.newval (course g),
   TinyGPSDecimal.newval (altitude g), TinyGPSInteger.newval (satellites g),
   TinyGPSDecimal.newval (hdop g)).

(** The checksum and fix counters. *)
Definition statistics (g : TinyGPSPlus) :=
  (sentencesWithFixCount g, failedChecksumCount g, passedChecksumCount g).

(** The parse state that the end-of-term actions leave alone. *)
Definition parsing (g : TinyGPSPlus) :=
  (parity g, isChecksumTerm g, term g, curTermNumber g, curTermOffset g).

(** The registry without the buffers and flags of its entries. *)
Definition registryKeys (g : TinyGPSPlus) :=
  map (fun e => (TinyGPSCustom.sentenceName e, TinyGPSCustom.termNumber e))
      (customElts g).

(** *** Texts *)

Definition xorInto (p : Z) (s : list ascii) : Z :=
  fold_left (fun acc c => Z.lxor acc (code c)) s p.

(** What the term buffer and the offset become when the ordinary
    characters [w] arrive: a character is stored while the offset is
    below [_GPS_MAX_FIELD_SIZE - 1] and dropped otherwise. *)
Fixpoint appendTerm (buf : list ascii) (off : Z) (w : list ascii)
    : list ascii * Z :=
  match w with
  | [] => (buf, off)
  | c :: r =>
      if off <? Z.of_nat _GPS_MAX_FIELD_SIZE - 1
      then appendTerm (store buf (Z.to_nat off) c) (off + 1) r
      else appendTerm buf off r
  end.

(** The text that the term buffer keeps of a term [w]. *)
Definition termText (w : list ascii) : list ascii :=
  firstn (_GPS_MAX_FIELD_SIZE - 1) w.

(** The parser after the ordinary characters [w]. *)
Definition afterOrdinary (w : list ascii) (g : TinyGPSPlus) : TinyGPSPlus :=
  let g := set_encodedCharCount
             (fold_left (fun n _ => to_uint32 (n + 1)) w (encodedCharCount g)) g in
  let g := set_curTermOffset (snd (appendTerm (term g) (curTermOffset g) w))
             (set_term (fst (appendTerm (term g) (curTermOffset g) w)) g) in
  if isChecksumTerm g then g else set_parity (xorInto (parity g) w) g.

(** The parser after ['$']. *)
Definition afterDollar (g : TinyGPSPlus) : TinyGPSPlus :=
  set_sentenceHasFix false (set_isChecksumTerm false
    (set_curSentenceType GPS_SENTENCE_OTHER (set_parity 0
      (set_curTermOffset 0 (set_curTermNumber 0
        (set_encodedCharCount (to_uint32 (encodedCharCount g + 1)) g)))))).

(** The bookkeeping of [encode] after the end-of-term handler. *)
Definition nextTerm (c : ascii) (g : TinyGPSPlus) : TinyGPSPlus :=
  set_isChecksumTerm (c =c "*"%char)
    (set_curTermOffset 0 (set_curTermNumber (to_uint8 (curTermNumber g + 1)) g)).

Definition notStar (c : ascii) : bool := negb (c =c "*"%char).

Definition notDollar (c : ascii) : bool := negb (c =c "$"%char).

Definition lineEnd (c : ascii) : bool := (c =c CR) || (c =c LF).

(** The characters of a sentence body that the checksum covers. *)
Definition covered (body : list ascii) : list ascii :=
  filter (fun c => negb (lineEnd c)) body.



(** The invariant of the term buffer. *)
Definition wellFormed (g : TinyGPSPlus) : Prop :=
  length (term g) = _GPS_MAX_FIELD_SIZE
  /\ 0 <= curTermOffset g < Z.of_nat _GPS_MAX_FIELD_SIZE.

(** *** The registry *)

Definition entryName := TinyGPSCustom.sentenceName.
Definition entryTerm := TinyGPSCustom.termNumber.

(** The order of the registry: by name, then by term number. *)
Definition entryLe (e1 e2 : TinyGPSCustom.t) : Prop :=
  strcmp (entryName e1) (entryName e2) < 0
  \/ (strcmp (entryName e1) (entryName e2) = 0 /\ entryTerm e1 <= entryTerm e2).

(** [x] comes after [e]: its name is greater, or the names are equal and
    its term number is greater. *)
Definition entryAfter (e x : TinyGPSCustom.t) : Prop :=
  strcmp (entryName e) (entryName x) < 0
  \/ (strcmp (entryName e) (entryName x) = 0 /\ entryTerm e < entryTerm x).

Definition registrySorted (g : TinyGPSPlus) : Prop :=
  Sorted entryLe (customElts g).

(** The registry list with [pElt] linked in before the first entry that
    comes after it. *)
Fixpoint linkIn (pElt : TinyGPSCustom.t) (l : list TinyGPSCustom.t)
    : list TinyGPSCustom.t :=
  match l with
  | [] => [pElt]
  | x :: rest =>
      let cmp := strcmp (entryName pElt) (entryName x) in
      if (cmp <? 0) || ((cmp =? 0) && (entryTerm pElt <? entryTerm x))
      then pElt :: l
      else x :: linkIn pElt rest
  end.

Definition entryKey (e : TinyGPSCustom.t) := (entryName e, entryTerm e).

(** The position of the first entry of [l] named [nm], counted from [k]. *)
Fixpoint firstNamed (nm : list ascii) (l : list TinyGPSCustom.t) (k : nat)
    : option nat :=
  match l with
  | [] => None
  | e :: r =>
      if strcmp (entryName e) nm =? 0 then Some k else firstNamed nm r (S k)
  end.

(** The scan for candidates and the test that follows it, in one
    pass. *)
Fixpoint scanThenCheck (nm : list ascii) (l : list TinyGPSCustom.t) (k : nat)
    : option nat :=
  match l with
  | [] => None
  | e :: r =>
      if strcmp (entryName e) nm <? 0 then scanThenCheck nm r (S k)
      else if 0 <? strcmp (entryName e) nm then None else Some k
  end.

(** The candidate run: the entries from position [k] on that are named as
    the entry at position [k]. *)
Fixpoint sameNamePrefix (head : list ascii) (l : list TinyGPSCustom.t)
    : list TinyGPSCustom.t :=
  match l with
  | [] => []
  | e :: r =>
      if strcmp (entryName e) head =? 0 then e :: sameNamePrefix head r else []
  end.

Definition candidateRun (k : nat) (elts : list TinyGPSCustom.t)
    : list TinyGPSCustom.t :=
  match skipn k elts with
  | [] => []
  | (first :: _) as l => sameNamePrefix (entryName first) l
  end.

(** *** Sentences *)

(** The fields of a sentence, separated by commas. *)
Fixpoint joined (fields : list (list ascii)) : list ascii :=
  match fields with
  | [] => []
  | f :: r =>
      match r with
      | [] => f
      | _ :: _ => f ++ ","%char :: joined r
      end
  end.

(** What stands between ['$'] and ['*'] in a sentence: the name, and a
    comma before every data field. *)
Definition sentenceBody (name : list ascii) (fields : list (list ascii))
    : list ascii :=
  name ++ concat (map (cons ","%char) fields).

(** The byte written by two hexadecimal digits. *)
Definition hexByte (h1 h2 : ascii) : Z :=
  to_uint8 (16 * fromHex h1 + fromHex h2).



(** The two recognized kinds and their names. *)
Definition namesKind (kind : Z) (name : list ascii) : Prop :=
  (kind = GPS_SENTENCE_GPRMC /\ (name = _GPRMCterm \/ name = _GNRMCterm))
  \/ (kind = GPS_SENTENCE_GPGGA /\ (name = _GPGGAterm \/ name = _GNGGAterm)).

(** The sentence indicates a fix: status ['A'] in data field 2 of the
    position/velocity kind, a quality digit above ['0'] in data field 6 of
    the fix-data kind.  (An absent or empty field reads as NUL.) *)
Definition fixIndicated (kind : Z) (fields : list (list ascii)) : bool :=
  if kind =? GPS_SENTENCE_GPRMC
  then at_ (nth 1 fields []) 0 =c "A"%char
  else code "0"%char <? code (at_ (nth 5 fields []) 0).

(** The fix flag after data field [i] with text [f]. *)
Definition fixAfter (kind i : Z) (f : list ascii) (fx : bool) : bool :=
  if at_ f 0 =c NUL then fx
  else if (kind =? GPS_SENTENCE_GPRMC) && (i =? 2) then at_ f 0 =c "A"%char
  else if (kind =? GPS_SENTENCE_GPGGA) && (i =? 6)
  then code "0"%char <? code (at_ f 0)
  else fx.

Fixpoint fixAfterFields (kind i : Z) (fields : list (list ascii)) (fx : bool)
    : bool :=
  match fields with
  | [] => fx
  | f :: r => fixAfterFields kind (i + 1) r (fixAfter kind i f fx)
  end.

(** The parser stands at the start of data field [i] of a sentence of
    kind [kind], with accumulator [p] and fix flag [fx], and has published
    and counted nothing since [g0]. *)
Definition atField (kind i p : Z) (fx : bool) (g0 g : TinyGPSPlus) : Prop :=
  wellFormed g
  /\ curTermOffset g = 0
  /\ isChecksumTerm g = false
  /\ curSentenceType g = kind
  /\ curTermNumber g = i
  /\ parity g = p
  /\ sentenceHasFix g = fx
  /\ observable g = observable g0
  /\ statistics g = statistics g0.

(** The parser stands at the start of the checksum term of a sentence of
    kind [kind]. *)
Definition atChecksum (kind p : Z) (fx : bool) (g0 g : TinyGPSPlus) : Prop :=
  wellFormed g
  /\ curTermOffset g = 0
  /\ isChecksumTerm g = true
  /\ curSentenceType g = kind
  /\ parity g = p
  /\ sentenceHasFix g = fx
  /\ observable g = observable g0
  /\ statistics g = statistics g0.

(** The counters of a sentence that passed its checksum. *)
Definition countPassed (g : TinyGPSPlus) : TinyGPSPlus :=
  let g := set_passedChecksumCount (to_uint32 (passedChecksumCount g + 1)) g in
  if sentenceHasFix g
  then set_sentencesWithFixCount (to_uint32 (sentencesWithFixCount g + 1)) g
  else g.

(** *** The decoders *)

Definition signOrSpace (c : ascii) : bool :=
  isspace c || (c =c "-"%char) || (c =c "+"%char).

(** Ten times the first digit after a decimal point plus the second one;
    a missing point or a missing digit counts for zero, and digits after
    the second are not looked at. *)
Definition fractionHundredths (rest : list ascii) : Z :=
  if (at_ rest 0 =c "."%char) && isdigit (at_ rest 1)
  then 10 * digit (at_ rest 1)
       + (if isdigit (at_ rest 2) then digit (at_ rest 2) else 0)
  else 0.

(** The text of a fixed-point number: an optional minus sign, the digits
    of the integer part, and what follows them. *)
Definition decimalText (neg : bool) (ds rest : list ascii) : list ascii :=
  (if neg then ["-"%char] else []) ++ ds ++ rest.

(** The fractional-minute digits weighted by a multiplier that is divided
    by ten before each digit (and so stays at zero once it gets there),
    in exact arithmetic. *)
Fixpoint fractionSum (multiplier : Z) (fs : list ascii) : Z :=
  match fs with
  | [] => 0
  | c :: r => digit c * (multiplier / 10) + fractionSum (multiplier / 10) r
  end.

(** The text of an angle: integer digits, then optionally a point and
    fractional digits. *)
Definition degreesText (ds : list ascii) (frac : option (list ascii))
    : list ascii :=
  ds ++ match frac with Some fs => "."%char :: fs | None => [] end.

Definition fractionDigits (frac : option (list ascii)) : list ascii :=
  match frac with Some fs => fs | None => [] end.

(** Minutes in units of 10^-7 minute, in exact arithmetic. *)
Definition tenMillionths (ds : list ascii) (frac : option (list ascii)) : Z :=
  (decimalValue ds mod 100) * 10000000
  + fractionSum 10000000 (fractionDigits frac).

(** The hexadecimal digit of a value below sixteen, in upper or in lower
    case. *)
Definition hexDigit (upper : bool) (v : Z) : ascii :=
  if v <? 10 then ascii_of_N (Z.to_N (code "0"%char + v))
  else ascii_of_N
         (Z.to_N (code (if upper then "A"%char else "a"%char) + (v - 10))).

(** The number of characters fed in a session. *)
Fixpoint charsFed (acts : list action) : Z :=
  match acts with
  | [] => 0
  | Feed _ :: r => 1 + charsFed r
  | Register _ _ :: r => charsFed r
  end.

(** Every register and counter of the parser holds a value of its C
    type. *)
Definition inRange (g : TinyGPSPlus) : Prop :=
  0 <= parity g < 2 ^ 8
  /\ 0 <= curSentenceType g <= GPS_SENTENCE_OTHER
  /\ 0 <= curTermNumber g < 2 ^ 8
  /\ 0 <= encodedCharCount g < 2 ^ 32
  /\ 0 <= sentencesWithFixCount g < 2 ^ 32
  /\ 0 <= failedChecksumCount g < 2 ^ 32
  /\ 0 <= passedChecksumCount g < 2 ^ 32.

(** The two buffers of a registry entry have their declared size, and
    the text in each leaves room for its terminating NUL. *)
Definition buffersFit (e : TinyGPSCustom.t) : Prop :=
  length (TinyGPSCustom.stagingBuffer e) = S _GPS_MAX_FIELD_SIZE
  /\ length (TinyGPSCustom.buffer e) = S _GPS_MAX_FIELD_SIZE
  /\ (length (cstr (TinyGPSCustom.stagingBuffer e)) < _GPS_MAX_FIELD_SIZE)%nat
  /\ (length (cstr (TinyGPSCustom.buffer e)) < _GPS_MAX_FIELD_SIZE)%nat.

(** *** Staging by sentence kind and field number *)

(** A field is present when its text does not start with a NUL; an empty
    field is absent. *)
Definition present (f : list ascii) : bool := negb (at_ f 0 =c NUL).

(** What data field [i] of a sentence of kind [kind] stages, [t] being the
    text of the field; the components are those of [nativeStaged]. *)
Definition stageTerm (kind i : Z) (t : list ascii)
    (s : RawDegrees * RawDegrees * Z * Z * Z * Z * Z * Z * Z)
    : RawDegrees * RawDegrees * Z * Z * Z * Z * Z * Z * Z :=
  let '(lat, lng, dt, tm, spd, crs, alt, sat, hd) := s in
  if at_ t 0 =c NUL then s
  else if kind =? GPS_SENTENCE_GPRMC then
    if i =? 1
    then (lat, lng, dt, to_uint32 (parseDecimal t), spd, crs, alt, sat, hd)
    else if i =? 3 then (parseDegrees t, lng, dt, tm, spd, crs, alt, sat, hd)
    else if i =? 4
    then (mkRawDegrees (deg lat) (billionths lat) (at_ t 0 =c "S"%char),
          lng, dt, tm, spd, crs, alt, sat, hd)
    else if i =? 5 then (lat, parseDegrees t, dt, tm, spd, crs, alt, sat, hd)
    else if i =? 6
    then (lat, mkRawDegrees (deg lng) (billionths lng) (at_ t 0 =c "W"%char),
          dt, tm, spd, crs, alt, sat, hd)
    else if i =? 7 then (lat, lng, dt, tm, parseDecimal t, crs, alt, sat, hd)
    else if i =? 8 then (lat, lng, dt, tm, spd, parseDecimal t, alt, sat, hd)
    else if i =? 9
    then (lat, lng, to_uint32 (atol t), tm, spd, crs, alt, sat, hd)
    else s
  else if kind =? GPS_SENTENCE_GPGGA then
    if i =? 1
    then (lat, lng, dt, to_uint32 (parseDecimal t), spd, crs, alt, sat, hd)
    else if i =? 2 then (parseDegrees t, lng, dt, tm, spd, crs, alt, sat, hd)
    else if i =? 3
    then (mkRawDegrees (deg lat) (billionths lat) (at_ t 0 =c "S"%char),
          lng, dt, tm, spd, crs, alt, sat, hd)
    else if i =? 4 then (lat, parseDegrees t, dt, tm, spd, crs, alt, sat, hd)
    else if i =? 5
    then (lat, mkRawDegrees (deg lng) (billionths lng) (at_ t 0 =c "W"%char),
          dt, tm, spd, crs, alt, sat, hd)
    else if i =? 7
    then (lat, lng, dt, tm, spd, crs, alt, to_uint32 (atol t), hd)
    else if i =? 8 then (lat, lng, dt, tm, spd, crs, alt, sat, parseDecimal t)
    else if i =? 9 then (lat, lng, dt, tm, spd, crs, parseDecimal t, sat, hd)
    else s
  else s.

(** The staged values after the data fields [fields], the first of which
    has number [i]; the term buffer keeps [termText] of each. *)
Fixpoint stageFields (kind i : Z) (fields : list (list ascii))
    (s : RawDegrees * RawDegrees * Z * Z * Z * Z * Z * Z * Z)
    : RawDegrees * RawDegrees * Z * Z * Z * Z * Z * Z * Z :=
  match fields with
  | [] => s
  | f :: r => stageFields kind (i + 1) r (stageTerm kind i (termText f) s)
  end.

(** An angle with the sign that the hemisphere letter gives it. *)
Definition signedDegrees (d : RawDegrees) (neg : bool) : RawDegrees :=
  mkRawDegrees (deg d) (billionths d) neg.

(** What the staging loop does to an entry of a sorted candidate run whose
    first entry is named [head]. *)
Definition stageEntry (head term : list ascii) (cur : Z) (p : TinyGPSCustom.t)
    : TinyGPSCustom.t :=
  if (strcmp (entryName p) head =? 0) && (entryTerm p =? cur)
  then TinyGPSCustom.set term p else p.

(** The parser stands at the start of data field [i] of a sentence whose
    candidate run starts at position [k] of a registry with the keys
    [keys]. *)
Definition atCustomField (i : Z) (k : nat) (keys : list (list ascii * Z))
    (g : TinyGPSPlus) : Prop :=
  wellFormed g
  /\ curTermOffset g = 0
  /\ isChecksumTerm g = false
  /\ curTermNumber g = i
  /\ customCandidates g = Some k
  /\ registryKeys g = keys.

(** The number of term terminators in a text. *)
Definition terminators (s : list ascii) : Z :=
  Z.of_nat (length (filter isTermTerminator s)).

(** The staged speed among the staged values. *)
Definition stagedSpeed (s : RawDegrees * RawDegrees * Z * Z * Z * Z * Z * Z * Z)
    : Z :=
  let '(_, _, _, _, spd, _, _, _, _) := s in spd.

(** A clock for the concrete runs. *)
Definition clock0 : nat -> Z := fun n => Z.of_nat n.

(** * Properties *)

(** ** Fixed-width arithmetic *)

Lemma to_int32_small z : - 2 ^ 31 <= z < 2 ^ 31 -> to_int32 z = z.
Proof.
  intros H. unfold to_int32.
  rewrite Z.mod_small by lia. lia.
Qed.

Lemma to_uint32_small z : 0 <= z < 2 ^ 32 -> to_uint32 z = z.
Proof. intros H. unfold to_uint32. now apply Z.mod_small. Qed.

Lemma to_uint16_small z : 0 <= z < 2 ^ 16 -> to_uint16 z = z.
Proof. intros H. unfold to_uint16. now apply Z.mod_small. Qed.

Lemma to_uint16_to_int16 z : to_uint16 (to_int16 z) = z mod 2 ^ 16.
Proof.
  unfold to_uint16, to_int16.
  rewrite Zminus_mod_idemp_l. f_equal. lia.
Qed.

Lemma code_range c : 0 <= code c < 256.
Proof.
  unfold code. destruct c as [[] [] [] [] [] [] [] []]; vm_compute; split; congruence.
Qed.

(** ** Digits *)

Lemma isdigit_digit c : isdigit c = true -> 0 <= digit c <= 9.
Proof.
  unfold isdigit, digit. intros H.
  apply andb_true_iff in H as [H1 H2].
  apply Z.leb_le in H1, H2. change (code "0"%char) with 48 in *.
  change (code "9"%char) with 57 in *. lia.
Qed.

Lemma isdigit_not_signOrSpace c : isdigit c = true -> signOrSpace c = false.
Proof.
  destruct c as [[] [] [] [] [] [] [] []]; vm_compute; congruence.
Qed.

Lemma fold_digits_nonneg ds : forall acc,
  0 <= acc -> forallb isdigit ds = true ->
  0 <= fold_left (fun a c => 10 * a + digit c) ds acc.
Proof.
  induction ds as [|c ds IH]; intros acc Hacc Hd; cbn [fold_left forallb] in *.
  - exact Hacc.
  - apply andb_true_iff in Hd as [Hc Hd].
    apply IH; auto. apply isdigit_digit in Hc. lia.
Qed.

Lemma decimalValue_nonneg ds : forallb isdigit ds = true -> 0 <= decimalValue ds.
Proof. intros H. apply fold_digits_nonneg; [lia | exact H]. Qed.

(** [atol] and the digit-skipping loops on a run of digits followed by
    something that is not a digit. *)
Lemma atol_digits_app ds rest : forall acc,
  forallb isdigit ds = true -> isdigit (at_ rest 0) = false ->
  atol_digits acc (ds ++ rest) = fold_left (fun a c => 10 * a + digit c) ds acc.
Proof.
  induction ds as [|c ds IH]; intros acc Hd Hr; cbn [app fold_left forallb] in *.
  - destruct rest as [|r rest]; [reflexivity|].
    cbn [atol_digits]. change (at_ (r :: rest) 0) with r in Hr.
    now rewrite Hr.
  - apply andb_true_iff in Hd as [Hc Hd].
    cbn [atol_digits]. rewrite Hc. now apply IH.
Qed.

Lemma skip_digits_app ds rest :
  forallb isdigit ds = true -> isdigit (at_ rest 0) = false ->
  skip_digits (ds ++ rest) = rest.
Proof.
  induction ds as [|c ds IH]; intros Hd Hr; cbn [app forallb] in *.
  - destruct rest as [|r rest]; [reflexivity|].
    cbn [skip_digits]. change (at_ (r :: rest) 0) with r in Hr.
    now rewrite Hr.
  - apply andb_true_iff in Hd as [Hc Hd].
    cbn [skip_digits]. rewrite Hc. now apply IH.
Qed.

Lemma signOrSpace_head ds rest :
  forallb isdigit ds = true ->
  (ds = [] -> signOrSpace (at_ rest 0) = false) ->
  signOrSpace (at_ (ds ++ rest) 0) = false.
Proof.
  intros Hd Hr. destruct ds as [|c ds].
  - now apply Hr.
  - cbn [forallb] in Hd. apply andb_true_iff in Hd as [Hc _].
    now apply isdigit_not_signOrSpace.
Qed.

Lemma atol_unsigned s :
  signOrSpace (at_ s 0) = false -> atol s = atol_digits 0 s.
Proof.
  unfold atol. destruct s as [|c s]; [reflexivity|].
  change (at_ (c :: s) 0) with c. intros H.
  unfold signOrSpace in H.
  apply orb_false_iff in H as [H Hplus].
  apply orb_false_iff in H as [Hsp Hminus].
  cbn [skip_spaces]. rewrite Hsp.
  apply Ascii.eqb_neq in Hminus, Hplus.
  destruct c as [[] [] [] [] [] [] [] []]; try reflexivity; congruence.
Qed.

Lemma atol_digits_text ds rest :
  forallb isdigit ds = true -> isdigit (at_ rest 0) = false ->
  (ds = [] -> signOrSpace (at_ rest 0) = false) ->
  atol (ds ++ rest) = decimalValue ds.
Proof.
  intros Hd Hr Hs.
  rewrite atol_unsigned by now apply signOrSpace_head.
  now apply atol_digits_app.
Qed.

(** ** The fixed-point decimal decoder *)

Lemma fractionHundredths_range rest : 0 <= fractionHundredths rest <= 99.
Proof.
  unfold fractionHundredths.
  destruct (at_ rest 0 =c "."%char); cbn [andb]; [|lia].
  destruct (isdigit (at_ rest 1)) eqn:H1; [|lia].
  apply isdigit_digit in H1.
  destruct (isdigit (at_ rest 2)) eqn:H2; [apply isdigit_digit in H2|]; lia.
Qed.

(** The body of [parseDecimal] after the sign has been looked at. *)
Lemma parseDecimal_unsigned_part ds rest :
  forallb isdigit ds = true ->
  isdigit (at_ rest 0) = false ->
  (ds = [] -> signOrSpace (at_ rest 0) = false) ->
  100 * decimalValue ds + fractionHundredths rest <= 2 ^ 31 - 1 ->
  let term := ds ++ rest in
  let ret := to_int32 (100 * to_int32 (atol term)) in
  let term' := skip_digits term in
  (if (at_ term' 0 =c "."%char) && isdigit (at_ term' 1) then
     let ret := to_int32 (ret + 10 * (code (at_ term' 1) - code "0"%char)) in
     if isdigit (at_ term' 2)
     then to_int32 (ret + (code (at_ term' 2) - code "0"%char))
     else ret
   else ret)
  = 100 * decimalValue ds + fractionHundredths rest.
Proof.
  intros Hd Hr Hs Hfit. cbv zeta.
  rewrite atol_digits_text, skip_digits_app by assumption.
  pose proof (decimalValue_nonneg ds Hd) as Hnn.
  pose proof (fractionHundredths_range rest) as Hfr.
  rewrite (to_int32_small (decimalValue ds)) by lia.
  rewrite (to_int32_small (100 * decimalValue ds)) by lia.
  unfold fractionHundredths in *. fold (digit (at_ rest 1)). fold (digit (at_ rest 2)).
  destruct (at_ rest 0 =c "."%char); cbn [andb] in *; [|lia].
  destruct (isdigit (at_ rest 1)) eqn:H1; [apply isdigit_digit in H1|lia].
  destruct (isdigit (at_ rest 2)) eqn:H2; [apply isdigit_digit in H2|].
  - rewrite (to_int32_small (100 * decimalValue ds + 10 * digit (at_ rest 1))) by lia.
    rewrite to_int32_small by lia. lia.
  - rewrite to_int32_small by lia. lia.
Qed.

(** C5 (as amended).  On a text made of an optional minus sign, a run of
    digits and a remainder that does not start with a digit (nor, when
    there are no digits, with white space or a sign), [parseDecimal]
    returns 100 x (integer part) + 10 x (first fraction digit) + (second
    fraction digit), negated under a minus sign, provided that this number
    fits in [int32_t]. *)
Theorem parseDecimal_fixed_point (neg : bool) (ds rest : list ascii) :
  forallb isdigit ds = true ->
  isdigit (at_ rest 0) = false ->
  (ds = [] -> signOrSpace (at_ rest 0) = false) ->
  100 * decimalValue ds + fractionHundredths rest <= 2 ^ 31 - 1 ->
  parseDecimal (decimalText neg ds rest)
  = (if neg then -1 else 1)
    * (100 * decimalValue ds + fractionHundredths rest).
Proof.
  intros Hd Hr Hs Hfit.
  pose proof (parseDecimal_unsigned_part ds rest Hd Hr Hs Hfit) as Hbody.
  cbv zeta in Hbody.
  pose proof (decimalValue_nonneg ds Hd) as Hnn.
  pose proof (fractionHundredths_range rest) as Hfr.
  unfold parseDecimal, decimalText. destruct neg.
  - change (at_ (["-"%char] ++ ds ++ rest) 0 =c "-"%char) with true.
    cbv iota. change (tl (["-"%char] ++ ds ++ rest)) with (ds ++ rest).
    rewrite Hbody. rewrite to_int32_small by lia. lia.
  - cbn [app].
    assert (Hm : (at_ (ds ++ rest) 0 =c "-"%char) = false).
    { pose proof (signOrSpace_head ds rest Hd Hs) as H.
      unfold signOrSpace in H.
      apply orb_false_iff in H as [H _].
      now apply orb_false_iff in H as [_ H]. }
    rewrite Hm. cbv iota. rewrite Hbody. lia.
Qed.

(** C5: the value leaves [int32_t] ("21474837"), and [atol] reads a sign
    that the scan for the decimal point does not skip ("+5.25"). *)
Lemma parseDecimal_counterexample :
  parseDecimal (chars "21474837") = -2147483596
  /\ parseDecimal (chars "21474837") <> 100 * 21474837 + 10 * 0 + 0
  /\ parseDecimal (chars "+5.25") = 500
  /\ parseDecimal (chars "+5.25") <> 100 * 5 + 10 * 2 + 5.
Proof. repeat split; vm_compute; congruence. Qed.

(** The three decodings quoted by the specification. *)
Lemma parseDecimal_examples :
  parseDecimal (chars "123.456") = 12345
  /\ parseDecimal (chars "-5") = -500
  /\ parseDecimal (chars "0.6") = 60.
Proof. repeat split; reflexivity. Qed.

Lemma parseDecimal_fixed_point_witness :
  forallb isdigit (chars "123") = true
  /\ parseDecimal (decimalText true (chars "123") (chars ".456")) = - 12345.
Proof.
  split; [reflexivity|].
  apply (parseDecimal_fixed_point true (chars "123") (chars ".456"));
    [reflexivity | reflexivity | discriminate | vm_compute; congruence].
Defined.

(** ** The degrees/minutes decoder *)

Lemma fractionSum_nonneg fs : forall m,
  forallb isdigit fs = true -> 0 <= m -> 0 <= fractionSum m fs.
Proof.
  induction fs as [|c fs IH]; intros m Hd Hm; cbn [fractionSum forallb] in *.
  - lia.
  - apply andb_true_iff in Hd as [Hc Hd]. apply isdigit_digit in Hc.
    assert (0 <= m / 10) by (apply Z.div_pos; lia).
    specialize (IH (m / 10) Hd H). nia.
Qed.

Lemma parseDegrees_fraction_exact fs : forall m acc,
  forallb isdigit fs = true -> 0 <= m -> 0 <= acc ->
  acc + fractionSum m fs < 2 ^ 32 ->
  parseDegrees_fraction m acc fs = acc + fractionSum m fs.
Proof.
  induction fs as [|c fs IH]; intros m acc Hd Hm Hacc Hfit;
    cbn [fractionSum parseDegrees_fraction forallb] in *.
  - lia.
  - apply andb_true_iff in Hd as [Hc Hd]. rewrite Hc.
    apply isdigit_digit in Hc. fold (digit c).
    assert (Hm' : 0 <= m / 10) by (apply Z.div_pos; lia).
    pose proof (fractionSum_nonneg fs (m / 10) Hd Hm') as Hs.
    assert (Hp : 0 <= digit c * (m / 10)) by nia.
    rewrite to_uint32_small by lia.
    rewrite IH by (assumption || lia). lia.
Qed.

(** C6 (as amended).  On integer digits optionally followed by a point
    and fractional digits, [parseDegrees] yields degrees = (leading
    integer) / 100 and billionths = (5 T + 1) / 3 in exact arithmetic, with
    the sign flag cleared, provided that the degrees fit in 16 bits and
    5 T + 1 fits in 32 bits. *)
Theorem parseDegrees_exact (ds : list ascii) (frac : option (list ascii)) :
  forallb isdigit ds = true ->
  forallb isdigit (fractionDigits frac) = true ->
  decimalValue ds / 100 < 2 ^ 16 ->
  5 * tenMillionths ds frac + 1 < 2 ^ 32 ->
  parseDegrees (degreesText ds frac)
  = mkRawDegrees (decimalValue ds / 100)
                 ((5 * tenMillionths ds frac + 1) / 3) false.
Proof.
  intros Hd Hf Hdeg Hfit.
  pose proof (decimalValue_nonneg ds Hd) as Hn.
  set (n := decimalValue ds) in *.
  set (tail := match frac with Some fs => "."%char :: fs | None => [] end).
  assert (Htail : isdigit (at_ tail 0) = false) by (now destruct frac).
  assert (Hsign : ds = [] -> signOrSpace (at_ tail 0) = false)
    by (now destruct frac).
  assert (Hmod : 0 <= n mod 100 < 100) by (apply Z.mod_pos_bound; lia).
  assert (Hdiv : 0 <= n / 100) by (apply Z.div_pos; lia).
  assert (Hn32 : n < 2 ^ 32).
  { pose proof (Z.div_mod n 100 ltac:(lia)). lia. }
  pose proof (fractionSum_nonneg (fractionDigits frac) 10000000 Hf ltac:(lia))
    as Hfs.
  unfold tenMillionths in *. fold n in Hfit |- *.
  unfold parseDegrees, degreesText. fold tail.
  rewrite atol_digits_text, skip_digits_app by assumption. fold n.
  rewrite (to_uint32_small n) by lia.
  rewrite (to_uint16_small (n mod 100)) by lia.
  rewrite (to_uint32_small (n mod 100 * 10000000)) by lia.
  rewrite to_uint16_to_int16, (Z.mod_small (n / 100)) by lia.
  f_equal.
  assert (Hthird : 0 <= (5 * (n mod 100 * 10000000
                     + fractionSum 10000000 (fractionDigits frac)) + 1) / 3
                   < 2 ^ 32).
  { split; [apply Z.div_pos; lia|].
    apply Z.div_lt_upper_bound; lia. }
  destruct frac as [fs|]; subst tail; cbn [fractionDigits] in *.
  - change (at_ ("."%char :: fs) 0 =c "."%char) with true. cbv iota.
    change (tl ("."%char :: fs)) with fs.
    rewrite parseDegrees_fraction_exact by (assumption || lia).
    rewrite (to_uint32_small (5 * _ + 1)) by lia.
    now rewrite to_uint32_small.
  - change (at_ [] 0 =c "."%char) with false. cbv iota.
    cbn [fractionSum] in *. rewrite Z.add_0_r in *.
    rewrite (to_uint32_small (5 * _ + 1)) by lia.
    now rewrite to_uint32_small.
Qed.

Lemma parseDegrees_exact_witness :
  forallb isdigit (chars "4807") = true
  /\ parseDegrees (degreesText (chars "4807") (Some (chars "038")))
     = mkRawDegrees 48 117300000 false.
Proof.
  split; [reflexivity|].
  apply (parseDegrees_exact (chars "4807") (Some (chars "038")));
    [reflexivity | reflexivity | vm_compute; congruence | vm_compute; congruence].
Defined.

(** C6: 99 whole minutes make 5 T + 1 leave 32 bits ("0099"), and 65536
    degrees leave the 16 bits of [deg] ("6553600"). *)
Lemma parseDegrees_counterexample :
  billionths (parseDegrees (chars "0099")) = 218344235
  /\ (5 * tenMillionths (chars "0099") None + 1) / 3 = 1650000000
  /\ billionths (parseDegrees (chars "0099"))
     <> (5 * tenMillionths (chars "0099") None + 1) / 3
  /\ deg (parseDegrees (chars "6553600")) = 0
  /\ decimalValue (chars "6553600") / 100 = 65536
  /\ deg (parseDegrees (chars "6553600")) <> decimalValue (chars "6553600") / 100.
Proof. vm_compute. repeat split; discriminate. Qed.

(** ** Buffers *)

Lemma length_store buf : forall i c, length (store buf i c) = length buf.
Proof.
  induction buf as [|x buf IH]; intros [|i] c; cbn [store length]; auto.
Qed.

Lemma firstn_store buf : forall n c,
  (n < length buf)%nat -> firstn (S n) (store buf n c) = firstn n buf ++ [c].
Proof.
  induction buf as [|x buf IH]; intros [|n] c H; cbn [length] in H; try lia.
  - reflexivity.
  - change (store (x :: buf) (S n) c) with (x :: store buf n c).
    rewrite !firstn_cons, IH by lia. reflexivity.
Qed.

Lemma skipn_store buf : forall n m c,
  (n < m)%nat -> skipn m (store buf n c) = skipn m buf.
Proof.
  induction buf as [|x buf IH]; intros n [|m] c H; try lia.
  - now destruct n.
  - destruct n as [|n]; cbn [store skipn]; [reflexivity|]. apply IH. lia.
Qed.

Lemma appendTerm_cons buf off c r :
  appendTerm buf off (c :: r)
  = if off <? 14 then appendTerm (store buf (Z.to_nat off) c) (off + 1) r
    else appendTerm buf off r.
Proof. reflexivity. Qed.

(** The term buffer after the characters [w], from offset [n]. *)
Lemma appendTerm_text w : forall buf n,
  (n <= 14)%nat -> length buf = 15%nat ->
  appendTerm buf (Z.of_nat n) w
  = (firstn n buf ++ firstn (14 - n) w
       ++ skipn (n + length (firstn (14 - n) w)) buf,
     Z.of_nat (n + length (firstn (14 - n) w))).
Proof.
  induction w as [|c w IH]; intros buf n Hn Hlen.
  - rewrite firstn_nil. cbn [length app appendTerm].
    rewrite Nat.add_0_r, firstn_skipn. reflexivity.
  - rewrite appendTerm_cons.
    destruct (Z.of_nat n <? 14) eqn:E.
    + apply Z.ltb_lt in E. assert (Hlt : (n < 14)%nat) by lia.
      replace (Z.of_nat n + 1) with (Z.of_nat (S n)) by lia.
      rewrite Nat2Z.id.
      rewrite (IH (store buf n c) (S n)) by (rewrite ?length_store; lia).
      replace (14 - n)%nat with (S (14 - S n)) by lia.
      rewrite firstn_cons. cbn [length].
      rewrite firstn_store, skipn_store by lia.
      rewrite <- app_assoc. cbn [app].
      replace (S n + length (firstn (14 - S n) w))%nat
        with (n + S (length (firstn (14 - S n) w)))%nat by lia.
      reflexivity.
    + apply Z.ltb_ge in E. assert (n = 14)%nat by lia. subst n.
      rewrite (IH buf 14%nat) by lia. reflexivity.
Qed.

Lemma store_after a : forall buf c,
  (length a < length buf)%nat ->
  store (a ++ skipn (length a) buf) (length a) c
  = a ++ c :: skipn (S (length a)) buf.
Proof.
  induction a as [|x a IH]; intros [|y buf] c H; cbn [length] in H; try lia.
  - reflexivity.
  - cbn [length app skipn store]. f_equal. apply IH. lia.
Qed.

(** ** Single steps of the state machine *)

Section Machine.

Variable millis : nat -> Z.

Lemma feed_app g a b : feed millis g (a ++ b) = feed millis (feed millis g a) b.
Proof. revert g. induction a as [|c a IH]; intros g; cbn [feed app]; auto. Qed.

Lemma ordinary_inv c :
  ordinary c = true -> isTermTerminator c = false /\ (c =c "$"%char) = false.
Proof.
  unfold ordinary. intros H. apply andb_true_iff in H as [H1 H2].
  now apply negb_true_iff in H1, H2.
Qed.

Lemma encode_ordinary c g :
  ordinary c = true -> encode millis c g = (false, afterOrdinary [c] g).
Proof.
  intros H. apply ordinary_inv in H as [Ht Hd].
  unfold encode. rewrite Ht, Hd. f_equal.
  destruct g. unfold afterOrdinary. cbn.
  destruct (curTermOffset0 <? 14); destruct isChecksumTerm0; reflexivity.
Qed.

Lemma afterOrdinary_nil g : afterOrdinary [] g = g.
Proof. destruct g. unfold afterOrdinary. cbn. now destruct isChecksumTerm0. Qed.

Lemma afterOrdinary_cons c w g :
  afterOrdinary w (afterOrdinary [c] g) = afterOrdinary (c :: w) g.
Proof.
  destruct g. unfold afterOrdinary. cbn.
  destruct (curTermOffset0 <? 14); destruct isChecksumTerm0; reflexivity.
Qed.

Lemma feed_ordinary w : forall g,
  forallb ordinary w = true -> feed millis g w = afterOrdinary w g.
Proof.
  induction w as [|c w IH]; intros g H; cbn [feed forallb] in *.
  - now rewrite afterOrdinary_nil.
  - apply andb_true_iff in H as [Hc Hw].
    rewrite encode_ordinary by assumption. cbn [snd].
    rewrite IH by assumption. apply afterOrdinary_cons.
Qed.

Lemma encode_dollar g : encode millis "$"%char g = (false, afterDollar g).
Proof. reflexivity. Qed.

Lemma encode_terminator c g :
  isTermTerminator c = true ->
  curTermOffset g < Z.of_nat _GPS_MAX_FIELD_SIZE ->
  encode millis c g
  = (fst (endOfTermHandler millis (atEndOfTerm c g)),
     nextTerm c (snd (endOfTermHandler millis (atEndOfTerm c g)))).
Proof.
  intros Ht Hoff. unfold encode. rewrite Ht.
  assert (Hlt : (curTermOffset
            (foldSeparator c
               (set_encodedCharCount (to_uint32 (encodedCharCount g + 1)) g))
          <? Z.of_nat _GPS_MAX_FIELD_SIZE) = true).
  { apply Z.ltb_lt. unfold foldSeparator. now destruct (c =c ","%char). }
  rewrite Hlt. unfold atEndOfTerm.
  now destruct (endOfTermHandler millis _).
Qed.

(** ** What the end-of-term actions leave alone *)

Ltac split_ifs :=
  repeat lazymatch goal with
    | |- context [if ?b then _ else _] => destruct b; cbv iota; try reflexivity
    end.

Lemma setNative_frame g :
  parsing (setNative g) = parsing g
  /\ curSentenceType (setNative g) = curSentenceType g
  /\ statistics (setNative g) = statistics g
  /\ customElts (setNative g) = customElts g
  /\ customCandidates (setNative g) = customCandidates g
  /\ observable (setNative g) = observable g
  /\ clockReads (setNative g) = clockReads g.
Proof.
  unfold setNative.
  destruct (negb (curSentenceType g =? GPS_SENTENCE_OTHER)
            && negb (at_ (term g) 0 =c NUL)); [|repeat split].
  cbv zeta. repeat split; split_ifs.
Qed.

Lemma map_published_setCandidates head term n l :
  map TinyGPSCustom.published (setCandidates head term n l)
  = map TinyGPSCustom.published l.
Proof.
  induction l as [|p l IH]; cbn [setCandidates]; [reflexivity|].
  destruct (_ && _); [|reflexivity].
  cbn [map]. rewrite IH. now destruct (_ =? _).
Qed.

Lemma map_keys_setCandidates head term n l :
  map (fun e => (TinyGPSCustom.sentenceName e, TinyGPSCustom.termNumber e))
      (setCandidates head term n l)
  = map (fun e => (TinyGPSCustom.sentenceName e, TinyGPSCustom.termNumber e)) l.
Proof.
  induction l as [|p l IH]; cbn [setCandidates]; [reflexivity|].
  destruct (_ && _); [|reflexivity].
  cbn [map]. rewrite IH. now destruct (_ =? _).
Qed.

Lemma setCustoms_frame g :
  parsing (setCustoms g) = parsing g
  /\ curSentenceType (setCustoms g) = curSentenceType g
  /\ sentenceHasFix (setCustoms g) = sentenceHasFix g
  /\ statistics (setCustoms g) = statistics g
  /\ natives (setCustoms g) = natives g
  /\ customCandidates (setCustoms g) = customCandidates g
  /\ observable (setCustoms g) = observable g
  /\ registryKeys (setCustoms g) = registryKeys g
  /\ clockReads (setCustoms g) = clockReads g.
Proof.
  unfold setCustoms.
  destruct (customCandidates g) as [k|] eqn:Hk; [|now repeat split].
  destruct (skipn k (customElts g)) as [|first l] eqn:Hs; [now repeat split|].
  repeat split; try (destruct g; cbn in *; now rewrite ?Hk).
  - unfold observable.
    change (customElts (set_customElts ?x g)) with x.
    rewrite map_app, map_published_setCandidates, <- Hs, <- map_app, firstn_skipn.
    reflexivity.
  - unfold registryKeys.
    change (customElts (set_customElts ?x g)) with x.
    rewrite map_app, map_keys_setCandidates, <- Hs, <- map_app, firstn_skipn.
    reflexivity.
Qed.

Lemma commitNative_frame g :
  parsing (commitNative millis g) = parsing g
  /\ curSentenceType (commitNative millis g) = curSentenceType g
  /\ sentenceHasFix (commitNative millis g) = sentenceHasFix g
  /\ statistics (commitNative millis g) = statistics g
  /\ customElts (commitNative millis g) = customElts g
  /\ customCandidates (commitNative millis g) = customCandidates g
  /\ nativeStaged (commitNative millis g) = nativeStaged g.
Proof.
  unfold commitNative. destruct g. cbn.
  repeat split; split_ifs.
Qed.

Lemma commitCustoms_frame g :
  parsing (commitCustoms millis g) = parsing g
  /\ curSentenceType (commitCustoms millis g) = curSentenceType g
  /\ sentenceHasFix (commitCustoms millis g) = sentenceHasFix g
  /\ statistics (commitCustoms millis g) = statistics g
  /\ natives (commitCustoms millis g) = natives g
  /\ customCandidates (commitCustoms millis g) = customCandidates g.
Proof.
  unfold commitCustoms.
  destruct (customCandidates g) as [k|] eqn:Hk; [|now repeat split].
  destruct (skipn k (customElts g)) as [|first l] eqn:Hs; [now repeat split|].
  destruct (commitCandidates millis _ _ _) as [l' n].
  repeat split; destruct g; cbn in *; now rewrite ?Hk.
Qed.

(** The handler never touches the parse state proper. *)
Lemma endOfTermHandler_parsing g :
  parsing (snd (endOfTermHandler millis g)) = parsing g.
Proof.
  unfold endOfTermHandler.
  destruct (isChecksumTerm g) eqn:Hc.
  - destruct (termChecksum (term g) =? parity g); cbn [snd]; [|reflexivity].
    match goal with
    | |- parsing (commitCustoms _ ?x) = _ =>
        destruct (commitCustoms_frame x) as (-> & _)
    end.
    match goal with
    | |- parsing (commitNative _ ?x) = _ =>
        destruct (commitNative_frame x) as (-> & _)
    end.
    now destruct (sentenceHasFix _).
  - destruct (curTermNumber g =? 0); cbn [snd]; [reflexivity|].
    destruct (setCustoms_frame (setNative g)) as (-> & _).
    now destruct (setNative_frame g) as (-> & _).
Qed.

(** Outside a checksum term the handler publishes nothing and counts
    nothing. *)
Lemma endOfTermHandler_quiet g :
  isChecksumTerm g = false ->
  fst (endOfTermHandler millis g) = false
  /\ observable (snd (endOfTermHandler millis g)) = observable g
  /\ statistics (snd (endOfTermHandler millis g)) = statistics g
  /\ registryKeys (snd (endOfTermHandler millis g)) = registryKeys g.
Proof.
  intros Hc. unfold endOfTermHandler. rewrite Hc.
  destruct (curTermNumber g =? 0); cbn [fst snd]; [now repeat split|].
  destruct (setCustoms_frame (setNative g))
    as (_ & _ & _ & -> & _ & _ & -> & -> & _).
  destruct (setNative_frame g) as (_ & _ & -> & Hl & _ & -> & _).
  repeat split. unfold registryKeys. now rewrite Hl.
Qed.

(** A failed checksum only counts. *)
Lemma endOfTermHandler_mismatch g :
  isChecksumTerm g = true ->
  termChecksum (term g) <> parity g ->
  endOfTermHandler millis g
  = (false, set_failedChecksumCount (to_uint32 (failedChecksumCount g + 1)) g).
Proof.
  intros Hc Hne. unfold endOfTermHandler. rewrite Hc.
  apply Z.eqb_neq in Hne. now rewrite Hne.
Qed.

Lemma parsing_nextTerm c g g' :
  parsing g' = parsing g ->
  parity (nextTerm c g') = parity g
  /\ term (nextTerm c g') = term g
  /\ curTermNumber (nextTerm c g') = to_uint8 (curTermNumber g + 1)
  /\ curTermOffset (nextTerm c g') = 0
  /\ isChecksumTerm (nextTerm c g') = (c =c "*"%char).
Proof.
  unfold parsing. intros H. injection H as Hp Hi Ht Hn Ho.
  destruct g'. cbn in *. subst. now repeat split.
Qed.

(** ** Where a checksum term is *)

Lemma encode_isChecksumTerm c g :
  isChecksumTerm (snd (encode millis c g))
  = if isTermTerminator c then (c =c "*"%char)
    else if c =c "$"%char then false else isChecksumTerm g.
Proof.
  unfold encode. destruct (isTermTerminator c).
  - destruct (if _ <? _ then _ else _). reflexivity.
  - destruct (c =c "$"%char); [reflexivity|]. cbn [snd].
    destruct g. cbn. destruct (curTermOffset0 <? 14); now destruct isChecksumTerm0.
Qed.

(** Every character outside a checksum term, and every character that
    does not end a term, leaves the read surface and the counters as
    they are, and [encode] answers false. *)
Lemma encode_quiet c g :
  isChecksumTerm g = false \/ isTermTerminator c = false ->
  fst (encode millis c g) = false
  /\ observable (snd (encode millis c g)) = observable g
  /\ statistics (snd (encode millis c g)) = statistics g
  /\ registryKeys (snd (encode millis c g)) = registryKeys g.
Proof.
  intros H. destruct (isTermTerminator c) eqn:Ht.
  - destruct H as [Hc|]; [|discriminate].
    unfold encode. rewrite Ht.
    set (g1 := foldSeparator c _).
    assert (H1 : isChecksumTerm (terminateTerm g1) = false
                 /\ observable (terminateTerm g1) = observable g
                 /\ statistics (terminateTerm g1) = statistics g
                 /\ registryKeys (terminateTerm g1) = registryKeys g
                 /\ observable g1 = observable g
                 /\ statistics g1 = statistics g
                 /\ registryKeys g1 = registryKeys g).
    { subst g1. unfold foldSeparator. destruct g. cbn in *.
      destruct (c =c ","%char); now repeat split. }
    destruct H1 as (Hc1 & Ho1 & Hs1 & Hr1 & Ho2 & Hs2 & Hr2).
    destruct (curTermOffset g1 <? Z.of_nat _GPS_MAX_FIELD_SIZE).
    + destruct (endOfTermHandler_quiet _ Hc1) as (Hf & Ho & Hs & Hr).
      destruct (endOfTermHandler millis (terminateTerm g1)) as [b g2].
      cbn [fst snd] in *. subst b. rewrite <- Ho1, <- Hs1, <- Hr1, <- Ho, <- Hs, <- Hr.
      destruct g2. now repeat split.
    + cbn [fst snd]. rewrite <- Ho2, <- Hs2, <- Hr2. destruct g1. now repeat split.
  - unfold encode. rewrite Ht. destruct (c =c "$"%char).
    + destruct g. now repeat split.
    + cbn [fst snd]. destruct g. cbn.
      destruct (curTermOffset0 <? 14); destruct isChecksumTerm0; now repeat split.
Qed.

Lemma observable_nativeUpdated g g' :
  observable g' = observable g -> nativeUpdated g' = nativeUpdated g.
Proof.
  unfold observable, nativeUpdated,
    TinyGPSLocation.published, TinyGPSDate.published, TinyGPSTime.published,
    TinyGPSDecimal.published, TinyGPSInteger.published.
  intros H. injection H. intros. congruence.
Qed.

Lemma afterOrdinary_frame w g :
  observable (afterOrdinary w g) = observable g
  /\ statistics (afterOrdinary w g) = statistics g
  /\ registryKeys (afterOrdinary w g) = registryKeys g
  /\ isChecksumTerm (afterOrdinary w g) = isChecksumTerm g
  /\ curSentenceType (afterOrdinary w g) = curSentenceType g
  /\ curTermNumber (afterOrdinary w g) = curTermNumber g
  /\ sentenceHasFix (afterOrdinary w g) = sentenceHasFix g
  /\ customElts (afterOrdinary w g) = customElts g
  /\ customCandidates (afterOrdinary w g) = customCandidates g
  /\ natives (afterOrdinary w g) = natives g
  /\ term (afterOrdinary w g) = fst (appendTerm (term g) (curTermOffset g) w)
  /\ curTermOffset (afterOrdinary w g)
     = snd (appendTerm (term g) (curTermOffset g) w)
  /\ parity (afterOrdinary w g)
     = if isChecksumTerm g then parity g else xorInto (parity g) w.
Proof.
  destruct g. unfold afterOrdinary. cbn.
  destruct isChecksumTerm0; now repeat split.
Qed.

Lemma appendTerm_offset w : forall buf off,
  off <= Z.of_nat _GPS_MAX_FIELD_SIZE - 1 ->
  off <= snd (appendTerm buf off w) <= Z.of_nat _GPS_MAX_FIELD_SIZE - 1.
Proof.
  induction w as [|c w IH]; intros buf off H; cbn [appendTerm snd].
  - lia.
  - destruct (off <? Z.of_nat _GPS_MAX_FIELD_SIZE - 1) eqn:E.
    + apply Z.ltb_lt in E.
      specialize (IH (store buf (Z.to_nat off) c) (off + 1)). lia.
    + now apply IH.
Qed.

Lemma encode_terminator_offset c g :
  isTermTerminator c = true -> curTermOffset (snd (encode millis c g)) = 0.
Proof.
  intros Ht. unfold encode. rewrite Ht.
  now destruct (if _ <? _ then _ else _).
Qed.

(** ** A sentence up to its checksum term *)

(** While no ['*'] arrives after a ['$'], nothing is published or
    counted. *)
Lemma feed_quiet s : forall g,
  isChecksumTerm g = false ->
  forallb notStar s = true ->
  isChecksumTerm (feed millis g s) = false
  /\ observable (feed millis g s) = observable g
  /\ statistics (feed millis g s) = statistics g
  /\ registryKeys (feed millis g s) = registryKeys g.
Proof.
  induction s as [|c s IH]; intros g Hc Hs; cbn [feed forallb] in *.
  - now repeat split.
  - apply andb_true_iff in Hs as [Hn Hs].
    destruct (encode_quiet c g (or_introl Hc)) as (_ & Ho & Hst & Hr).
    assert (Hc' : isChecksumTerm (snd (encode millis c g)) = false).
    { rewrite encode_isChecksumTerm, Hc. unfold notStar in Hn.
      apply negb_true_iff in Hn. rewrite Hn.
      now destruct (isTermTerminator c), (c =c "$"%char). }
    destruct (IH _ Hc' Hs) as (H1 & H2 & H3 & H4).
    rewrite H2, H3, H4. now repeat split.
Qed.

(** The parser at the end of the text of a checksum term: the sentence
    ['$' body '*' cs], where [body] holds no ['*'] and [cs] is made of
    ordinary characters. *)
Lemma feed_to_checksum g0 body cs :
  forallb notStar body = true ->
  forallb ordinary cs = true ->
  let g1 := feed millis g0 ("$"%char :: body ++ "*"%char :: cs) in
  isChecksumTerm g1 = true
  /\ 0 <= curTermOffset g1 < Z.of_nat _GPS_MAX_FIELD_SIZE
  /\ observable g1 = observable g0
  /\ statistics g1 = statistics g0
  /\ registryKeys g1 = registryKeys g0.
Proof.
  intros Hb Hcs g1. subst g1.
  cbn [feed]. rewrite encode_dollar. cbn [snd]. rewrite feed_app.
  assert (Hd : isChecksumTerm (afterDollar g0) = false) by reflexivity.
  destruct (feed_quiet body _ Hd Hb) as (Hc & Ho & Hs & Hr).
  set (g := feed millis (afterDollar g0) body) in *.
  cbn [feed].
  destruct (encode_quiet "*"%char g (or_introl Hc)) as (_ & Ho' & Hs' & Hr').
  pose proof (encode_isChecksumTerm "*"%char g) as Hc'.
  pose proof (encode_terminator_offset "*"%char g eq_refl) as Hoff.
  change (isTermTerminator "*"%char) with true in Hc'. cbv iota in Hc'.
  change ("*"%char =c "*"%char) with true in Hc'.
  set (g' := snd (encode millis "*"%char g)) in *.
  rewrite feed_ordinary by assumption.
  destruct (afterOrdinary_frame cs g')
    as (-> & -> & -> & -> & _ & _ & _ & _ & _ & _ & _ & -> & _).
  pose proof (appendTerm_offset cs (term g') (curTermOffset g')) as Hb'.
  rewrite Hoff in *. specialize (Hb' ltac:(cbn; lia)).
  rewrite Ho', Hs', Hr', Ho, Hs, Hr.
  repeat split; try assumption; cbn in *; lia.
Qed.

Lemma atEndOfTerm_frame c g :
  observable (atEndOfTerm c g) = observable g
  /\ statistics (atEndOfTerm c g) = statistics g
  /\ registryKeys (atEndOfTerm c g) = registryKeys g
  /\ isChecksumTerm (atEndOfTerm c g) = isChecksumTerm g
  /\ curSentenceType (atEndOfTerm c g) = curSentenceType g
  /\ curTermNumber (atEndOfTerm c g) = curTermNumber g
  /\ curTermOffset (atEndOfTerm c g) = curTermOffset g
  /\ sentenceHasFix (atEndOfTerm c g) = sentenceHasFix g
  /\ customElts (atEndOfTerm c g) = customElts g
  /\ customCandidates (atEndOfTerm c g) = customCandidates g
  /\ natives (atEndOfTerm c g) = natives g
  /\ clockReads (atEndOfTerm c g) = clockReads g
  /\ term (atEndOfTerm c g) = store (term g) (Z.to_nat (curTermOffset g)) NUL
  /\ parity (atEndOfTerm c g)
     = if c =c ","%char then Z.lxor (parity g) (code c) else parity g.
Proof.
  destruct g. unfold atEndOfTerm, terminateTerm, foldSeparator. cbn.
  destruct (c =c ","%char); now repeat split.
Qed.

(** C1.  In a sentence ['$' body '*' cs t] whose checksum term [cs] does
    not match the accumulator when the terminator [t] arrives, [encode]
    answers false on [t]; afterwards every container (native or custom)
    exposes the committed value, flags and commit time it had before the
    ['$'], so no native [updated] flag has changed; the failed-checksum
    counter has gone up by one (modulo 2^32, the width of the counter),
    and the passed-checksum and fix counters are as before. *)
Theorem failed_checksum_discards
    (g0 : TinyGPSPlus) (body cs : list ascii) (t : ascii) :
  forallb notStar body = true ->
  forallb ordinary cs = true ->
  isTermTerminator t = true ->
  let g1 := feed millis g0 ("$"%char :: body ++ "*"%char :: cs) in
  termChecksum (term (atEndOfTerm t g1)) <> parity (atEndOfTerm t g1) ->
  let g2 := snd (encode millis t g1) in
  fst (encode millis t g1) = false
  /\ observable g2 = observable g0
  /\ nativeUpdated g2 = nativeUpdated g0
  /\ (isUpdated g0 = false -> isUpdated g2 = false)
  /\ failedChecksumCount g2 = to_uint32 (failedChecksumCount g0 + 1)
  /\ (0 <= failedChecksumCount g0 < 2 ^ 32 - 1 ->
      failedChecksumCount g2 = failedChecksumCount g0 + 1)
  /\ passedChecksumCount g2 = passedChecksumCount g0
  /\ sentencesWithFixCount g2 = sentencesWithFixCount g0.
Proof.
  intros Hb Hcs Ht g1 Hne g2.
  destruct (feed_to_checksum g0 body cs Hb Hcs) as (Hc & Hoff & Ho & Hs & _).
  fold g1 in Hc, Hoff, Ho, Hs.
  destruct (atEndOfTerm_frame t g1) as (Ho1 & Hs1 & _ & Hc1 & _).
  rewrite Hc in Hc1.
  subst g2. rewrite encode_terminator by (assumption || lia).
  rewrite endOfTermHandler_mismatch by assumption. cbn [fst snd].
  set (g' := atEndOfTerm t g1) in *. clearbody g'.
  assert (Hobs : observable
            (nextTerm t
               (set_failedChecksumCount (to_uint32 (failedChecksumCount g' + 1)) g'))
          = observable g0).
  { rewrite <- Ho, <- Ho1. now destruct g'. }
  assert (Hst : statistics g' = statistics g0) by congruence.
  unfold statistics in Hst. injection Hst as Hfix Hfail Hpass.
  assert (Hfail' : failedChecksumCount
            (nextTerm t
               (set_failedChecksumCount (to_uint32 (failedChecksumCount g' + 1)) g'))
          = to_uint32 (failedChecksumCount g0 + 1)).
  { rewrite <- Hfail. now destruct g'. }
  pose proof (observable_nativeUpdated _ _ Hobs) as Hupd.
  split; [reflexivity|]. split; [exact Hobs|]. split; [exact Hupd|].
  split.
  { unfold isUpdated, TinyGPSLocation.isUpdated, TinyGPSDate.isUpdated,
      TinyGPSTime.isUpdated, TinyGPSDecimal.isUpdated, TinyGPSInteger.isUpdated.
    unfold nativeUpdated in Hupd. injection Hupd. intros. congruence. }
  split; [exact Hfail'|].
  split.
  { intros Hr. rewrite Hfail'. apply to_uint32_small. lia. }
  split.
  - rewrite <- Hpass. now destruct g'.
  - rewrite <- Hfix. now destruct g'.
Qed.

(** ** The checksum accumulator *)

Lemma encode_parity c g :
  parity (snd (encode millis c g))
  = if isTermTerminator c
    then (if c =c ","%char then Z.lxor (parity g) (code c) else parity g)
    else if c =c "$"%char then 0
    else if isChecksumTerm g then parity g
    else Z.lxor (parity g) (code c).
Proof.
  unfold encode. destruct (isTermTerminator c).
  - set (g1 := foldSeparator c _).
    assert (H1 : parity g1
                 = if c =c ","%char then Z.lxor (parity g) (code c) else parity g).
    { subst g1. unfold foldSeparator. destruct g. cbn. now destruct (c =c ","%char). }
    rewrite <- H1.
    destruct (curTermOffset g1 <? Z.of_nat _GPS_MAX_FIELD_SIZE).
    + pose proof (endOfTermHandler_parsing (terminateTerm g1)) as Hp.
      destruct (endOfTermHandler millis (terminateTerm g1)) as [b g2].
      cbn [snd] in *.
      destruct (parsing_nextTerm c _ _ Hp) as (Hpar & _).
      etransitivity; [exact Hpar|]. now destruct g1.
    + now destruct g1.
  - destruct (c =c "$"%char); [reflexivity|]. cbn [snd].
    destruct g. cbn. destruct (curTermOffset0 <? 14); now destruct isChecksumTerm0.
Qed.

(** Outside the checksum term every character but a line end is folded
    in. *)
Lemma encode_parity_body c g :
  isChecksumTerm g = false -> notStar c = true -> notDollar c = true ->
  parity (snd (encode millis c g))
  = if lineEnd c then parity g else Z.lxor (parity g) (code c).
Proof.
  intros Hc Hs Hd. rewrite encode_parity, Hc.
  unfold notStar, notDollar in *. apply negb_true_iff in Hs, Hd. rewrite Hd.
  unfold isTermTerminator, lineEnd. rewrite Hs, orb_false_r.
  destruct (Ascii.eqb_spec c ","%char) as [->|_]; [reflexivity|].
  cbn [orb]. now destruct (c =c CR), (c =c LF).
Qed.

Lemma feed_parity_body body : forall g,
  isChecksumTerm g = false ->
  forallb notStar body = true -> forallb notDollar body = true ->
  parity (feed millis g body) = xorInto (parity g) (covered body).
Proof.
  induction body as [|c body IH]; intros g Hc Hs Hd; cbn [feed forallb] in *.
  - reflexivity.
  - apply andb_true_iff in Hs as [Hs1 Hs], Hd as [Hd1 Hd].
    destruct (feed_quiet [c] g Hc) as (Hc' & _).
    { cbn. now rewrite Hs1. }
    cbn [feed] in Hc'.
    rewrite IH by assumption.
    rewrite encode_parity_body by assumption.
    unfold covered. cbn [filter]. now destruct (lineEnd c).
Qed.

(** In a checksum term the handler answers by the comparison. *)
Lemma endOfTermHandler_checksum g :
  isChecksumTerm g = true ->
  fst (endOfTermHandler millis g) = (termChecksum (term g) =? parity g).
Proof.
  intros Hc. unfold endOfTermHandler. rewrite Hc.
  now destruct (termChecksum (term g) =? parity g).
Qed.

(** C4.  In a sentence ['$' body '*' cs t], where [body] holds neither
    ['$'] nor ['*'], [cs] is made of ordinary characters and [t] is the
    line end that closes the sentence, the accumulator at the moment the
    checksum field is compared is the exclusive-or of the characters of
    [body] other than CR and LF: every ordinary character, kept or dropped
    by the term buffer, and every field separator is folded in, while
    ['$'], ['*'], CR, LF and the checksum text [cs] are not. *)
Theorem checksum_accumulator_coverage
    (g0 : TinyGPSPlus) (body cs : list ascii) (t : ascii) :
  forallb notStar body = true ->
  forallb notDollar body = true ->
  forallb ordinary cs = true ->
  lineEnd t = true ->
  let g1 := feed millis g0 ("$"%char :: body ++ "*"%char :: cs) in
  parity g1 = xorAll (covered body)
  /\ parity (atEndOfTerm t g1) = xorAll (covered body)
  /\ fst (encode millis t g1)
     = (termChecksum (term (atEndOfTerm t g1)) =? xorAll (covered body)).
Proof.
  intros Hs Hd Hcs Hle g1.
  assert (Ht : isTermTerminator t = true /\ (t =c ","%char) = false).
  { unfold lineEnd in Hle. apply orb_true_iff in Hle as [H|H];
      apply Ascii.eqb_eq in H; subst t; now split. }
  destruct Ht as [Ht Hcomma].
  destruct (feed_to_checksum g0 body cs Hs Hcs) as (Hc & Hoff & _).
  fold g1 in Hc, Hoff.
  assert (Hp : parity g1 = xorAll (covered body)).
  { subst g1. cbn [feed]. rewrite encode_dollar. cbn [snd].
    rewrite feed_app. cbn [feed].
    assert (H0 : isChecksumTerm (afterDollar g0) = false) by reflexivity.
    destruct (feed_quiet body _ H0 Hs) as (Hcb & _).
    set (g := feed millis (afterDollar g0) body) in *.
    pose proof (encode_parity "*"%char g) as Hstar.
    pose proof (encode_isChecksumTerm "*"%char g) as Hcstar.
    change (isTermTerminator "*"%char) with true in Hstar, Hcstar.
    change ("*"%char =c ","%char) with false in Hstar.
    change ("*"%char =c "*"%char) with true in Hcstar. cbv iota in Hstar, Hcstar.
    rewrite feed_ordinary by assumption.
    destruct (afterOrdinary_frame cs (snd (encode millis "*"%char g)))
      as (_ & _ & _ & _ & _ & _ & _ & _ & _ & _ & _ & _ & ->).
    rewrite Hcstar, Hstar. subst g.
    rewrite feed_parity_body by assumption. reflexivity. }
  destruct (atEndOfTerm_frame t g1)
    as (_ & _ & _ & Hc1 & _ & _ & _ & _ & _ & _ & _ & _ & _ & Hp1).
  rewrite Hcomma in Hp1.
  assert (Hcmp : parity (atEndOfTerm t g1) = xorAll (covered body))
    by congruence.
  split; [exact Hp|]. split; [exact Hcmp|].
  rewrite encode_terminator by (assumption || lia). cbn [fst].
  rewrite <- Hcmp. apply endOfTermHandler_checksum. now rewrite Hc1.
Qed.

(** ** The invariant of the term buffer *)

Lemma encode_terminator_parsing c g :
  isTermTerminator c = true ->
  curTermOffset g < Z.of_nat _GPS_MAX_FIELD_SIZE ->
  term (snd (encode millis c g))
  = store (term g) (Z.to_nat (curTermOffset g)) NUL
  /\ curTermNumber (snd (encode millis c g)) = to_uint8 (curTermNumber g + 1)
  /\ curTermOffset (snd (encode millis c g)) = 0.
Proof.
  intros Ht Hoff. rewrite encode_terminator by assumption. cbn [snd].
  pose proof (endOfTermHandler_parsing (atEndOfTerm c g)) as Hp.
  destruct (parsing_nextTerm c _ _ Hp) as (_ & Hterm & Hnum & Ho & _).
  destruct (atEndOfTerm_frame c g)
    as (_ & _ & _ & _ & _ & Hn & _ & _ & _ & _ & _ & _ & Ht' & _).
  rewrite Hterm, Hnum, Ho, Ht', Hn. now repeat split.
Qed.

Lemma wellFormed_init : wellFormed TinyGPSPlus_init.
Proof. split; [reflexivity | cbn; lia]. Qed.

Lemma encode_wellFormed c g :
  wellFormed g -> wellFormed (snd (encode millis c g)).
Proof.
  intros [Hlen Hoff]. unfold wellFormed.
  destruct (isTermTerminator c) eqn:Ht.
  - destruct (encode_terminator_parsing c g Ht ltac:(lia)) as (-> & _ & ->).
    rewrite length_store. split; [assumption | cbn; lia].
  - unfold encode. rewrite Ht. destruct (c =c "$"%char).
    + cbn. split; [assumption | lia].
    + cbn [snd]. destruct g. cbn in *.
      destruct (curTermOffset0 <? 14) eqn:E; destruct isChecksumTerm0; cbn;
        rewrite ?length_store; (split; [assumption|]);
        try apply Z.ltb_lt in E; lia.
Qed.

Lemma feed_wellFormed s : forall g,
  wellFormed g -> wellFormed (feed millis g s).
Proof.
  induction s as [|c s IH]; intros g H; cbn [feed]; auto using encode_wellFormed.
Qed.

Lemma insertCustom_wellFormed pElt name n g :
  wellFormed g -> wellFormed (insertCustom pElt name n g).
Proof.
  unfold wellFormed, insertCustom. intros H.
  destruct (customCandidates g) as [j|]; [destruct (_ <=? _)%nat|];
    destruct g; exact H.
Qed.

(** Every parser a client can reach satisfies the invariant. *)
Lemma session_wellFormed acts : wellFormed (session millis acts).
Proof.
  unfold session. generalize wellFormed_init. generalize TinyGPSPlus_init.
  induction acts as [|a acts IH]; intros g Hg; cbn [fold_left]; [exact Hg|].
  apply IH. destruct a as [name tn|c]; cbn [perform].
  - now apply insertCustom_wellFormed.
  - now apply encode_wellFormed.
Qed.

(** ** Which term is a checksum term *)



(** ** Empty terms *)

Lemma natives_nativeStaged g g' :
  natives g' = natives g -> nativeStaged g' = nativeStaged g.
Proof.
  unfold natives, nativeStaged. intros H. injection H. intros. congruence.
Qed.

Lemma setNative_empty g : at_ (term g) 0 = NUL -> setNative g = g.
Proof.
  intros H. unfold setNative. rewrite H.
  change (NUL =c NUL) with true. cbn [negb]. now rewrite andb_false_r.
Qed.

Lemma at_store_0 buf c : (0 < length buf)%nat -> at_ (store buf 0 c) 0 = c.
Proof. destruct buf; cbn; [lia | reflexivity]. Qed.

Lemma endOfTermHandler_empty g :
  at_ (term g) 0 = NUL ->
  nativeStaged (snd (endOfTermHandler millis g)) = nativeStaged g
  /\ sentenceHasFix (snd (endOfTermHandler millis g)) = sentenceHasFix g
  /\ (isChecksumTerm g = false ->
      natives (snd (endOfTermHandler millis g)) = natives g).
Proof.
  intros H0. unfold endOfTermHandler.
  destruct (isChecksumTerm g).
  - destruct (termChecksum (term g) =? parity g); cbn [snd].
    + match goal with
      | |- context [commitCustoms _ ?x] =>
          destruct (commitCustoms_frame x) as (_ & _ & -> & _ & Hn & _);
          rewrite (natives_nativeStaged _ _ Hn)
      end.
      match goal with
      | |- context [commitNative _ ?x] =>
          destruct (commitNative_frame x) as (_ & _ & -> & _ & _ & _ & ->)
      end.
      clear. destruct g. cbn.
      destruct sentenceHasFix0; (split; [|split]); (reflexivity || discriminate).
    + now repeat split.
  - destruct (curTermNumber g =? 0); cbn [snd]; [now repeat split|].
    rewrite setNative_empty by assumption.
    destruct (setCustoms_frame g) as (_ & _ & -> & _ & Hn & _).
    rewrite (natives_nativeStaged _ _ Hn). now repeat split.
Qed.

(** C9.  When a term is ended with no character stored in the term
    buffer, no native setter runs: every staged value of the native
    containers, the staged hemisphere signs among them, and the fix flag
    are as before; and outside a checksum term the native containers are
    left untouched altogether, whatever the sentence kind and the index
    of the term. *)
Theorem empty_term_stages_nothing (g : TinyGPSPlus) (t : ascii) :
  wellFormed g ->
  isTermTerminator t = true ->
  curTermOffset g = 0 ->
  let g' := snd (encode millis t g) in
  nativeStaged g' = nativeStaged g
  /\ sentenceHasFix g' = sentenceHasFix g
  /\ (isChecksumTerm g = false -> natives g' = natives g)
  /\ setNative (atEndOfTerm t g) = atEndOfTerm t g.
Proof.
  intros [Hlen Hoff] Ht H0 g'. subst g'.
  rewrite encode_terminator by (assumption || lia). cbn [snd].
  destruct (atEndOfTerm_frame t g)
    as (_ & _ & _ & Hc & _ & _ & _ & Hfix & _ & _ & Hn & _ & Hterm & _).
  assert (Hnul : at_ (term (atEndOfTerm t g)) 0 = NUL).
  { rewrite Hterm, H0. apply at_store_0. rewrite Hlen. cbn. lia. }
  destruct (endOfTermHandler_empty _ Hnul) as (Hs1 & Hf1 & Hn1).
  rewrite Hc in Hn1.
  set (h := snd (endOfTermHandler millis (atEndOfTerm t g))) in *.
  assert (Hnext : natives (nextTerm t h) = natives h
                  /\ sentenceHasFix (nextTerm t h) = sentenceHasFix h)
    by (destruct h; now split).
  destruct Hnext as (Hnn & Hnf).
  rewrite (natives_nativeStaged _ _ Hnn), Hs1, (natives_nativeStaged _ _ Hn).
  rewrite Hnf, Hf1, Hfix, Hnn.
  repeat split.
  - intros Hc0. now rewrite Hn1.
  - now apply setNative_empty.
Qed.

(** ** [strcmp] as an order *)

Lemma code_inj x y : code x = code y -> x = y.
Proof.
  unfold code. intros H. apply N2Z.inj in H.
  rewrite <- (ascii_N_embedding x), <- (ascii_N_embedding y). now f_equal.
Qed.

Lemma code_NUL x : code x = 0 -> x = NUL.
Proof. intros H. now apply code_inj. Qed.

Lemma strcmp_antisym a : forall b, strcmp b a = - strcmp a b.
Proof.
  induction a as [|x a IH]; intros [|y b]; cbn [strcmp]; try lia.
  rewrite (Ascii.eqb_sym y x).
  destruct (Ascii.eqb_spec x y) as [->|_]; [|lia].
  destruct (y =c NUL); [reflexivity | apply IH].
Qed.

Ltac code_ranges :=
  repeat match goal with
    | c : ascii |- _ =>
        lazymatch goal with
        | _ : 0 <= code c < 256 |- _ => fail
        | _ => pose proof (code_range c)
        end
    end.

(** [a < b] and [b <= c] give [a < c]. *)
Lemma neq_code x y : x <> y -> code x <> code y.
Proof. intros H E. now apply H, code_inj. Qed.

Lemma strcmp_lt_le_trans a : forall b c,
  strcmp a b < 0 -> strcmp b c <= 0 -> strcmp a c < 0.
Proof.
  induction a as [|x a IH]; intros [|y b] [|z c]; cbn [strcmp];
    code_ranges; try lia.
  - (* a = [] *)
    destruct (Ascii.eqb_spec y z) as [->|_]; lia.
  - (* c = [] *)
    destruct (Ascii.eqb_spec x y) as [->|Hxy]; [|lia].
    intros Hab Hbc.
    assert (y = NUL) by (apply code_NUL; lia). subst y.
    change (NUL =c NUL) with true in Hab. lia.
  - destruct (Ascii.eqb_spec x y) as [->|Hxy].
    + destruct (Ascii.eqb_spec y z) as [->|Hyz].
      * destruct (z =c NUL); [lia | apply (IH b c)].
      * apply neq_code in Hyz. destruct (y =c NUL); lia.
    + apply neq_code in Hxy.
      destruct (Ascii.eqb_spec y z) as [->|Hyz].
      * destruct (Ascii.eqb_spec x z) as [->|_]; [contradiction | lia].
      * apply neq_code in Hyz. destruct (Ascii.eqb_spec x z) as [->|_]; lia.
Qed.

(** A buffer compares as its text does. *)
Lemma strcmp_terminated_r w : forall a junk,
  strcmp a (w ++ NUL :: junk) = strcmp a w.
Proof.
  induction w as [|y w IH]; intros [|x a] junk; cbn [app strcmp]; try reflexivity.
  - destruct (Ascii.eqb_spec x NUL) as [->|_]; [reflexivity|].
    change (code NUL) with 0. lia.
  - destruct (x =c y); [|reflexivity].
    destruct (x =c NUL); [reflexivity | apply IH].
Qed.

Lemma strcmp_terminated_l w a junk :
  strcmp (w ++ NUL :: junk) a = strcmp w a.
Proof. now rewrite (strcmp_antisym a), strcmp_terminated_r, <- strcmp_antisym. Qed.

(** ** The registry is kept sorted *)

Lemma insertCustom_pos_shift name tn l : forall k,
  insertCustom_pos name tn l k = (k + insertCustom_pos name tn l 0)%nat.
Proof.
  induction l as [|x l IH]; intros k; cbn [insertCustom_pos].
  - lia.
  - destruct (_ || _); [lia|]. rewrite (IH (S k)), (IH 1%nat). lia.
Qed.

Lemma insertCustom_linkIn pElt l :
  let k := insertCustom_pos (entryName pElt) (entryTerm pElt) l 0 in
  firstn k l ++ pElt :: skipn k l = linkIn pElt l.
Proof.
  induction l as [|x l IH]; cbn [insertCustom_pos linkIn]; [reflexivity|].
  fold entryName entryTerm.
  destruct (_ || _); [reflexivity|].
  rewrite insertCustom_pos_shift. cbn [Nat.add firstn skipn app].
  now rewrite <- IH.
Qed.

Lemma customElts_insertCustom pElt g :
  customElts (insertCustom pElt (entryName pElt) (entryTerm pElt) g)
  = linkIn pElt (customElts g).
Proof.
  rewrite <- insertCustom_linkIn. unfold insertCustom.
  destruct (customCandidates g) as [j|]; [destruct (_ <=? _)%nat|]; reflexivity.
Qed.

Lemma customElts_begin name tn g :
  customElts (begin name tn g)
  = linkIn (TinyGPSCustom.fresh name tn) (customElts g).
Proof. unfold begin. apply (customElts_insertCustom (TinyGPSCustom.fresh name tn)). Qed.

Lemma linkIn_test e x :
  let cmp := strcmp (entryName e) (entryName x) in
  ((cmp <? 0) || ((cmp =? 0) && (entryTerm e <? entryTerm x))) = true
  <-> entryAfter e x.
Proof.
  unfold entryAfter. cbv zeta.
  rewrite orb_true_iff, andb_true_iff, Z.ltb_lt, Z.eqb_eq, Z.ltb_lt. reflexivity.
Qed.

Lemma entryAfter_le e x : entryAfter e x -> entryLe e x.
Proof. unfold entryAfter, entryLe. lia. Qed.

Lemma not_entryAfter_le e x : ~ entryAfter e x -> entryLe x e.
Proof.
  unfold entryAfter, entryLe.
  rewrite (strcmp_antisym (entryName e) (entryName x)). lia.
Qed.

Lemma linkIn_position e l :
  exists l1 l2,
    l = l1 ++ l2 /\ linkIn e l = l1 ++ e :: l2
    /\ Forall (fun x => ~ entryAfter e x) l1
    /\ match l2 with [] => True | x :: _ => entryAfter e x end.
Proof.
  induction l as [|x l IH]; cbn [linkIn].
  - exists [], []. repeat split. constructor.
  - destruct (_ || _) eqn:E.
    + apply linkIn_test in E. exists [], (x :: l). repeat split; auto.
    + destruct IH as (l1 & l2 & -> & -> & Hall & Hhd).
      exists (x :: l1), l2. repeat split; auto.
      constructor; auto. intros H. apply linkIn_test in H. cbv zeta in H. congruence.
Qed.

Lemma HdRel_linkIn e x l :
  entryLe x e -> HdRel entryLe x l -> HdRel entryLe x (linkIn e l).
Proof.
  intros Hxe H. destruct l as [|y l]; cbn [linkIn].
  - now constructor.
  - destruct (_ || _); constructor; auto. now inversion H.
Qed.

Lemma linkIn_sorted e l : Sorted entryLe l -> Sorted entryLe (linkIn e l).
Proof.
  induction 1 as [|x l Hs IH Hhd]; cbn [linkIn].
  - repeat constructor.
  - destruct (_ || _) eqn:E.
    + constructor; [now constructor|]. constructor.
      apply entryAfter_le. now apply linkIn_test.
    + constructor; [exact IH|]. apply HdRel_linkIn; [|exact Hhd].
      apply not_entryAfter_le. intros H. apply linkIn_test in H.
      cbv zeta in H. congruence.
Qed.

(** Sortedness only looks at the keys of the entries. *)
Lemma sorted_by_keys l : forall l',
  map entryKey l' = map entryKey l -> Sorted entryLe l -> Sorted entryLe l'.
Proof.
  assert (Hle : forall a a' b b', entryKey a' = entryKey a ->
                  entryKey b' = entryKey b -> entryLe a b -> entryLe a' b').
  { intros a a' b b' Ha Hb. unfold entryKey in Ha, Hb.
    injection Ha as Ha1 Ha2. injection Hb as Hb1 Hb2.
    unfold entryLe. now rewrite Ha1, Ha2, Hb1, Hb2. }
  induction l as [|x l IH]; intros [|x' l'] Hk Hs; try discriminate.
  - constructor.
  - cbn [map] in Hk.
    assert (Hx : entryKey x' = entryKey x) by congruence.
    assert (Hl : map entryKey l' = map entryKey l) by congruence.
    inversion Hs as [|? ? Hs' Hhd]; subst.
    constructor; [now apply IH|].
    destruct l' as [|y' l'], l as [|y l]; try discriminate; constructor.
    cbn [map] in Hl.
    assert (Hy : entryKey y' = entryKey y) by congruence.
    inversion Hhd; subst. eapply Hle; eauto.
Qed.

Lemma map_keys_commitCandidates head l : forall n,
  map entryKey (fst (commitCandidates millis head n l)) = map entryKey l.
Proof.
  induction l as [|p l IH]; intros n; cbn [commitCandidates]; [reflexivity|].
  destruct (_ =? _); [|reflexivity].
  specialize (IH (S n)). destruct (commitCandidates millis head (S n) l).
  cbn [fst map] in *. now rewrite IH.
Qed.

Lemma commitCustoms_registryKeys g :
  registryKeys (commitCustoms millis g) = registryKeys g.
Proof.
  unfold commitCustoms, registryKeys.
  destruct (customCandidates g) as [k|]; [|reflexivity].
  destruct (skipn k (customElts g)) as [|first l] eqn:Hs; [reflexivity|].
  pose proof (map_keys_commitCandidates (TinyGPSCustom.sentenceName first)
                (first :: l) (clockReads g)) as Hm.
  destruct (commitCandidates millis _ _ _) as [l' n]. cbn [fst] in Hm.
  change (customElts (set_clockReads n (set_customElts ?x g))) with x.
  change (fun e => (TinyGPSCustom.sentenceName e, TinyGPSCustom.termNumber e))
    with entryKey.
  rewrite map_app, Hm, <- Hs, <- map_app, firstn_skipn. reflexivity.
Qed.

Lemma endOfTermHandler_registryKeys g :
  registryKeys (snd (endOfTermHandler millis g)) = registryKeys g.
Proof.
  destruct (isChecksumTerm g) eqn:Hc.
  2:{ now destruct (endOfTermHandler_quiet g Hc) as (_ & _ & _ & ->). }
  unfold endOfTermHandler. rewrite Hc.
  destruct (termChecksum (term g) =? parity g); cbn [snd]; [|reflexivity].
  rewrite commitCustoms_registryKeys.
  match goal with
  | |- registryKeys (commitNative _ ?x) = _ =>
      destruct (commitNative_frame x) as (_ & _ & _ & _ & Hl & _)
  end.
  unfold registryKeys. rewrite Hl. now destruct (sentenceHasFix _).
Qed.

Lemma encode_registryKeys c g :
  registryKeys (snd (encode millis c g)) = registryKeys g.
Proof.
  destruct (isTermTerminator c) eqn:Ht.
  2:{ now destruct (encode_quiet c g (or_intror Ht)) as (_ & _ & _ & ->). }
  unfold encode. rewrite Ht.
  set (g1 := foldSeparator c _).
  assert (H1 : registryKeys g1 = registryKeys g
               /\ registryKeys (terminateTerm g1) = registryKeys g).
  { subst g1. unfold foldSeparator. destruct g, (c =c ","%char); now split. }
  destruct H1 as [H1 H2].
  destruct (curTermOffset g1 <? Z.of_nat _GPS_MAX_FIELD_SIZE).
  - pose proof (endOfTermHandler_registryKeys (terminateTerm g1)) as Hk.
    destruct (endOfTermHandler millis (terminateTerm g1)) as [b g2].
    cbn [snd] in *. rewrite <- H2, <- Hk. now destruct g2.
  - cbn [snd]. rewrite <- H1. now destruct g1.
Qed.

Lemma session_sorted acts : registrySorted (session millis acts).
Proof.
  unfold session.
  assert (H0 : registrySorted TinyGPSPlus_init) by constructor.
  revert H0. generalize TinyGPSPlus_init.
  induction acts as [|a acts IH]; intros g Hg; cbn [fold_left]; [exact Hg|].
  apply IH. destruct a as [name tn|c]; cbn [perform]; unfold registrySorted in *.
  - rewrite customElts_begin. now apply linkIn_sorted.
  - eapply sorted_by_keys; [|exact Hg]. apply encode_registryKeys.
Qed.

(** C7.  In every parser a client can reach by registering custom fields
    and feeding characters, the registry is sorted by name and, for equal
    names, by term number; a registration links the new entry in right
    before the first entry that comes after it (greater name, or equal
    name and greater term number), keeps the other entries in their order,
    and leaves the registry sorted. *)
Theorem registry_sorted_by_insertion
    (acts : list action) (name : list ascii) (tn : Z) :
  let g := session millis acts in
  let e := TinyGPSCustom.fresh name tn in
  registrySorted g
  /\ registrySorted (begin name tn g)
  /\ exists l1 l2,
       customElts g = l1 ++ l2
       /\ customElts (begin name tn g) = l1 ++ e :: l2
       /\ Forall (fun x => ~ entryAfter e x) l1
       /\ match l2 with [] => True | x :: _ => entryAfter e x end.
Proof.
  intros g e. pose proof (session_sorted acts) as Hs. fold g in Hs.
  split; [exact Hs|]. split.
  - unfold registrySorted. rewrite customElts_begin. now apply linkIn_sorted.
  - rewrite customElts_begin. apply linkIn_position.
Qed.

(** ** The text of a term when it ends *)

Lemma length_termText w : (length (termText w) <= 14)%nat.
Proof. unfold termText, _GPS_MAX_FIELD_SIZE. rewrite length_firstn. lia. Qed.

(** After the ordinary characters [w] from the start of a term, the
    buffer handed to [endOfTermHandler] holds what the buffer keeps of
    [w], terminated. *)
Lemma term_atEndOfTerm g w t :
  wellFormed g -> curTermOffset g = 0 -> forallb ordinary w = true ->
  term (atEndOfTerm t (feed millis g w))
  = termText w ++ NUL :: skipn (S (length (termText w))) (term g).
Proof.
  intros [Hlen _] H0 Hw. rewrite feed_ordinary by assumption.
  destruct (atEndOfTerm_frame t (afterOrdinary w g))
    as (_ & _ & _ & _ & _ & _ & _ & _ & _ & _ & _ & _ & -> & _).
  destruct (afterOrdinary_frame w g)
    as (_ & _ & _ & _ & _ & _ & _ & _ & _ & _ & -> & -> & _).
  rewrite H0. change 0 with (Z.of_nat 0).
  rewrite appendTerm_text by (lia || exact Hlen).
  cbn [fst snd firstn app Nat.add]. rewrite Nat2Z.id.
  change (firstn (14 - 0) w) with (termText w).
  apply store_after. pose proof (length_termText w). rewrite Hlen.
  unfold _GPS_MAX_FIELD_SIZE. lia.
Qed.



(** ** The candidates of a sentence *)

Lemma findCandidates_from nm l : forall pre,
  match scanCandidates nm l (length pre) with
  | None => None
  | Some k =>
      match nth_error (pre ++ l) k with
      | Some e => if 0 <? strcmp (entryName e) nm then None else Some k
      | None => None
      end
  end = scanThenCheck nm l (length pre).
Proof.
  induction l as [|e l IH]; intros pre; cbn [scanCandidates scanThenCheck].
  - reflexivity.
  - fold entryName. destruct (strcmp (entryName e) nm <? 0).
    + specialize (IH (pre ++ [e])).
      rewrite length_app, Nat.add_1_r, <- app_assoc in IH. exact IH.
    + rewrite nth_error_app2, Nat.sub_diag by lia. reflexivity.
Qed.

Lemma findCandidates_scanThenCheck nm l :
  findCandidates nm l = scanThenCheck nm l 0.
Proof. exact (findCandidates_from nm l []). Qed.

Lemma scanThenCheck_terminated w junk l : forall k,
  scanThenCheck (w ++ NUL :: junk) l k = scanThenCheck w l k.
Proof.
  induction l as [|e l IH]; intros k; cbn [scanThenCheck]; [reflexivity|].
  now rewrite strcmp_terminated_r, IH.
Qed.

(** Past an entry whose name is above [nm], a sorted registry holds no
    entry named [nm]. *)
Lemma firstNamed_above nm l : forall e k,
  Sorted entryLe (e :: l) -> strcmp nm (entryName e) < 0 ->
  firstNamed nm l k = None.
Proof.
  induction l as [|y l IH]; intros e k Hs Hlt; cbn [firstNamed]; [reflexivity|].
  inversion Hs as [|? ? Hs' Hhd]; subst. inversion Hhd as [|? ? Hey]; subst.
  assert (Hy : strcmp nm (entryName y) < 0).
  { apply (strcmp_lt_le_trans nm (entryName e)); [exact Hlt|].
    unfold entryLe in Hey. lia. }
  rewrite (strcmp_antisym nm (entryName y)).
  destruct (Z.eqb_spec (- strcmp nm (entryName y)) 0); [lia|].
  now apply (IH y).
Qed.

Lemma scanThenCheck_sorted nm l : forall k,
  Sorted entryLe l -> scanThenCheck nm l k = firstNamed nm l k.
Proof.
  induction l as [|e l IH]; intros k Hs; cbn [scanThenCheck firstNamed].
  - reflexivity.
  - destruct (Z.ltb_spec (strcmp (entryName e) nm) 0) as [Hlt|Hge].
    + destruct (Z.eqb_spec (strcmp (entryName e) nm) 0); [lia|].
      apply IH. now inversion Hs.
    + destruct (Z.ltb_spec 0 (strcmp (entryName e) nm)) as [Hgt|Hle].
      * destruct (Z.eqb_spec (strcmp (entryName e) nm) 0); [lia|].
        symmetry. apply (firstNamed_above nm l e); [exact Hs|].
        rewrite (strcmp_antisym (entryName e) nm). lia.
      * destruct (Z.eqb_spec (strcmp (entryName e) nm) 0); [reflexivity | lia].
Qed.

Lemma firstNamed_some nm l : forall k j,
  firstNamed nm l k = Some j ->
  (k <= j)%nat
  /\ exists e, nth_error l (j - k) = Some e
       /\ strcmp (entryName e) nm = 0
       /\ forall i x, (i < j - k)%nat -> nth_error l i = Some x ->
            strcmp (entryName x) nm <> 0.
Proof.
  induction l as [|e l IH]; intros k j; cbn [firstNamed]; [discriminate|].
  destruct (Z.eqb_spec (strcmp (entryName e) nm) 0) as [He|Hne].
  - intros [= <-]. split; [lia|]. exists e. rewrite Nat.sub_diag.
    repeat split; auto. intros i x Hi. lia.
  - intros H. destruct (IH _ _ H) as (Hle & x & Hx & Hx0 & Hbefore).
    split; [lia|]. exists x.
    replace (j - k)%nat with (S (j - S k)) by lia. repeat split; auto.
    intros [|i] y Hi Hy; cbn [nth_error] in Hy.
    + now injection Hy as <-.
    + apply (Hbefore i); [lia | exact Hy].
Qed.

Lemma firstNamed_none nm l : forall k,
  firstNamed nm l k = None ->
  Forall (fun e => strcmp (entryName e) nm <> 0) l.
Proof.
  induction l as [|e l IH]; intros k; cbn [firstNamed]; [constructor|].
  destruct (Z.eqb_spec (strcmp (entryName e) nm) 0) as [He|Hne]; [discriminate|].
  intros H. constructor; [exact Hne | now apply (IH (S k))].
Qed.

(** The handler on the first term of a sentence. *)
Lemma endOfTermHandler_name g :
  isChecksumTerm g = false -> curTermNumber g = 0 ->
  endOfTermHandler millis g
  = (false,
     set_customCandidates (findCandidates (term g) (customElts g))
       (set_curSentenceType (classify (term g)) g)).
Proof.
  intros Hc Hn. unfold endOfTermHandler. now rewrite Hc, Hn.
Qed.

(** The parser when the terminator [t] of the sentence name arrives. *)
Lemma feed_sentence_name g0 name t :
  wellFormed g0 -> forallb ordinary name = true ->
  isTermTerminator t = true ->
  let g := feed millis g0 ("$"%char :: name) in
  let tm := termText name ++ NUL :: skipn (S (length (termText name))) (term g0) in
  encode millis t g
  = (false,
     nextTerm t
       (set_customCandidates (findCandidates tm (customElts g0))
          (set_curSentenceType (classify tm) (atEndOfTerm t g))))
  /\ observable (atEndOfTerm t g) = observable g0
  /\ statistics (atEndOfTerm t g) = statistics g0
  /\ sentenceHasFix (atEndOfTerm t g) = false
  /\ customElts (atEndOfTerm t g) = customElts g0
  /\ length (term (atEndOfTerm t g)) = _GPS_MAX_FIELD_SIZE
  /\ parity (atEndOfTerm t g)
     = if t =c ","%char then Z.lxor (xorAll name) (code t) else xorAll name.
Proof.
  intros Hwf Hname Ht g tm. subst g. cbn [feed]. rewrite encode_dollar. cbn [snd].
  assert (Hwf' : wellFormed (afterDollar g0)).
  { destruct Hwf. split; [assumption | cbn; lia]. }
  pose proof (term_atEndOfTerm (afterDollar g0) name t Hwf' eq_refl Hname) as Hterm.
  change (term (afterDollar g0)) with (term g0) in Hterm. fold tm in Hterm.
  pose proof (feed_wellFormed name _ Hwf') as [Hlen Hoff].
  set (g := feed millis (afterDollar g0) name) in *.
  assert (Hg : g = afterOrdinary name (afterDollar g0))
    by (subst g; now apply feed_ordinary).
  destruct (afterOrdinary_frame name (afterDollar g0))
    as (Ho & Hs & _ & Hc & _ & Hn & Hf & He & _ & _ & _ & _ & Hp).
  rewrite <- Hg in Ho, Hs, Hc, Hn, Hf, He, Hp.
  change (isChecksumTerm (afterDollar g0)) with false in Hc, Hp.
  change (curTermNumber (afterDollar g0)) with 0 in Hn.
  change (sentenceHasFix (afterDollar g0)) with false in Hf.
  change (observable (afterDollar g0)) with (observable g0) in Ho.
  change (statistics (afterDollar g0)) with (statistics g0) in Hs.
  change (customElts (afterDollar g0)) with (customElts g0) in He.
  change (parity (afterDollar g0)) with 0 in Hp. cbv iota in Hp.
  destruct (atEndOfTerm_frame t g)
    as (Ho1 & Hs1 & _ & Hc1 & _ & Hn1 & _ & Hf1 & He1 & _ & _ & _ & Ht1 & Hp1).
  rewrite encode_terminator by (assumption || lia).
  rewrite endOfTermHandler_name by congruence.
  cbn [fst snd].
  split; [now rewrite Hterm, He1, He|].
  repeat split; try congruence.
  - rewrite Ht1, length_store. exact Hlen.
  - rewrite Hp1, Hp. reflexivity.
Qed.

(** C8 (as amended).  When the terminator [t] of the first term of a
    sentence ['$' name t] arrives, the registry being sorted, the cached
    candidate pointer becomes the position of the first entry whose name
    equals the text that the term buffer holds of the sentence name (its
    first fourteen characters), and null when no entry has that name; the
    registry itself is unchanged. *)
Theorem candidates_after_sentence_name
    (g0 : TinyGPSPlus) (name : list ascii) (t : ascii) :
  wellFormed g0 ->
  registrySorted g0 ->
  forallb ordinary name = true ->
  isTermTerminator t = true ->
  let g := feed millis g0 ("$"%char :: name ++ [t]) in
  let nm := termText name in
  customElts g = customElts g0
  /\ customCandidates g = firstNamed nm (customElts g0) 0
  /\ (forall k, customCandidates g = Some k ->
       exists e, nth_error (customElts g0) k = Some e
         /\ strcmp (entryName e) nm = 0
         /\ forall i x, (i < k)%nat -> nth_error (customElts g0) i = Some x ->
              strcmp (entryName x) nm <> 0)
  /\ (customCandidates g = None ->
      Forall (fun e => strcmp (entryName e) nm <> 0) (customElts g0)).
Proof.
  intros Hwf Hsorted Hname Ht g nm.
  destruct (feed_sentence_name g0 name t Hwf Hname Ht)
    as (Henc & _ & _ & _ & He & _).
  assert (Hg : g = snd (encode millis t (feed millis g0 ("$"%char :: name)))).
  { subst g. change ("$"%char :: name ++ [t]) with (("$"%char :: name) ++ [t]).
    now rewrite feed_app. }
  rewrite Henc in Hg. cbn [snd] in Hg.
  assert (Hcand : customCandidates g = firstNamed nm (customElts g0) 0).
  { rewrite Hg. cbn.
    rewrite findCandidates_scanThenCheck, scanThenCheck_terminated.
    now apply scanThenCheck_sorted. }
  split; [|split; [exact Hcand|split]].
  - rewrite Hg. cbn. exact He.
  - intros k Hk. rewrite Hcand in Hk.
    destruct (firstNamed_some _ _ _ _ Hk) as (_ & e & Hnth & H0 & Hbefore).
    rewrite Nat.sub_0_r in *. now exists e.
  - intros Hnone. rewrite Hcand in Hnone. now apply (firstNamed_none nm _ 0%nat).
Qed.

(** ** Commit of the custom candidates *)

Lemma cstr_terminated s junk : cstr (cstr s ++ NUL :: junk) = cstr s.
Proof.
  induction s as [|c s IH]; cbn [cstr app]; [reflexivity|].
  destruct (c =c NUL) eqn:E; cbn [cstr app]; [reflexivity|].
  now rewrite E, IH.
Qed.

Lemma cstr_strcpy dst src : cstr (strcpy dst src) = cstr src.
Proof. apply cstr_terminated. Qed.

(** The [i]-th entry of the run is committed at the [i]-th clock
    reading of the loop. *)
Lemma commitCandidates_run head l : forall n i e,
  nth_error (sameNamePrefix head l) i = Some e ->
  nth_error (fst (commitCandidates millis head n l)) i
  = Some (TinyGPSCustom.commit (millis (n + i)) e).
Proof.
  induction l as [|p l IH]; intros n i e;
    cbn [sameNamePrefix commitCandidates].
  - now destruct i.
  - fold entryName. destruct (strcmp (entryName p) head =? 0).
    + specialize (IH (S n)).
      destruct (commitCandidates millis head (S n) l) as [l' n'].
      cbn [fst] in *. destruct i as [|i]; cbn [nth_error].
      * intros [= <-]. now rewrite Nat.add_0_r.
      * intros H. rewrite (IH i e H). do 3 f_equal. lia.
    + now destruct i.
Qed.

Lemma sameNamePrefix_nth head l : forall i e,
  nth_error (sameNamePrefix head l) i = Some e -> nth_error l i = Some e.
Proof.
  induction l as [|p l IH]; intros i e; cbn [sameNamePrefix].
  - now destruct i.
  - destruct (_ =? _); [|now destruct i].
    destruct i as [|i]; cbn [nth_error]; auto.
Qed.

Lemma candidateRun_nth k elts i e :
  nth_error (candidateRun k elts) i = Some e ->
  nth_error elts (k + i) = Some e /\ (k < length elts)%nat.
Proof.
  unfold candidateRun. destruct (skipn k elts) as [|first l] eqn:Hs.
  - now destruct i.
  - intros H. apply sameNamePrefix_nth in H.
    rewrite <- Hs, nth_error_skipn in H. split; [exact H|].
    destruct (Nat.lt_ge_cases k (length elts)) as [|Hge]; [assumption|].
    rewrite skipn_all2 in Hs by exact Hge. discriminate.
Qed.

Lemma commitCustoms_run g k i e :
  customCandidates g = Some k ->
  nth_error (candidateRun k (customElts g)) i = Some e ->
  nth_error (customElts (commitCustoms millis g)) (k + i)
  = Some (TinyGPSCustom.commit (millis (clockReads g + i)) e).
Proof.
  intros Hk Hrun. destruct (candidateRun_nth _ _ _ _ Hrun) as [_ Hlt].
  unfold commitCustoms, candidateRun in *. rewrite Hk.
  destruct (skipn k (customElts g)) as [|first l] eqn:Hs; [now destruct i|].
  pose proof (commitCandidates_run (TinyGPSCustom.sentenceName first)
                (first :: l) (clockReads g) i e Hrun) as Hc.
  destruct (commitCandidates millis _ _ _) as [l' n]. cbn [fst] in Hc.
  change (customElts (set_clockReads n (set_customElts ?x g))) with x.
  rewrite nth_error_app2 by (rewrite length_firstn; lia).
  rewrite length_firstn.
  replace (k + i - Nat.min k (length (customElts g)))%nat with i by lia.
  exact Hc.
Qed.

Lemma commitCustoms_length g :
  length (customElts (commitCustoms millis g)) = length (customElts g).
Proof.
  pose proof (commitCustoms_registryKeys g) as H. unfold registryKeys in H.
  apply (f_equal (@length _)) in H. now rewrite !length_map in H.
Qed.

(** The handler on a checksum term that matches. *)
Lemma endOfTermHandler_match g :
  isChecksumTerm g = true ->
  termChecksum (term g) = parity g ->
  endOfTermHandler millis g
  = (true,
     commitCustoms millis
       (commitNative millis
          (let g := set_passedChecksumCount
                      (to_uint32 (passedChecksumCount g + 1)) g in
           if sentenceHasFix g
           then set_sentencesWithFixCount
                  (to_uint32 (sentencesWithFixCount g + 1)) g
           else g))).
Proof.
  intros Hc Hm. unfold endOfTermHandler. rewrite Hc.
  apply Z.eqb_eq in Hm. now rewrite Hm.
Qed.

(** C10.  When the terminator [t] of a checksum term arrives and the
    checksum matches, every entry of the candidate run (the entries from
    the cached candidate on that carry its name) is committed, whatever
    its term number: it becomes valid and updated and its committed text
    is the text its staging buffer holds at that moment. *)
Theorem passed_checksum_commits_run
    (g : TinyGPSPlus) (t : ascii) (k : nat) :
  wellFormed g ->
  isTermTerminator t = true ->
  isChecksumTerm g = true ->
  termChecksum (term (atEndOfTerm t g)) = parity (atEndOfTerm t g) ->
  customCandidates g = Some k ->
  let g' := snd (encode millis t g) in
  fst (encode millis t g) = true
  /\ length (customElts g') = length (customElts g)
  /\ forall i e,
       nth_error (candidateRun k (customElts g)) i = Some e ->
       nth_error (customElts g) (k + i) = Some e
       /\ exists e',
            nth_error (customElts g') (k + i) = Some e'
            /\ TinyGPSCustom.isValid e' = true
            /\ TinyGPSCustom.isUpdated e' = true
            /\ fst (TinyGPSCustom.value e') = cstr (TinyGPSCustom.stagingBuffer e)
            /\ TinyGPSCustom.stagingBuffer e' = TinyGPSCustom.stagingBuffer e
            /\ entryKey e' = entryKey e.
Proof.
  intros [_ Hoff] Ht Hc Hm Hk g'. subst g'.
  rewrite encode_terminator by (assumption || lia). cbn [fst snd].
  destruct (atEndOfTerm_frame t g)
    as (_ & _ & _ & Hc1 & _ & _ & _ & _ & He1 & Hk1 & _).
  rewrite endOfTermHandler_match by congruence. cbn [fst snd].
  set (g1 := atEndOfTerm t g) in *.
  set (g2 := commitNative millis _).
  assert (H2 : customElts g2 = customElts g /\ customCandidates g2 = Some k).
  { subst g2.
    match goal with
    | |- context [commitNative _ ?x] =>
        destruct (commitNative_frame x) as (_ & _ & _ & _ & -> & -> & _)
    end.
    cbv zeta. rewrite <- He1, <- Hk, <- Hk1.
    destruct (sentenceHasFix _); now split. }
  destruct H2 as [He2 Hk2].
  assert (Hnext : forall h, customElts (nextTerm t h) = customElts h)
    by (now intros []).
  rewrite Hnext. split; [reflexivity|]. split.
  - now rewrite commitCustoms_length, He2.
  - intros i e Hrun. split; [now apply candidateRun_nth|].
    rewrite <- He2 in Hrun.
    exists (TinyGPSCustom.commit (millis (clockReads g2 + i)) e).
    split; [now apply commitCustoms_run|].
    repeat split. cbn. apply cstr_strcpy.
Qed.

(** ** Data fields of a recognized sentence *)

Lemma at_terminated_0 w junk : at_ (termText w ++ NUL :: junk) 0 = at_ w 0.
Proof. now destruct w. Qed.

(** The fix flag after the native dispatch of data field [i], for
    [1 <= i <= 31]. *)
Lemma setNative_fix kind i g :
  kind = GPS_SENTENCE_GPRMC \/ kind = GPS_SENTENCE_GPGGA ->
  1 <= i <= 31 ->
  curSentenceType g = kind -> curTermNumber g = i ->
  sentenceHasFix (setNative g) = fixAfter kind i (term g) (sentenceHasFix g).
Proof.
  intros Hkind Hi Hk Hn. unfold setNative, fixAfter. rewrite Hk, Hn.
  destruct (at_ (term g) 0 =c NUL).
  { now rewrite andb_false_r. }
  assert (Hcases : i = 1 \/ i = 2 \/ i = 3 \/ i = 4 \/ i = 5 \/ i = 6 \/ i = 7
            \/ i = 8 \/ i = 9 \/ 10 <= i <= 31) by lia.
  assert (Hrest : 10 <= i <= 31 ->
            i = 10 \/ i = 11 \/ i = 12 \/ i = 13 \/ i = 14 \/ i = 15 \/ i = 16
            \/ i = 17 \/ i = 18 \/ i = 19 \/ i = 20 \/ i = 21 \/ i = 22
            \/ i = 23 \/ i = 24 \/ i = 25 \/ i = 26 \/ i = 27 \/ i = 28
            \/ i = 29 \/ i = 30 \/ i = 31) by lia.
  destruct Hkind; subst kind;
    repeat (destruct Hcases as [->|Hcases]; [reflexivity|]);
    specialize (Hrest Hcases);
    repeat (destruct Hrest as [->|Hrest]; [reflexivity|]);
    rewrite Hrest; reflexivity.
Qed.

Lemma fixAfter_terminated kind i w junk fx :
  fixAfter kind i (termText w ++ NUL :: junk) fx = fixAfter kind i w fx.
Proof. unfold fixAfter. now rewrite at_terminated_0. Qed.

Lemma endOfTermHandler_data g :
  isChecksumTerm g = false -> curTermNumber g <> 0 ->
  endOfTermHandler millis g = (false, setCustoms (setNative g)).
Proof.
  intros Hc Hn. unfold endOfTermHandler. rewrite Hc.
  apply Z.eqb_neq in Hn. now rewrite Hn.
Qed.

Lemma xorInto_app p a b : xorInto p (a ++ b) = xorInto (xorInto p a) b.
Proof. apply fold_left_app. Qed.

(** One data field [f] and the character [d] that ends it. *)
Lemma field_step kind i p fx g0 g f d :
  kind = GPS_SENTENCE_GPRMC \/ kind = GPS_SENTENCE_GPGGA ->
  1 <= i <= 31 ->
  atField kind i p fx g0 g ->
  forallb ordinary f = true ->
  d = ","%char \/ d = "*"%char ->
  let g' := feed millis g (f ++ [d]) in
  wellFormed g'
  /\ curTermOffset g' = 0
  /\ isChecksumTerm g' = (d =c "*"%char)
  /\ curSentenceType g' = kind
  /\ curTermNumber g' = i + 1
  /\ parity g' = xorInto p (f ++ if d =c ","%char then [","%char] else [])
  /\ sentenceHasFix g' = fixAfter kind i f fx
  /\ observable g' = observable g0
  /\ statistics g' = statistics g0.
Proof.
  intros Hkind Hi (Hwf & Hoff & Hc & Hk & Hn & Hp & Hf & Ho & Hs) Hord Hd g'.
  assert (Ht : isTermTerminator d = true) by (destruct Hd; now subst d).
  subst g'. rewrite feed_app. cbn [feed].
  pose proof (term_atEndOfTerm g f d Hwf Hoff Hord) as Hterm.
  pose proof (feed_wellFormed f g Hwf) as Hwf1.
  pose proof (feed_ordinary f g Hord) as Hg1.
  destruct (afterOrdinary_frame f g)
    as (Ho1 & Hs1 & _ & Hc1 & Hk1 & Hn1 & Hf1 & _ & _ & _ & _ & _ & Hp1).
  rewrite <- Hg1 in Ho1, Hs1, Hc1, Hk1, Hn1, Hf1, Hp1.
  set (g1 := feed millis g f) in *.
  rewrite Hc in Hc1, Hp1.
  pose proof (encode_wellFormed d g1 Hwf1) as Hwf2.
  destruct (encode_quiet d g1 (or_introl Hc1)) as (_ & Ho2 & Hs2 & _).
  pose proof (encode_isChecksumTerm d g1) as Hc2. rewrite Ht in Hc2.
  pose proof (encode_parity d g1) as Hp2. rewrite Ht in Hp2.
  destruct Hwf1 as [Hlen1 Hoff1].
  destruct (encode_terminator_parsing d g1 Ht ltac:(lia)) as (_ & Hn2 & Hoff2).
  destruct (atEndOfTerm_frame d g1)
    as (_ & _ & _ & Hc3 & Hk3 & Hn3 & _ & Hf3 & _).
  assert (Hfix : sentenceHasFix (snd (encode millis d g1)) = fixAfter kind i f fx
                 /\ curSentenceType (snd (encode millis d g1)) = kind).
  { rewrite encode_terminator by (assumption || lia).
    rewrite endOfTermHandler_data by (rewrite ?Hn3; congruence || lia).
    cbn [snd].
    destruct (setCustoms_frame (setNative (atEndOfTerm d g1)))
      as (_ & Hk4 & Hf4 & _).
    destruct (setNative_frame (atEndOfTerm d g1)) as (_ & Hk5 & _).
    assert (Hnext : forall h, sentenceHasFix (nextTerm d h) = sentenceHasFix h
                              /\ curSentenceType (nextTerm d h) = curSentenceType h)
      by (now intros []).
    destruct (Hnext (setCustoms (setNative (atEndOfTerm d g1)))) as [-> ->].
    rewrite Hf4, Hk4, Hk5.
    rewrite (setNative_fix kind i) by (assumption || congruence).
    rewrite Hterm, fixAfter_terminated. split; congruence. }
  destruct Hfix as [Hfix Hkind2].
  repeat split; try assumption; try congruence; try apply Hwf2.
  - rewrite Hn2, Hn1, Hn. unfold to_uint8. apply Z.mod_small. lia.
  - rewrite Hp2, Hp1, Hp, xorInto_app.
    destruct Hd; subst d; reflexivity.
Qed.

(** The data fields of a sentence, up to the ['*'] that ends the last
    one. *)
Lemma fields_to_star kind fs : forall i p fx g0 g,
  kind = GPS_SENTENCE_GPRMC \/ kind = GPS_SENTENCE_GPGGA ->
  1 <= i -> i + Z.of_nat (length fs) <= 32 -> fs <> [] ->
  atField kind i p fx g0 g ->
  forallb (forallb ordinary) fs = true ->
  atChecksum kind (xorInto p (joined fs)) (fixAfterFields kind i fs fx) g0
    (feed millis g (joined fs ++ ["*"%char])).
Proof.
  induction fs as [|f fs IH]; intros i p fx g0 g Hkind Hi Hlen Hne Hat Hord;
    [contradiction|].
  cbn [forallb] in Hord. apply andb_true_iff in Hord as [Hf Hord].
  cbn [length] in Hlen. rewrite Nat2Z.inj_succ in Hlen.
  destruct fs as [|f2 fs].
  - cbn [joined fixAfterFields].
    destruct (field_step kind i p fx g0 g f "*"%char Hkind ltac:(lia) Hat Hf
                (or_intror eq_refl))
      as (H1 & H2 & H3 & H4 & _ & H6 & H7 & H8 & H9).
    change ("*"%char =c ","%char) with false in H6. cbv iota in H6.
    rewrite app_nil_r in H6. unfold atChecksum.
    repeat (split; [assumption|]). assumption.
  - change (joined (f :: f2 :: fs)) with (f ++ ","%char :: joined (f2 :: fs)).
    rewrite <- app_assoc. cbn [app].
    change (f ++ ","%char :: joined (f2 :: fs) ++ ["*"%char])
      with (f ++ [","%char] ++ (joined (f2 :: fs) ++ ["*"%char])).
    rewrite app_assoc, feed_app.
    pose proof (field_step kind i p fx g0 g f ","%char Hkind ltac:(cbn [length] in Hlen; lia)
                  Hat Hf (or_introl eq_refl)) as Hstep.
    cbv zeta in Hstep.
    change (","%char =c "*"%char) with false in Hstep.
    change (","%char =c ","%char) with true in Hstep. cbv iota in Hstep.
    cbn [fixAfterFields]. rewrite xorInto_app.
    change (","%char :: joined (f2 :: fs)) with ([","%char] ++ joined (f2 :: fs)).
    rewrite xorInto_app, <- (xorInto_app p f [","%char]).
    apply IH; try assumption; try lia; discriminate.
Qed.

Lemma fixAfter_other kind i f fx :
  (kind = GPS_SENTENCE_GPRMC -> i <> 2) ->
  (kind = GPS_SENTENCE_GPGGA -> i <> 6) ->
  fixAfter kind i f fx = fx.
Proof.
  intros Hr Hg. unfold fixAfter.
  destruct (at_ f 0 =c NUL); [reflexivity|].
  destruct (Z.eqb_spec kind GPS_SENTENCE_GPRMC) as [E|_].
  - pose proof (Hr E) as H2. apply Z.eqb_neq in H2. rewrite H2. cbn [andb].
    subst kind. reflexivity.
  - cbn [andb]. destruct (Z.eqb_spec kind GPS_SENTENCE_GPGGA) as [E|_];
      [|reflexivity].
    pose proof (Hg E) as H6. apply Z.eqb_neq in H6. now rewrite H6.
Qed.

Lemma fixAfterFields_past kind fs : forall i fx,
  6 < i -> fixAfterFields kind i fs fx = fx.
Proof.
  induction fs as [|f fs IH]; intros i fx Hi; cbn [fixAfterFields];
    [reflexivity|].
  rewrite IH by lia. apply fixAfter_other; lia.
Qed.

Lemma fixAfterFields_indicated kind fields :
  kind = GPS_SENTENCE_GPRMC \/ kind = GPS_SENTENCE_GPGGA ->
  fixAfterFields kind 1 fields false = fixIndicated kind fields.
Proof.
  assert (Hnul : forall c, (if c =c NUL then false else c =c "A"%char)
                           = (c =c "A"%char)).
  { intros c. now destruct (Ascii.eqb_spec c NUL) as [->|]. }
  assert (Hnul' : forall c, (if c =c NUL then false
                             else code "0"%char <? code c)
                            = (code "0"%char <? code c)).
  { intros c. now destruct (Ascii.eqb_spec c NUL) as [->|]. }
  intros [-> | ->]; unfold fixIndicated.
  - change (GPS_SENTENCE_GPRMC =? GPS_SENTENCE_GPRMC) with true. cbv iota.
    destruct fields as [|f1 [|f2 fs]]; cbn [fixAfterFields nth].
    + reflexivity.
    + now rewrite fixAfter_other by (intros; (lia || discriminate)).
    + change (1 + 1 + 1) with 3.
      assert (Hrest : forall fs i fx, 2 < i ->
                fixAfterFields GPS_SENTENCE_GPRMC i fs fx = fx).
      { clear. induction fs as [|f fs IH]; intros i fx Hi;
          cbn [fixAfterFields]; [reflexivity|].
        rewrite IH by lia. apply fixAfter_other; (lia || discriminate). }
      rewrite Hrest by lia.
      rewrite (fixAfter_other _ 1) by (intros; (lia || discriminate)).
      unfold fixAfter. cbn [Z.eqb andb Z.add]. apply Hnul.
  - change (GPS_SENTENCE_GPGGA =? GPS_SENTENCE_GPRMC) with false. cbv iota.
    destruct fields as [|f1 [|f2 [|f3 [|f4 [|f5 [|f6 fs]]]]]];
      cbn [fixAfterFields nth Z.add Pos.add Pos.succ];
      rewrite ?fixAfterFields_past by lia;
      rewrite ?(fixAfter_other GPS_SENTENCE_GPGGA 1),
        ?(fixAfter_other GPS_SENTENCE_GPGGA 2),
        ?(fixAfter_other GPS_SENTENCE_GPGGA 3),
        ?(fixAfter_other GPS_SENTENCE_GPGGA 4),
        ?(fixAfter_other GPS_SENTENCE_GPGGA 5)
        by (intros; (lia || discriminate));
      try reflexivity.
    unfold fixAfter. cbn [Z.eqb andb Pos.eqb]. apply Hnul'.
Qed.

(** ** A recognized sentence up to its checksum term *)

Lemma classify_name kind name junk :
  namesKind kind name -> classify (termText name ++ NUL :: junk) = kind.
Proof.
  unfold classify. rewrite !strcmp_terminated_l.
  intros [[-> [-> | ->]] | [-> [-> | ->]]]; reflexivity.
Qed.

Lemma names_ordinary kind name :
  namesKind kind name -> forallb ordinary name = true.
Proof. intros [[_ [-> | ->]] | [_ [-> | ->]]]; reflexivity. Qed.

Lemma namesKind_kind kind name :
  namesKind kind name ->
  kind = GPS_SENTENCE_GPRMC \/ kind = GPS_SENTENCE_GPGGA.
Proof. intros [[-> _] | [-> _]]; auto. Qed.

(** The name of a recognized sentence and the character that ends it. *)
Lemma name_step kind name d g0 :
  wellFormed g0 -> namesKind kind name ->
  d = ","%char \/ d = "*"%char ->
  let g' := feed millis g0 ("$"%char :: name ++ [d]) in
  wellFormed g'
  /\ curTermOffset g' = 0
  /\ isChecksumTerm g' = (d =c "*"%char)
  /\ curSentenceType g' = kind
  /\ curTermNumber g' = 1
  /\ parity g' = xorInto 0 (name ++ if d =c ","%char then [","%char] else [])
  /\ sentenceHasFix g' = false
  /\ observable g' = observable g0
  /\ statistics g' = statistics g0.
Proof.
  intros Hwf Hname Hd g'.
  assert (Ht : isTermTerminator d = true) by (destruct Hd; now subst d).
  pose proof (names_ordinary _ _ Hname) as Hord.
  pose proof (feed_wellFormed ("$"%char :: name ++ [d]) g0 Hwf) as Hwf'.
  fold g' in Hwf'.
  destruct (feed_sentence_name g0 name d Hwf Hord Ht)
    as (Henc & Ho & Hs & Hf & _ & _ & Hp).
  assert (Hg : g' = snd (encode millis d (feed millis g0 ("$"%char :: name)))).
  { subst g'. change ("$"%char :: name ++ [d]) with (("$"%char :: name) ++ [d]).
    now rewrite feed_app. }
  rewrite Henc in Hg. cbn [snd] in Hg.
  rewrite (classify_name kind name _ Hname) in Hg.
  set (G := atEndOfTerm d (feed millis g0 ("$"%char :: name))) in *.
  assert (Hn : curTermNumber G = 0).
  { subst G. cbn [feed]. rewrite encode_dollar. cbn [snd].
    rewrite feed_ordinary by assumption.
    destruct (atEndOfTerm_frame d (afterOrdinary name (afterDollar g0)))
      as (_ & _ & _ & _ & _ & -> & _).
    now destruct (afterOrdinary_frame name (afterDollar g0))
      as (_ & _ & _ & _ & _ & -> & _). }
  clear Henc. clearbody G g'. subst g'.
  split; [exact Hwf'|]. clear Hwf'.
  destruct G. cbn in *. subst.
  repeat split; try assumption.
  rewrite xorInto_app. destruct Hd; subst d; reflexivity.
Qed.

Lemma joined_concat r : forall f,
  joined (f :: r) = f ++ concat (map (cons ","%char) r).
Proof.
  induction r as [|f2 r IH]; intros f.
  - cbn. now rewrite app_nil_r.
  - change (joined (f :: f2 :: r)) with (f ++ ","%char :: joined (f2 :: r)).
    now rewrite IH.
Qed.

Lemma sentence_to_checksum g0 kind name fields :
  wellFormed g0 -> namesKind kind name ->
  forallb (forallb ordinary) fields = true ->
  (length fields <= 31)%nat ->
  atChecksum kind (xorAll (sentenceBody name fields))
    (fixIndicated kind fields) g0
    (feed millis g0 ("$"%char :: sentenceBody name fields ++ ["*"%char])).
Proof.
  intros Hwf Hname Hord Hlen.
  pose proof (namesKind_kind _ _ Hname) as Hkind.
  unfold sentenceBody. destruct fields as [|f r].
  - cbn [map concat]. rewrite app_nil_r.
    destruct (name_step kind name "*"%char g0 Hwf Hname (or_intror eq_refl))
      as (H1 & H2 & H3 & H4 & _ & H6 & H7 & H8 & H9).
    change ("*"%char =c ","%char) with false in H6. cbv iota in H6.
    rewrite app_nil_r in H6.
    assert (Hfix : fixIndicated kind [] = false)
      by (destruct Hkind; subst kind; reflexivity).
    rewrite Hfix. unfold atChecksum, xorAll.
    repeat (split; [assumption|]). assumption.
  - cbn [map concat app]. rewrite <- (joined_concat r f).
    set (J := joined (f :: r)).
    assert (Hin : "$"%char :: (name ++ ","%char :: J) ++ ["*"%char]
                  = ("$"%char :: name ++ [","%char]) ++ (J ++ ["*"%char])).
    { cbn [app]. f_equal. now rewrite <- !app_assoc. }
    assert (Hx : xorAll (name ++ ","%char :: J)
                 = xorInto (xorInto 0 (name ++ [","%char])) J).
    { rewrite <- xorInto_app, <- app_assoc. reflexivity. }
    rewrite Hin, Hx, feed_app.
    pose proof (name_step kind name ","%char g0 Hwf Hname (or_introl eq_refl))
      as Hstep.
    cbv zeta in Hstep.
    change (","%char =c "*"%char) with false in Hstep.
    change (","%char =c ","%char) with true in Hstep. cbv iota in Hstep.
    pose proof (fields_to_star kind (f :: r) 1 _ false g0 _ Hkind ltac:(lia)
                  ltac:(lia) ltac:(discriminate) Hstep Hord) as Hstar.
    rewrite fixAfterFields_indicated in Hstar by assumption.
    exact Hstar.
Qed.

(** ** Commit of the native containers *)

Lemma observable_native g g' :
  observable g' = observable g ->
  TinyGPSLocation.published (location g') = TinyGPSLocation.published (location g)
  /\ TinyGPSDate.published (date g') = TinyGPSDate.published (date g)
  /\ TinyGPSTime.published (time g') = TinyGPSTime.published (time g)
  /\ TinyGPSDecimal.published (speed g') = TinyGPSDecimal.published (speed g)
  /\ TinyGPSDecimal.published (course g') = TinyGPSDecimal.published (course g)
  /\ TinyGPSDecimal.published (altitude g')
     = TinyGPSDecimal.published (altitude g)
  /\ TinyGPSInteger.published (satellites g')
     = TinyGPSInteger.published (satellites g)
  /\ TinyGPSDecimal.published (hdop g') = TinyGPSDecimal.published (hdop g).
Proof.
  unfold observable, TinyGPSLocation.published, TinyGPSDate.published,
    TinyGPSTime.published, TinyGPSDecimal.published, TinyGPSInteger.published.
  intros H. injection H. intros. repeat split; congruence.
Qed.

(** Which containers the [switch (curSentenceType)] commits. *)
Lemma commitNative_GPRMC g :
  curSentenceType g = GPS_SENTENCE_GPRMC ->
  let g' := commitNative millis g in
  TinyGPSTime.updated (time g') = true
  /\ TinyGPSDate.updated (date g') = true
  /\ (sentenceHasFix g = true ->
      TinyGPSLocation.updated (location g') = true
      /\ TinyGPSDecimal.updated (speed g') = true
      /\ TinyGPSDecimal.updated (course g') = true)
  /\ (sentenceHasFix g = false ->
      location g' = location g /\ speed g' = speed g /\ course g' = course g)
  /\ altitude g' = altitude g
  /\ satellites g' = satellites g
  /\ hdop g' = hdop g.
Proof.
  intros Hk. unfold commitNative. rewrite Hk.
  change (GPS_SENTENCE_GPRMC =? GPS_SENTENCE_GPRMC) with true. cbv iota zeta.
  destruct g. cbn.
  destruct sentenceHasFix0; repeat split; (reflexivity || discriminate).
Qed.

Lemma commitNative_GPGGA g :
  curSentenceType g = GPS_SENTENCE_GPGGA ->
  let g' := commitNative millis g in
  TinyGPSTime.updated (time g') = true
  /\ TinyGPSInteger.updated (satellites g') = true
  /\ TinyGPSDecimal.updated (hdop g') = true
  /\ (sentenceHasFix g = true ->
      TinyGPSLocation.updated (location g') = true
      /\ TinyGPSDecimal.updated (altitude g') = true)
  /\ (sentenceHasFix g = false ->
      location g' = location g /\ altitude g' = altitude g)
  /\ date g' = date g
  /\ speed g' = speed g
  /\ course g' = course g.
Proof.
  intros Hk. unfold commitNative. rewrite Hk.
  change (GPS_SENTENCE_GPGGA =? GPS_SENTENCE_GPRMC) with false.
  change (GPS_SENTENCE_GPGGA =? GPS_SENTENCE_GPGGA) with true. cbv iota zeta.
  destruct g. cbn.
  destruct sentenceHasFix0; repeat split; (reflexivity || discriminate).
Qed.

Lemma countPassed_frame g :
  natives (countPassed g) = natives g
  /\ curSentenceType (countPassed g) = curSentenceType g
  /\ sentenceHasFix (countPassed g) = sentenceHasFix g.
Proof.
  unfold countPassed. destruct g. cbn. now destruct sentenceHasFix0.
Qed.

(** The checksum term [h1 h2] of a sentence and the line end [t] after
    it, when the two digits write the accumulator. *)
Lemma checksum_step kind p fx g0 g h1 h2 t :
  atChecksum kind p fx g0 g ->
  ordinary h1 = true -> ordinary h2 = true -> lineEnd t = true ->
  hexByte h1 h2 = p ->
  let g1 := feed millis g [h1; h2] in
  exists G,
    encode millis t g1
    = (true, nextTerm t (commitCustoms millis (commitNative millis (countPassed G))))
    /\ curSentenceType G = kind
    /\ sentenceHasFix G = fx
    /\ observable G = observable g0.
Proof.
  intros (Hwf & Hoff & Hc & Hk & Hp & Hf & Ho & Hs) H1 H2 Ht Hhex g1.
  assert (Hord : forallb ordinary [h1; h2] = true) by (cbn; now rewrite H1, H2).
  assert (Hterm : isTermTerminator t = true /\ (t =c ","%char) = false).
  { unfold lineEnd in Ht. apply orb_true_iff in Ht as [Ht|Ht];
      apply Ascii.eqb_eq in Ht; subst t; now split. }
  destruct Hterm as [Hterm Hcomma].
  pose proof (term_atEndOfTerm g [h1; h2] t Hwf Hoff Hord) as Htext.
  fold g1 in Htext.
  pose proof (feed_wellFormed [h1; h2] g Hwf) as [_ Hoff1]. fold g1 in Hoff1.
  pose proof (feed_ordinary [h1; h2] g Hord) as Hg1. fold g1 in Hg1.
  destruct (afterOrdinary_frame [h1; h2] g)
    as (Ho1 & _ & _ & Hc1 & Hk1 & _ & Hf1 & _ & _ & _ & _ & _ & Hp1).
  rewrite <- Hg1 in Ho1, Hc1, Hk1, Hf1, Hp1. rewrite Hc in Hp1.
  destruct (atEndOfTerm_frame t g1)
    as (Ho2 & _ & _ & Hc2 & Hk2 & _ & _ & Hf2 & _ & _ & _ & _ & _ & Hp2).
  rewrite Hcomma in Hp2.
  exists (atEndOfTerm t g1).
  rewrite encode_terminator by (assumption || lia).
  rewrite endOfTermHandler_match.
  - cbn [fst snd]. repeat split; congruence.
  - congruence.
  - rewrite Htext, Hp2, Hp1, Hp, <- Hhex. reflexivity.
Qed.

(** C3 (as amended).  A sentence ['$' name ',' f1 ',' ... ',' fn '*' h1 h2 t]
    of a recognized kind, with at most 31 data fields made of ordinary
    characters, whose two checksum digits write the exclusive-or of the
    body and which a line end [t] terminates, makes [encode] answer true
    on [t].  Afterwards time is updated, and so are date (position/velocity
    kind) or satellite count and HDOP (fix-data kind).  Location with speed
    and course (position/velocity kind) or with altitude (fix-data kind) are
    updated when the sentence indicates a fix; when it does not, they
    expose what they exposed before the sentence. *)
Theorem valid_sentence_updates
    (g0 : TinyGPSPlus) (kind : Z) (name : list ascii)
    (fields : list (list ascii)) (h1 h2 t : ascii) :
  wellFormed g0 ->
  namesKind kind name ->
  forallb (forallb ordinary) fields = true ->
  (length fields <= 31)%nat ->
  ordinary h1 = true -> ordinary h2 = true ->
  lineEnd t = true ->
  hexByte h1 h2 = xorAll (sentenceBody name fields) ->
  let g1 :=
    feed millis g0 ("$"%char :: sentenceBody name fields ++ "*"%char :: [h1; h2]) in
  let g2 := snd (encode millis t g1) in
  fst (encode millis t g1) = true
  /\ TinyGPSTime.isUpdated (time g2) = true
  /\ (kind = GPS_SENTENCE_GPRMC -> TinyGPSDate.isUpdated (date g2) = true)
  /\ (kind = GPS_SENTENCE_GPGGA ->
      TinyGPSInteger.isUpdated (satellites g2) = true
      /\ TinyGPSDecimal.isUpdated (hdop g2) = true)
  /\ (fixIndicated kind fields = true ->
      TinyGPSLocation.isUpdated (location g2) = true
      /\ (kind = GPS_SENTENCE_GPRMC ->
          TinyGPSDecimal.isUpdated (speed g2) = true
          /\ TinyGPSDecimal.isUpdated (course g2) = true)
      /\ (kind = GPS_SENTENCE_GPGGA ->
          TinyGPSDecimal.isUpdated (altitude g2) = true))
  /\ (fixIndicated kind fields = false ->
      TinyGPSLocation.published (location g2)
      = TinyGPSLocation.published (location g0)
      /\ (kind = GPS_SENTENCE_GPRMC ->
          TinyGPSDecimal.published (speed g2)
          = TinyGPSDecimal.published (speed g0)
          /\ TinyGPSDecimal.published (course g2)
             = TinyGPSDecimal.published (course g0))
      /\ (kind = GPS_SENTENCE_GPGGA ->
          TinyGPSDecimal.published (altitude g2)
          = TinyGPSDecimal.published (altitude g0))).
Proof.
  intros Hwf Hname Hord Hlen H1 H2 Ht Hhex g1 g2.
  pose proof (sentence_to_checksum g0 kind name fields Hwf Hname Hord Hlen)
    as Hat.
  assert (Hg1 : g1 = feed millis
                  (feed millis g0
                     ("$"%char :: sentenceBody name fields ++ ["*"%char]))
                  [h1; h2]).
  { subst g1. rewrite <- feed_app. f_equal. cbn [app]. f_equal.
    now rewrite <- app_assoc. }
  destruct (checksum_step kind _ _ g0 _ h1 h2 t Hat H1 H2 Ht Hhex)
    as (G & Henc & Hk & Hf & Ho).
  rewrite <- Hg1 in Henc. subst g2. rewrite Henc. cbn [fst snd].
  clear Henc Hg1 Hat. clearbody g1.
  destruct (countPassed_frame G) as (Hn1 & Hk1 & Hf1).
  set (Y := countPassed G) in *.
  set (g2 := nextTerm t (commitCustoms millis (commitNative millis Y))).
  assert (Hnat : natives g2 = natives (commitNative millis Y)).
  { subst g2. destruct (commitCustoms_frame (commitNative millis Y))
      as (_ & _ & _ & _ & <- & _).
    now destruct (commitCustoms millis (commitNative millis Y)). }
  clearbody g2. unfold natives in Hnat, Hn1.
  injection Hnat as -> -> -> -> -> -> -> ->.
  injection Hn1 as Hloc Hdate Htime Hspeed Hcourse Halt Hsat Hhdop.
  destruct (observable_native _ _ Ho)
    as (Ploc & _ & _ & Pspeed & Pcourse & Palt & _).
  rewrite Hk in Hk1. rewrite Hf in Hf1.
  unfold TinyGPSTime.isUpdated, TinyGPSDate.isUpdated, TinyGPSLocation.isUpdated,
    TinyGPSDecimal.isUpdated, TinyGPSInteger.isUpdated.
  destruct (namesKind_kind _ _ Hname) as [Hkind|Hkind]; rewrite Hkind in Hk1.
  - destruct (commitNative_GPRMC Y Hk1)
      as (Ut & Ud & Ufix & Unofix & Ualt & _).
    split; [reflexivity|]. split; [exact Ut|]. split; [now intros _|].
    split; [intros E; rewrite Hkind in E; discriminate|].
    split.
    + intros Hfix. rewrite Hfix in Hf1. destruct (Ufix Hf1) as (U1 & U2 & U3).
      split; [exact U1|]. split; [now intros _|].
      intros E; rewrite Hkind in E; discriminate.
    + intros Hfix. rewrite Hfix in Hf1. destruct (Unofix Hf1) as (-> & -> & ->).
      rewrite Hloc, Hspeed, Hcourse.
      split; [exact Ploc|]. split; [now intros _|].
      intros E; rewrite Hkind in E; discriminate.
  - destruct (commitNative_GPGGA Y Hk1)
      as (Ut & Us & Uh & Ufix & Unofix & _).
    split; [reflexivity|]. split; [exact Ut|].
    split; [intros E; rewrite Hkind in E; discriminate|].
    split; [now intros _|].
    split.
    + intros Hfix. rewrite Hfix in Hf1. destruct (Ufix Hf1) as (U1 & U2).
      split; [exact U1|]. split; [|now intros _].
      intros E; rewrite Hkind in E; discriminate.
    + intros Hfix. rewrite Hfix in Hf1. destruct (Unofix Hf1) as (-> & ->).
      rewrite Hloc, Halt.
      split; [exact Ploc|]. split; [|now intros _].
      intros E; rewrite Hkind in E; discriminate.
Qed.

(** ** Date and time accessors *)

Lemma parseDecimal_digits ds rest :
  forallb isdigit ds = true ->
  isdigit (at_ rest 0) = false ->
  (ds = [] -> signOrSpace (at_ rest 0) = false) ->
  100 * decimalValue ds + fractionHundredths rest <= 2 ^ 31 - 1 ->
  parseDecimal (ds ++ rest) = 100 * decimalValue ds + fractionHundredths rest.
Proof.
  intros Hd Hr Hs Hfit.
  pose proof (parseDecimal_unsigned_part ds rest Hd Hr Hs Hfit) as Hbody.
  cbv zeta in Hbody. unfold parseDecimal.
  assert (Hm : (at_ (ds ++ rest) 0 =c "-"%char) = false).
  { pose proof (signOrSpace_head ds rest Hd Hs) as H.
    unfold signOrSpace in H.
    apply orb_false_iff in H as [H _].
    now apply orb_false_iff in H as [_ H]. }
  rewrite Hm. cbv iota. exact Hbody.
Qed.

(** X1.  A time field [hhmmss] or [hhmmss.cc] that is staged and committed
    is read back by [hour()], [minute()], [second()] and [centisecond()]:
    the digits before the point are split two by two from the right, and
    the hundredths are the first two digits after the point. *)
Theorem time_accessors_decode
    (ds rest : list ascii) (hh mm ss now : Z) (d : TinyGPSTime.t) :
  forallb isdigit ds = true ->
  isdigit (at_ rest 0) = false ->
  (ds = [] -> signOrSpace (at_ rest 0) = false) ->
  decimalValue ds = (hh * 100 + mm) * 100 + ss ->
  0 <= hh < 256 -> 0 <= mm < 100 -> 0 <= ss < 100 ->
  let d' := TinyGPSTime.commit now (TinyGPSTime.setTime (ds ++ rest) d) in
  fst (TinyGPSTime.hour d') = hh
  /\ fst (TinyGPSTime.minute d') = mm
  /\ fst (TinyGPSTime.second d') = ss
  /\ fst (TinyGPSTime.centisecond d') = fractionHundredths rest.
Proof.
  intros Hd Hr Hs Hv Hh Hm Hsec d'.
  pose proof (fractionHundredths_range rest) as Hfr.
  assert (Ht : TinyGPSTime.time d'
               = ((hh * 100 + mm) * 100 + ss) * 100 + fractionHundredths rest).
  { subst d'. cbn [TinyGPSTime.commit TinyGPSTime.setTime TinyGPSTime.time
                   TinyGPSTime.newTime].
    rewrite parseDecimal_digits by (assumption || lia).
    rewrite to_uint32_small by lia. lia. }
  clearbody d'.
  unfold TinyGPSTime.hour, TinyGPSTime.minute, TinyGPSTime.second,
    TinyGPSTime.centisecond, to_uint8. cbn [fst]. rewrite Ht.
  set (cc := fractionHundredths rest) in *.
  repeat split; Z.div_mod_to_equations; lia.
Qed.

(** X2.  A date field [ddmmyy] that is staged and committed is read back
    by [day()], [month()] and [year()]; the year is the two-digit year plus
    2000. *)
Theorem date_accessors_decode
    (ds rest : list ascii) (dd mm yy now : Z) (d : TinyGPSDate.t) :
  forallb isdigit ds = true ->
  isdigit (at_ rest 0) = false ->
  (ds = [] -> signOrSpace (at_ rest 0) = false) ->
  decimalValue ds = (dd * 100 + mm) * 100 + yy ->
  0 <= dd < 256 -> 0 <= mm < 100 -> 0 <= yy < 100 ->
  let d' := TinyGPSDate.commit now (TinyGPSDate.setDate (ds ++ rest) d) in
  fst (TinyGPSDate.day d') = dd
  /\ fst (TinyGPSDate.month d') = mm
  /\ fst (TinyGPSDate.year d') = 2000 + yy.
Proof.
  intros Hd Hr Hs Hv Hday Hm Hy d'.
  assert (Ht : TinyGPSDate.date d' = (dd * 100 + mm) * 100 + yy).
  { subst d'. cbn [TinyGPSDate.commit TinyGPSDate.setDate TinyGPSDate.date
                   TinyGPSDate.newDate].
    rewrite atol_digits_text by assumption.
    rewrite to_uint32_small by lia. exact Hv. }
  clearbody d'.
  unfold TinyGPSDate.day, TinyGPSDate.month, TinyGPSDate.year, to_uint8,
    to_uint16. cbn [fst]. rewrite Ht.
  repeat split; Z.div_mod_to_equations; lia.
Qed.

(** ** Age of a container *)

Lemma elapsed_uint32 t0 e :
  0 <= e < 2 ^ 32 -> to_uint32 (to_uint32 (t0 + e) - to_uint32 t0) = e.
Proof.
  intros He. unfold to_uint32.
  rewrite Zminus_mod_idemp_l, Zminus_mod_idemp_r.
  replace (t0 + e - t0) with e by lia. now apply Z.mod_small.
Qed.

(** X3.  [age()] of a container that was committed when the clock read
    [t0] is the time elapsed since, also when the 32-bit clock has wrapped
    around in between, as long as less than 2^32 ms have elapsed. *)
Theorem age_after_commit (t0 e : Z) :
  0 <= e < 2 ^ 32 ->
  let t := to_uint32 t0 in
  let now := to_uint32 (t0 + e) in
  (forall l, TinyGPSLocation.age now (TinyGPSLocation.commit t l) = e)
  /\ (forall d, TinyGPSDate.age now (TinyGPSDate.commit t d) = e)
  /\ (forall d, TinyGPSTime.age now (TinyGPSTime.commit t d) = e)
  /\ (forall d, TinyGPSDecimal.age now (TinyGPSDecimal.commit t d) = e)
  /\ (forall d, TinyGPSInteger.age now (TinyGPSInteger.commit t d) = e)
  /\ (forall p, TinyGPSCustom.age now (TinyGPSCustom.commit t p) = e).
Proof.
  intros He t now_. repeat split; intros x;
    unfold TinyGPSLocation.age, TinyGPSDate.age, TinyGPSTime.age,
      TinyGPSDecimal.age, TinyGPSInteger.age, TinyGPSCustom.age;
    cbn; now apply elapsed_uint32.
Qed.

(** ** The decoders read a term up to its NUL *)

Lemma at_terminated w junk : forall i,
  (i <= length w)%nat -> at_ (w ++ NUL :: junk) i = at_ w i.
Proof.
  unfold at_. induction w as [|c w IH]; intros [|i] Hi; cbn in *;
    try reflexivity; try lia.
  apply IH. lia.
Qed.

Lemma skip_spaces_terminated w junk :
  skip_spaces (w ++ NUL :: junk) = skip_spaces w ++ NUL :: junk.
Proof.
  induction w as [|c w IH]; [reflexivity|].
  cbn [app skip_spaces]. now destruct (isspace c).
Qed.

Lemma skip_digits_terminated w junk :
  skip_digits (w ++ NUL :: junk) = skip_digits w ++ NUL :: junk.
Proof.
  induction w as [|c w IH]; [reflexivity|].
  cbn [app skip_digits]. now destruct (isdigit c).
Qed.

Lemma atol_digits_terminated w junk : forall acc,
  atol_digits acc (w ++ NUL :: junk) = atol_digits acc w.
Proof.
  induction w as [|c w IH]; intros acc; [reflexivity|].
  cbn [app atol_digits]. now destruct (isdigit c).
Qed.

Lemma atol_terminated w junk : atol (w ++ NUL :: junk) = atol w.
Proof.
  unfold atol. rewrite skip_spaces_terminated.
  destruct (skip_spaces w) as [|c r]; [reflexivity|].
  cbn [app].
  destruct c as [[] [] [] [] [] [] [] []];
    first [ now rewrite atol_digits_terminated
          | exact (atol_digits_terminated (_ :: r) junk 0) ].
Qed.

Lemma parseDegrees_fraction_terminated w junk : forall m acc,
  parseDegrees_fraction m acc (w ++ NUL :: junk) = parseDegrees_fraction m acc w.
Proof.
  induction w as [|c w IH]; intros m acc; [reflexivity|].
  cbn [app parseDegrees_fraction]. now destruct (isdigit c).
Qed.

Lemma parseDecimal_terminated w junk :
  parseDecimal (w ++ NUL :: junk) = parseDecimal w.
Proof.
  unfold parseDecimal.
  rewrite (at_terminated w junk 0) by lia.
  assert (Htl : forall v : list ascii,
            (if at_ w 0 =c "-"%char then tl (w ++ NUL :: junk)
             else w ++ NUL :: junk)
            = (if at_ w 0 =c "-"%char then tl w else w) ++ NUL :: junk).
  { intros _. destruct w as [|c w]; [reflexivity|].
    now destruct (at_ (c :: w) 0 =c "-"%char). }
  rewrite (Htl []). clear Htl.
  set (u := if at_ w 0 =c "-"%char then tl w else w).
  rewrite atol_terminated, skip_digits_terminated.
  destruct (skip_digits u) as [|a [|b r]]; [reflexivity | |].
  - cbn. now destruct (a =c "."%char).
  - rewrite !(at_terminated (a :: b :: r) junk) by (cbn; lia).
    reflexivity.
Qed.

Lemma parseDegrees_terminated w junk :
  parseDegrees (w ++ NUL :: junk) = parseDegrees w.
Proof.
  unfold parseDegrees.
  rewrite atol_terminated, skip_digits_terminated.
  destruct (skip_digits w) as [|a r]; [reflexivity|].
  unfold at_. cbn [app tl nth].
  now rewrite parseDegrees_fraction_terminated.
Qed.

(** X4.  [parseDecimal] reads the term buffer up to its terminating NUL
    only: the bytes that an earlier, longer term left behind it have no
    influence on the result. *)
Theorem parseDecimal_reads_text (w junk : list ascii) :
  parseDecimal (w ++ NUL :: junk) = parseDecimal w.
Proof. apply parseDecimal_terminated. Qed.

(** X5.  [parseDegrees] reads the term buffer up to its terminating NUL
    only. *)
Theorem parseDegrees_reads_text (w junk : list ascii) :
  parseDegrees (w ++ NUL :: junk) = parseDegrees w.
Proof. apply parseDegrees_terminated. Qed.

(** ** The checksum digits *)

Lemma fromHex_hexDigit upper v : 0 <= v < 16 -> fromHex (hexDigit upper v) = v.
Proof.
  intros Hv.
  assert (H : v = 0 \/ v = 1 \/ v = 2 \/ v = 3 \/ v = 4 \/ v = 5 \/ v = 6
              \/ v = 7 \/ v = 8 \/ v = 9 \/ v = 10 \/ v = 11 \/ v = 12
              \/ v = 13 \/ v = 14 \/ v = 15) by lia.
  destruct upper;
    repeat (destruct H as [-> | H]; [reflexivity|]); subst v; reflexivity.
Qed.

(** X6.  The two hexadecimal digits of a byte, in either case, are read
    back as that byte by the checksum comparison. *)
Theorem hexByte_round_trip (b : Z) (u1 u2 : bool) :
  0 <= b < 256 ->
  hexByte (hexDigit u1 (b / 16)) (hexDigit u2 (b mod 16)) = b
  /\ termChecksum [hexDigit u1 (b / 16); hexDigit u2 (b mod 16)] = b.
Proof.
  intros Hb.
  assert (H1 : 0 <= b / 16 < 16) by (Z.div_mod_to_equations; lia).
  assert (H2 : 0 <= b mod 16 < 16) by (Z.div_mod_to_equations; lia).
  unfold termChecksum, hexByte, at_, to_uint8. cbn [nth].
  rewrite !fromHex_hexDigit by assumption.
  split; Z.div_mod_to_equations; lia.
Qed.

(** ** Counters and registers *)

Lemma setNative_count g : encodedCharCount (setNative g) = encodedCharCount g.
Proof.
  unfold setNative. destruct (_ && _); [|reflexivity]. cbv zeta. split_ifs.
Qed.

Lemma setCustoms_count g : encodedCharCount (setCustoms g) = encodedCharCount g.
Proof.
  unfold setCustoms. destruct (customCandidates g); [|reflexivity].
  now destruct (skipn _ _).
Qed.

Lemma commitNative_count g :
  encodedCharCount (commitNative millis g) = encodedCharCount g.
Proof. unfold commitNative. destruct g. cbn. split_ifs. Qed.

Lemma commitCustoms_count g :
  encodedCharCount (commitCustoms millis g) = encodedCharCount g.
Proof.
  unfold commitCustoms. destruct (customCandidates g); [|reflexivity].
  destruct (skipn _ _); [reflexivity|].
  now destruct (commitCandidates millis _ _ _).
Qed.

Lemma endOfTermHandler_count g :
  encodedCharCount (snd (endOfTermHandler millis g)) = encodedCharCount g.
Proof.
  unfold endOfTermHandler. destruct (isChecksumTerm g).
  - destruct (_ =? _); cbn [snd]; [|reflexivity].
    rewrite commitCustoms_count, commitNative_count.
    now destruct (sentenceHasFix _).
  - destruct (_ =? _); cbn [snd]; [reflexivity|].
    now rewrite setCustoms_count, setNative_count.
Qed.

Lemma encode_count c g :
  encodedCharCount (snd (encode millis c g)) = to_uint32 (encodedCharCount g + 1).
Proof.
  unfold encode. destruct (isTermTerminator c).
  - set (g1 := foldSeparator c _).
    assert (H1 : encodedCharCount g1 = to_uint32 (encodedCharCount g + 1)
                 /\ encodedCharCount (terminateTerm g1)
                    = to_uint32 (encodedCharCount g + 1)).
    { subst g1. unfold foldSeparator. destruct g, (c =c ","%char); now split. }
    destruct H1 as [H1 H2].
    destruct (curTermOffset g1 <? Z.of_nat _GPS_MAX_FIELD_SIZE).
    + pose proof (endOfTermHandler_count (terminateTerm g1)) as Hk.
      destruct (endOfTermHandler millis (terminateTerm g1)) as [b g2].
      cbn [snd] in *. rewrite <- H2, <- Hk. now destruct g2.
    + cbn [snd]. rewrite <- H1. now destruct g1.
  - destruct (c =c "$"%char); [reflexivity|].
    destruct g. cbn. now destruct (_ <? _), isChecksumTerm0.
Qed.

Lemma begin_count name tn g :
  encodedCharCount (begin name tn g) = encodedCharCount g.
Proof.
  unfold begin, insertCustom.
  destruct (customCandidates g); [destruct (_ <=? _)%nat|]; reflexivity.
Qed.

Lemma session_count acts : forall g n,
  encodedCharCount g = to_uint32 n ->
  encodedCharCount (fold_left (fun g a => perform millis a g) acts g)
  = to_uint32 (n + charsFed acts).
Proof.
  induction acts as [|a acts IH]; intros g n Hg; cbn [fold_left charsFed].
  - now rewrite Z.add_0_r.
  - destruct a as [name tn|c]; cbn [perform].
    + apply IH. now rewrite begin_count.
    + rewrite (IH _ (n + 1)); [f_equal; lia|].
      rewrite encode_count, Hg. unfold to_uint32.
      now rewrite Zplus_mod_idemp_l.
Qed.

(** X7.  [charsProcessed()] counts every character given to [encode],
    whatever the character and whatever the state of the parser, modulo
    2^32; registrations do not count. *)
Theorem charsProcessed_counts (acts : list action) :
  charsProcessed (session millis acts) = to_uint32 (charsFed acts).
Proof.
  unfold charsProcessed, session.
  now rewrite (session_count acts TinyGPSPlus_init 0).
Qed.

Lemma lxor_byte a b : 0 <= a < 2 ^ 8 -> 0 <= b < 2 ^ 8 -> 0 <= Z.lxor a b < 2 ^ 8.
Proof.
  intros Ha Hb.
  assert (Hnn : 0 <= Z.lxor a b) by (apply Z.lxor_nonneg; lia).
  split; [exact Hnn|].
  destruct (Z.eq_dec (Z.lxor a b) 0) as [->|Hne]; [reflexivity|].
  apply Z.log2_lt_pow2; [lia|].
  pose proof (Z.log2_lxor a b ltac:(lia) ltac:(lia)) as Hl.
  assert (Hlog : forall x, 0 <= x < 2 ^ 8 -> Z.log2 x < 8).
  { intros x Hx. destruct (Z.eq_dec x 0) as [->|Hx0]; [reflexivity|].
    apply Z.log2_lt_pow2; lia. }
  pose proof (Hlog a Ha). pose proof (Hlog b Hb). lia.
Qed.

Lemma classify_range t : 0 <= classify t <= GPS_SENTENCE_OTHER.
Proof. unfold classify. split_ifs; cbv; split; discriminate. Qed.

Lemma endOfTermHandler_type g :
  curSentenceType (snd (endOfTermHandler millis g))
  = if negb (isChecksumTerm g) && (curTermNumber g =? 0)
    then classify (term g) else curSentenceType g.
Proof.
  unfold endOfTermHandler. destruct (isChecksumTerm g); cbn [negb andb].
  - destruct (_ =? _); cbn [snd]; [|reflexivity].
    match goal with
    | |- curSentenceType (commitCustoms _ ?x) = _ =>
        destruct (commitCustoms_frame x) as (_ & -> & _)
    end.
    match goal with
    | |- curSentenceType (commitNative _ ?x) = _ =>
        destruct (commitNative_frame x) as (_ & -> & _)
    end.
    now destruct (sentenceHasFix _).
  - destruct (_ =? _); cbn [snd]; [reflexivity|].
    destruct (setCustoms_frame (setNative g)) as (_ & -> & _).
    now destruct (setNative_frame g) as (_ & -> & _).
Qed.

Lemma uint32_range z : 0 <= to_uint32 z < 2 ^ 32.
Proof. apply Z.mod_pos_bound. reflexivity. Qed.

Lemma uint8_range z : 0 <= to_uint8 z < 2 ^ 8.
Proof. apply Z.mod_pos_bound. reflexivity. Qed.

Lemma endOfTermHandler_statistics_range g :
  let g' := snd (endOfTermHandler millis g) in
  0 <= sentencesWithFixCount g < 2 ^ 32 ->
  0 <= failedChecksumCount g < 2 ^ 32 ->
  0 <= passedChecksumCount g < 2 ^ 32 ->
  0 <= sentencesWithFixCount g' < 2 ^ 32
  /\ 0 <= failedChecksumCount g' < 2 ^ 32
  /\ 0 <= passedChecksumCount g' < 2 ^ 32.
Proof.
  intros g' Hf Hx Hp. subst g'.
  destruct (isChecksumTerm g) eqn:Hc.
  2:{ destruct (endOfTermHandler_quiet g Hc) as (_ & _ & Hs & _).
      unfold statistics in Hs. injection Hs as -> -> ->. auto. }
  destruct (Z.eq_dec (termChecksum (term g)) (parity g)) as [E|E].
  - rewrite (endOfTermHandler_match g Hc E). cbn [snd]. cbv zeta.
    set (Y := if sentenceHasFix _ then _ else _).
    destruct (commitCustoms_frame (commitNative millis Y))
      as (_ & _ & _ & Hs1 & _).
    destruct (commitNative_frame Y) as (_ & _ & _ & Hs2 & _).
    rewrite Hs2 in Hs1. clear Hs2.
    assert (HY : statistics Y
                 = ((if sentenceHasFix g
                     then to_uint32 (sentencesWithFixCount g + 1)
                     else sentencesWithFixCount g),
                    failedChecksumCount g,
                    to_uint32 (passedChecksumCount g + 1))).
    { subst Y. destruct g. cbn. now destruct sentenceHasFix0. }
    rewrite HY in Hs1. clear HY.
    set (R := commitCustoms millis (commitNative millis Y)) in *.
    clearbody R. unfold statistics in Hs1. injection Hs1 as -> -> ->.
    pose proof (uint32_range (passedChecksumCount g + 1)).
    pose proof (uint32_range (sentencesWithFixCount g + 1)).
    destruct (sentenceHasFix g); auto.
  - rewrite (endOfTermHandler_mismatch g Hc E). cbn [snd].
    pose proof (uint32_range (failedChecksumCount g + 1)).
    destruct g; cbn in *; auto.
Qed.

Lemma encode_inRange c g :
  wellFormed g -> inRange g -> inRange (snd (encode millis c g)).
Proof.
  intros [Hlen Hoff] (Hp & Hk & Hn & Hc & Hf & Hx & Hs).
  pose proof (code_range c) as Hcode.
  assert (Hparity : 0 <= parity (snd (encode millis c g)) < 2 ^ 8).
  { rewrite encode_parity.
    pose proof (lxor_byte _ _ Hp Hcode).
    repeat match goal with
           | |- context [if ?b then _ else _] => destruct b
           end; (assumption || lia). }
  assert (Hcount : 0 <= encodedCharCount (snd (encode millis c g)) < 2 ^ 32)
    by (rewrite encode_count; apply uint32_range).
  unfold inRange. split; [exact Hparity|].
  cut ((0 <= curSentenceType (snd (encode millis c g)) <= GPS_SENTENCE_OTHER
        /\ 0 <= curTermNumber (snd (encode millis c g)) < 2 ^ 8)
       /\ 0 <= sentencesWithFixCount (snd (encode millis c g)) < 2 ^ 32
          /\ 0 <= failedChecksumCount (snd (encode millis c g)) < 2 ^ 32
          /\ 0 <= passedChecksumCount (snd (encode millis c g)) < 2 ^ 32);
    [tauto|].
  destruct (isTermTerminator c) eqn:Ht.
  - rewrite encode_terminator by (assumption || lia). cbn [snd].
    set (G := atEndOfTerm c g).
    destruct (atEndOfTerm_frame c g) as (_ & _ & _ & _ & HkG & HnG & _).
    fold G in HkG, HnG.
    assert (HG : sentencesWithFixCount G = sentencesWithFixCount g
                 /\ failedChecksumCount G = failedChecksumCount g
                 /\ passedChecksumCount G = passedChecksumCount g).
    { subst G. unfold atEndOfTerm, terminateTerm, foldSeparator.
      destruct g, (c =c ","%char); cbn; auto. }
    destruct HG as (Hf1 & Hx1 & Hs1).
    pose proof (endOfTermHandler_type G) as Hty.
    pose proof (endOfTermHandler_statistics_range G) as Hst.
    cbv zeta in Hst. rewrite Hf1, Hx1, Hs1 in Hst.
    specialize (Hst Hf Hx Hs).
    pose proof (classify_range (term G)) as Hcl.
    set (H := snd (endOfTermHandler millis G)) in *. clearbody H.
    pose proof (uint8_range (curTermNumber H + 1)).
    split.
    + destruct H; cbn in *. split; [|assumption].
      rewrite Hty. destruct (_ && _); [assumption | now rewrite HkG].
    + now destruct H.
  - unfold encode. rewrite Ht. destruct (c =c "$"%char).
    + cbn. repeat split; (assumption || lia || discriminate).
    + destruct g. cbn in *.
      destruct (_ <? _), isChecksumTerm0; cbn; auto.
Qed.

Lemma inRange_init : inRange TinyGPSPlus_init.
Proof. cbv. repeat split; discriminate. Qed.

Lemma begin_inRange name tn g : inRange g -> inRange (begin name tn g).
Proof.
  unfold begin, insertCustom, inRange. intros H.
  destruct (customCandidates g); [destruct (_ <=? _)%nat|]; exact H.
Qed.

(** X8.  In every state that a client can reach, the registers and the
    counters of the parser hold values of their C types: the checksum
    accumulator and the term number are bytes, the sentence type is one of
    the three enumerators, and the four counters are below 2^32. *)
Theorem session_inRange (acts : list action) : inRange (session millis acts).
Proof.
  unfold session.
  pose proof wellFormed_init as Hw. pose proof inRange_init as Hr.
  revert Hw Hr. generalize TinyGPSPlus_init.
  induction acts as [|a acts IH]; intros g Hw Hr; cbn [fold_left];
    [exact Hr|].
  destruct a as [name tn|c]; cbn [perform]; apply IH.
  - now apply insertCustom_wellFormed.
  - now apply begin_inRange.
  - now apply encode_wellFormed.
  - now apply encode_inRange.
Qed.

(** ** Buffers *)

Lemma cstr_store_NUL buf : forall i,
  (i < length buf)%nat -> (length (cstr (store buf i NUL)) <= i)%nat.
Proof.
  induction buf as [|x buf IH]; intros [|i] Hi; cbn in *; try lia.
  destruct (x =c NUL); cbn [length]; [lia|].
  specialize (IH i ltac:(lia)). lia.
Qed.

Lemma term_text_fits c g :
  wellFormed g ->
  (length (cstr (term (atEndOfTerm c g))) < _GPS_MAX_FIELD_SIZE)%nat.
Proof.
  intros [Hlen Hoff].
  destruct (atEndOfTerm_frame c g)
    as (_ & _ & _ & _ & _ & _ & _ & _ & _ & _ & _ & _ & -> & _).
  pose proof (cstr_store_NUL (term g) (Z.to_nat (curTermOffset g))) as H.
  unfold _GPS_MAX_FIELD_SIZE in *. lia.
Qed.

(** X9.  In every state that a client can reach, the term buffer has its
    declared size and the write offset is inside it, so that the guard of
    the end-of-term handler always holds and the NUL that ends a term is
    stored inside the buffer; the text that the handler reads has at most
    [_GPS_MAX_FIELD_SIZE - 1] characters. *)
Theorem term_buffer_in_bounds (acts : list action) (c : ascii) :
  let g := session millis acts in
  length (term g) = _GPS_MAX_FIELD_SIZE
  /\ (Z.to_nat (curTermOffset g) < length (term g))%nat
  /\ (curTermOffset g <? Z.of_nat _GPS_MAX_FIELD_SIZE) = true
  /\ at_ (term (atEndOfTerm c g)) (Z.to_nat (curTermOffset g)) = NUL
  /\ (length (cstr (term (atEndOfTerm c g))) < _GPS_MAX_FIELD_SIZE)%nat.
Proof.
  intros g. pose proof (session_wellFormed acts) as Hw. fold g in Hw.
  pose proof (term_text_fits c g Hw) as Ht.
  destruct Hw as [Hlen Hoff].
  repeat split; try assumption.
  - unfold _GPS_MAX_FIELD_SIZE in *. lia.
  - apply Z.ltb_lt. lia.
  - destruct (atEndOfTerm_frame c g)
      as (_ & _ & _ & _ & _ & _ & _ & _ & _ & _ & _ & _ & -> & _).
    assert (Hi : (Z.to_nat (curTermOffset g) < length (term g))%nat)
      by (unfold _GPS_MAX_FIELD_SIZE in *; lia).
    revert Hi. generalize (Z.to_nat (curTermOffset g)). generalize (term g).
    unfold at_. induction l as [|x l IH]; intros [|i] Hi; cbn in *;
      try lia; try reflexivity.
    apply IH. lia.
Qed.

Lemma fresh_fits name tn : buffersFit (TinyGPSCustom.fresh name tn).
Proof. unfold buffersFit, _GPS_MAX_FIELD_SIZE. cbn. lia. Qed.

Lemma set_fits tm e :
  (length (cstr tm) < _GPS_MAX_FIELD_SIZE)%nat ->
  buffersFit e -> buffersFit (TinyGPSCustom.set tm e).
Proof.
  unfold buffersFit, _GPS_MAX_FIELD_SIZE.
  intros Ht (H1 & H2 & H3 & H4).
  cbn [TinyGPSCustom.set TinyGPSCustom.stagingBuffer TinyGPSCustom.buffer].
  unfold strncpy, _GPS_MAX_FIELD_SIZE.
  rewrite (firstn_all2 (n := 16) (cstr tm)) by lia.
  assert (Hpad : repeat NUL (16 - length (cstr tm))
                 = NUL :: repeat NUL (15 - length (cstr tm))).
  { replace (16 - length (cstr tm))%nat
      with (S (15 - length (cstr tm))) by lia. reflexivity. }
  repeat split; try assumption.
  - rewrite !length_app, repeat_length, length_skipn. lia.
  - rewrite Hpad. cbn [app]. rewrite cstr_terminated. exact Ht.
Qed.

Lemma commit_fits t e : buffersFit e -> buffersFit (TinyGPSCustom.commit t e).
Proof.
  unfold buffersFit, _GPS_MAX_FIELD_SIZE.
  intros (H1 & H2 & H3 & H4).
  cbn [TinyGPSCustom.commit TinyGPSCustom.stagingBuffer TinyGPSCustom.buffer].
  repeat split; try assumption.
  - unfold strcpy. rewrite length_app. cbn [length]. rewrite length_skipn. lia.
  - now rewrite cstr_strcpy.
Qed.

Lemma setCandidates_fits head tm n l :
  (length (cstr tm) < _GPS_MAX_FIELD_SIZE)%nat ->
  Forall buffersFit l -> Forall buffersFit (setCandidates head tm n l).
Proof.
  intros Ht. induction 1 as [|p l Hp Hl IH]; cbn [setCandidates];
    [constructor|].
  destruct (_ && _); [|now constructor].
  constructor; [|exact IH].
  destruct (_ =? _); [now apply set_fits | exact Hp].
Qed.

Lemma commitCandidates_fits head l : forall n,
  Forall buffersFit l ->
  Forall buffersFit (fst (commitCandidates millis head n l)).
Proof.
  induction l as [|p l IH]; intros n Hl; cbn [commitCandidates];
    [constructor|].
  destruct (_ =? _); [|exact Hl].
  inversion Hl as [|? ? Hp Hl']; subst.
  specialize (IH (S n) Hl').
  destruct (commitCandidates millis head (S n) l) as [rest' n'].
  cbn [fst] in *. constructor; [now apply commit_fits | exact IH].
Qed.

Lemma setCustoms_fits g :
  (length (cstr (term g)) < _GPS_MAX_FIELD_SIZE)%nat ->
  Forall buffersFit (customElts g) ->
  Forall buffersFit (customElts (setCustoms g)).
Proof.
  intros Ht Hl. unfold setCustoms.
  destruct (customCandidates g) as [k|]; [|exact Hl].
  destruct (skipn k (customElts g)) as [|first l] eqn:Hs; [exact Hl|].
  change (customElts (set_customElts ?x g)) with x.
  rewrite <- (firstn_skipn k (customElts g)), Hs in Hl.
  apply Forall_app in Hl as [H1 H2].
  apply Forall_app. split; [exact H1|].
  now apply setCandidates_fits.
Qed.

Lemma commitCustoms_fits g :
  Forall buffersFit (customElts g) ->
  Forall buffersFit (customElts (commitCustoms millis g)).
Proof.
  intros Hl. unfold commitCustoms.
  destruct (customCandidates g) as [k|]; [|exact Hl].
  destruct (skipn k (customElts g)) as [|first l] eqn:Hs; [exact Hl|].
  rewrite <- (firstn_skipn k (customElts g)), Hs in Hl.
  apply Forall_app in Hl as [H1 H2].
  pose proof (commitCandidates_fits (TinyGPSCustom.sentenceName first)
                (first :: l) (clockReads g) H2) as H3.
  destruct (commitCandidates millis _ _ _) as [l' n]. cbn [fst] in H3.
  change (Forall buffersFit (firstn k (customElts g) ++ l')).
  apply Forall_app. now split.
Qed.

Lemma endOfTermHandler_fits g :
  (length (cstr (term g)) < _GPS_MAX_FIELD_SIZE)%nat ->
  Forall buffersFit (customElts g) ->
  Forall buffersFit (customElts (snd (endOfTermHandler millis g))).
Proof.
  intros Ht Hl. unfold endOfTermHandler. destruct (isChecksumTerm g).
  - destruct (_ =? _); cbn [snd]; [|exact Hl].
    apply commitCustoms_fits.
    match goal with
    | |- context [commitNative _ ?x] =>
        destruct (commitNative_frame x) as (_ & _ & _ & _ & -> & _)
    end.
    now destruct (sentenceHasFix _).
  - destruct (_ =? _); cbn [snd]; [exact Hl|].
    destruct (setNative_frame g) as (Hp & _ & _ & He & _).
    apply setCustoms_fits.
    + unfold parsing in Hp.
      assert (E : term (setNative g) = term g) by congruence.
      now rewrite E.
    + now rewrite He.
Qed.

Lemma encode_fits c g :
  wellFormed g ->
  Forall buffersFit (customElts g) ->
  Forall buffersFit (customElts (snd (encode millis c g))).
Proof.
  intros Hw Hl. destruct (isTermTerminator c) eqn:Ht.
  - destruct Hw as [Hlen Hoff].
    rewrite encode_terminator by (assumption || lia). cbn [snd].
    assert (Hnext : forall h, customElts (nextTerm c h) = customElts h)
      by (now intros []).
    rewrite Hnext. apply endOfTermHandler_fits.
    + apply term_text_fits. now split.
    + now destruct (atEndOfTerm_frame c g)
        as (_ & _ & _ & _ & _ & _ & _ & _ & -> & _).
  - destruct (c =c "$"%char) eqn:Hd.
    + apply Ascii.eqb_eq in Hd. subst c. rewrite encode_dollar. exact Hl.
    + rewrite encode_ordinary by (unfold ordinary; now rewrite Ht, Hd).
      cbn [snd].
      now destruct (afterOrdinary_frame [c] g)
        as (_ & _ & _ & _ & _ & _ & _ & -> & _).
Qed.

Lemma linkIn_fits e l :
  buffersFit e -> Forall buffersFit l -> Forall buffersFit (linkIn e l).
Proof.
  intros He. induction 1 as [|x l Hx Hl IH]; cbn [linkIn].
  - constructor; [exact He | constructor].
  - destruct (_ || _).
    + constructor; [exact He |]. now constructor.
    + now constructor.
Qed.

(** X10.  In every state that a client can reach, the two buffers of every
    registered custom field keep their declared size of
    [_GPS_MAX_FIELD_SIZE + 1] bytes, and the staged and the committed text
    have at most [_GPS_MAX_FIELD_SIZE - 1] characters: [strncpy] always
    finds room for a NUL, and the [strcpy] of a commit stays inside the
    destination. *)
Theorem custom_buffers_fit (acts : list action) (e : TinyGPSCustom.t) :
  In e (customElts (session millis acts)) ->
  length (TinyGPSCustom.stagingBuffer e) = S _GPS_MAX_FIELD_SIZE
  /\ length (TinyGPSCustom.buffer e) = S _GPS_MAX_FIELD_SIZE
  /\ (length (cstr (TinyGPSCustom.stagingBuffer e)) < _GPS_MAX_FIELD_SIZE)%nat
  /\ (length (fst (TinyGPSCustom.value e)) < _GPS_MAX_FIELD_SIZE)%nat.
Proof.
  intros Hin.
  assert (Hall : Forall buffersFit (customElts (session millis acts))).
  { unfold session.
    pose proof wellFormed_init as Hw.
    assert (Hl : Forall buffersFit (customElts TinyGPSPlus_init))
      by constructor.
    revert Hw Hl. generalize TinyGPSPlus_init. clear Hin.
    induction acts as [|a acts IH]; intros g Hw Hl; cbn [fold_left];
      [exact Hl|].
    destruct a as [name tn|c]; cbn [perform]; apply IH.
    - now apply insertCustom_wellFormed.
    - rewrite customElts_begin. apply linkIn_fits; [apply fresh_fits | exact Hl].
    - now apply encode_wellFormed.
    - now apply encode_fits. }
  rewrite Forall_forall in Hall. exact (Hall e Hin).
Qed.

(** ** What the fields of a recognized sentence stage *)

Lemma setNative_staged kind i g :
  kind = GPS_SENTENCE_GPRMC \/ kind = GPS_SENTENCE_GPGGA ->
  1 <= i <= 31 ->
  curSentenceType g = kind -> curTermNumber g = i ->
  nativeStaged (setNative g) = stageTerm kind i (term g) (nativeStaged g).
Proof.
  intros Hkind Hi Hk Hn. unfold setNative, stageTerm, nativeStaged.
  rewrite Hk, Hn.
  destruct (at_ (term g) 0 =c NUL).
  { now rewrite andb_false_r. }
  assert (Hcases : i = 1 \/ i = 2 \/ i = 3 \/ i = 4 \/ i = 5 \/ i = 6 \/ i = 7
            \/ i = 8 \/ i = 9 \/ 10 <= i <= 31) by lia.
  assert (Hrest : 10 <= i <= 31 ->
            i = 10 \/ i = 11 \/ i = 12 \/ i = 13 \/ i = 14 \/ i = 15 \/ i = 16
            \/ i = 17 \/ i = 18 \/ i = 19 \/ i = 20 \/ i = 21 \/ i = 22
            \/ i = 23 \/ i = 24 \/ i = 25 \/ i = 26 \/ i = 27 \/ i = 28
            \/ i = 29 \/ i = 30 \/ i = 31) by lia.
  destruct Hkind; subst kind;
    repeat (destruct Hcases as [->|Hcases]; [reflexivity|]);
    specialize (Hrest Hcases);
    repeat (destruct Hrest as [->|Hrest]; [reflexivity|]);
    rewrite Hrest; reflexivity.
Qed.

Lemma stageTerm_terminated kind i w junk s :
  stageTerm kind i (termText w ++ NUL :: junk) s
  = stageTerm kind i (termText w) s.
Proof.
  unfold stageTerm.
  rewrite (at_terminated (termText w) junk 0) by lia.
  now rewrite parseDecimal_terminated, parseDegrees_terminated, atol_terminated.
Qed.

Lemma nativeStaged_nextTerm d h : nativeStaged (nextTerm d h) = nativeStaged h.
Proof. now destruct h. Qed.

Lemma natives_nextTerm d h : natives (nextTerm d h) = natives h.
Proof. now destruct h. Qed.

(** What one data field stages. *)
Lemma field_step_staged kind i p fx g0 g f d :
  kind = GPS_SENTENCE_GPRMC \/ kind = GPS_SENTENCE_GPGGA ->
  1 <= i <= 31 ->
  atField kind i p fx g0 g ->
  forallb ordinary f = true ->
  d = ","%char \/ d = "*"%char ->
  nativeStaged (feed millis g (f ++ [d]))
  = stageTerm kind i (termText f) (nativeStaged g).
Proof.
  intros Hkind Hi (Hwf & Hoff & Hc & Hk & Hn & _) Hord Hd.
  assert (Ht : isTermTerminator d = true) by (destruct Hd; now subst d).
  rewrite feed_app. cbn [feed].
  pose proof (term_atEndOfTerm g f d Hwf Hoff Hord) as Hterm.
  pose proof (feed_wellFormed f g Hwf) as [_ Hoff1].
  pose proof (feed_ordinary f g Hord) as Hg1.
  destruct (afterOrdinary_frame f g)
    as (_ & _ & _ & Hc1 & Hk1 & Hn1 & _ & _ & _ & Hnat1 & _).
  rewrite <- Hg1 in Hc1, Hk1, Hn1, Hnat1.
  set (g1 := feed millis g f) in *.
  destruct (atEndOfTerm_frame d g1)
    as (_ & _ & _ & Hc3 & Hk3 & Hn3 & _ & _ & _ & _ & Hnat3 & _).
  rewrite encode_terminator by (assumption || lia).
  rewrite endOfTermHandler_data by (rewrite ?Hn3; congruence || lia).
  cbn [snd]. rewrite nativeStaged_nextTerm.
  destruct (setCustoms_frame (setNative (atEndOfTerm d g1)))
    as (_ & _ & _ & _ & Hnat4 & _).
  rewrite (natives_nativeStaged _ _ Hnat4).
  rewrite (setNative_staged kind i) by (assumption || congruence).
  rewrite Hterm, stageTerm_terminated.
  f_equal. apply natives_nativeStaged. congruence.
Qed.

Lemma fields_staged kind fs : forall i p fx g0 g,
  kind = GPS_SENTENCE_GPRMC \/ kind = GPS_SENTENCE_GPGGA ->
  1 <= i -> i + Z.of_nat (length fs) <= 32 -> fs <> [] ->
  atField kind i p fx g0 g ->
  forallb (forallb ordinary) fs = true ->
  nativeStaged (feed millis g (joined fs ++ ["*"%char]))
  = stageFields kind i fs (nativeStaged g).
Proof.
  induction fs as [|f fs IH]; intros i p fx g0 g Hkind Hi Hlen Hne Hat Hord;
    [contradiction|].
  cbn [forallb] in Hord. apply andb_true_iff in Hord as [Hf Hord].
  cbn [length] in Hlen. rewrite Nat2Z.inj_succ in Hlen.
  destruct fs as [|f2 fs].
  - cbn [joined stageFields].
    apply (field_step_staged kind i p fx g0); auto. lia.
  - change (joined (f :: f2 :: fs)) with (f ++ ","%char :: joined (f2 :: fs)).
    rewrite <- app_assoc. cbn [app].
    change (f ++ ","%char :: joined (f2 :: fs) ++ ["*"%char])
      with (f ++ [","%char] ++ (joined (f2 :: fs) ++ ["*"%char])).
    rewrite app_assoc, feed_app.
    pose proof (field_step kind i p fx g0 g f ","%char Hkind
                  ltac:(cbn [length] in Hlen; lia)
                  Hat Hf (or_introl eq_refl)) as Hstep.
    cbv zeta in Hstep.
    change (","%char =c "*"%char) with false in Hstep.
    change (","%char =c ","%char) with true in Hstep. cbv iota in Hstep.
    pose proof (field_step_staged kind i p fx g0 g f ","%char Hkind
                  ltac:(cbn [length] in Hlen; lia)
                  Hat Hf (or_introl eq_refl)) as Hst.
    change (stageFields kind i (f :: f2 :: fs) (nativeStaged g))
      with (stageFields kind (i + 1) (f2 :: fs)
              (stageTerm kind i (termText f) (nativeStaged g))).
    rewrite <- Hst.
    apply (IH (i + 1) (xorInto p (f ++ [","%char])) (fixAfter kind i f fx) g0);
      try assumption; try lia; discriminate.
Qed.

Lemma name_step_staged kind name d g0 :
  wellFormed g0 -> namesKind kind name ->
  d = ","%char \/ d = "*"%char ->
  natives (feed millis g0 ("$"%char :: name ++ [d])) = natives g0.
Proof.
  intros Hwf Hname Hd.
  assert (Ht : isTermTerminator d = true) by (destruct Hd; now subst d).
  pose proof (names_ordinary _ _ Hname) as Hord.
  destruct (feed_sentence_name g0 name d Hwf Hord Ht) as (Henc & _).
  change ("$"%char :: name ++ [d]) with (("$"%char :: name) ++ [d]).
  rewrite feed_app. cbn [feed] in *. rewrite Henc. cbn [snd].
  rewrite natives_nextTerm.
  match goal with
  | |- natives (set_customCandidates _ (set_curSentenceType _ ?G)) = _ =>
      transitivity (natives G); [now destruct G|]
  end.
  rewrite encode_dollar. cbn [snd].
  rewrite feed_ordinary by assumption.
  destruct (atEndOfTerm_frame d (afterOrdinary name (afterDollar g0)))
    as (_ & _ & _ & _ & _ & _ & _ & _ & _ & _ & -> & _).
  destruct (afterOrdinary_frame name (afterDollar g0))
    as (_ & _ & _ & _ & _ & _ & _ & _ & _ & -> & _).
  now destruct g0.
Qed.

(** The staged values when the checksum term of a recognized sentence
    starts. *)
Lemma sentence_staged g0 kind name fields :
  wellFormed g0 -> namesKind kind name ->
  forallb (forallb ordinary) fields = true ->
  (length fields <= 31)%nat ->
  nativeStaged (feed millis g0 ("$"%char :: sentenceBody name fields ++ ["*"%char]))
  = stageFields kind 1 fields (nativeStaged g0).
Proof.
  intros Hwf Hname Hord Hlen.
  pose proof (namesKind_kind _ _ Hname) as Hkind.
  unfold sentenceBody. destruct fields as [|f r].
  - cbn [map concat stageFields]. rewrite app_nil_r.
    apply natives_nativeStaged.
    apply (name_step_staged kind); auto.
  - cbn [map concat app]. rewrite <- (joined_concat r f).
    set (J := joined (f :: r)).
    assert (Hin : "$"%char :: (name ++ ","%char :: J) ++ ["*"%char]
                  = ("$"%char :: name ++ [","%char]) ++ (J ++ ["*"%char])).
    { cbn [app]. f_equal. now rewrite <- !app_assoc. }
    rewrite Hin, feed_app.
    pose proof (name_step kind name ","%char g0 Hwf Hname (or_introl eq_refl))
      as Hstep.
    cbv zeta in Hstep.
    change (","%char =c "*"%char) with false in Hstep.
    change (","%char =c ","%char) with true in Hstep. cbv iota in Hstep.
    pose proof (fields_staged kind (f :: r) 1 _ false g0 _ Hkind ltac:(lia)
                  ltac:(lia) ltac:(discriminate) Hstep Hord) as Hst.
    fold J in Hst. rewrite Hst.
    f_equal. apply natives_nativeStaged.
    apply (name_step_staged kind); auto.
Qed.

(** The checksum term [h1 h2] and the line end after it, when the two
    digits write the accumulator. *)
Lemma checksum_commit g h1 h2 t :
  wellFormed g -> curTermOffset g = 0 -> isChecksumTerm g = true ->
  ordinary h1 = true -> ordinary h2 = true -> lineEnd t = true ->
  hexByte h1 h2 = parity g ->
  exists G,
    encode millis t (feed millis g [h1; h2])
    = (true, nextTerm t (commitCustoms millis (commitNative millis (countPassed G))))
    /\ natives G = natives g
    /\ curSentenceType G = curSentenceType g
    /\ sentenceHasFix G = sentenceHasFix g
    /\ customElts G = customElts g
    /\ customCandidates G = customCandidates g
    /\ statistics G = statistics g.
Proof.
  intros Hwf Hoff Hc H1 H2 Ht Hhex.
  set (g1 := feed millis g [h1; h2]).
  assert (Hord : forallb ordinary [h1; h2] = true) by (cbn; now rewrite H1, H2).
  assert (Hterm : isTermTerminator t = true /\ (t =c ","%char) = false).
  { unfold lineEnd in Ht. apply orb_true_iff in Ht as [Ht|Ht];
      apply Ascii.eqb_eq in Ht; subst t; now split. }
  destruct Hterm as [Hterm Hcomma].
  pose proof (term_atEndOfTerm g [h1; h2] t Hwf Hoff Hord) as Htext.
  fold g1 in Htext.
  pose proof (feed_wellFormed [h1; h2] g Hwf) as [_ Hoff1]. fold g1 in Hoff1.
  pose proof (feed_ordinary [h1; h2] g Hord) as Hg1. fold g1 in Hg1.
  destruct (afterOrdinary_frame [h1; h2] g)
    as (_ & Hs1 & _ & Hc1 & Hk1 & _ & Hf1 & He1 & Hcc1 & Hn1 & _ & _ & Hp1).
  rewrite <- Hg1 in Hs1, Hc1, Hk1, Hf1, He1, Hcc1, Hn1, Hp1. rewrite Hc in Hp1.
  destruct (atEndOfTerm_frame t g1)
    as (_ & Hs2 & _ & Hc2 & Hk2 & _ & _ & Hf2 & He2 & Hcc2 & Hn2 & _ & _ & Hp2).
  rewrite Hcomma in Hp2.
  exists (atEndOfTerm t g1).
  rewrite encode_terminator by (assumption || lia).
  rewrite endOfTermHandler_match.
  - cbn [fst snd]. repeat split; congruence.
  - congruence.
  - rewrite Htext, Hp2, Hp1, <- Hhex. reflexivity.
Qed.

(** The parser after a recognized sentence that passed its checksum: the
    containers are those that the commit switch leaves, in a state [Y]
    whose staged values are those of the fields. *)
Lemma valid_sentence_commit_state g0 kind name fields h1 h2 t :
  wellFormed g0 -> namesKind kind name ->
  forallb (forallb ordinary) fields = true ->
  (length fields <= 31)%nat ->
  ordinary h1 = true -> ordinary h2 = true -> lineEnd t = true ->
  hexByte h1 h2 = xorAll (sentenceBody name fields) ->
  let g1 :=
    feed millis g0 ("$"%char :: sentenceBody name fields ++ "*"%char :: [h1; h2]) in
  exists Y,
    natives (snd (encode millis t g1)) = natives (commitNative millis Y)
    /\ curSentenceType Y = kind
    /\ sentenceHasFix Y = fixIndicated kind fields
    /\ nativeStaged Y = stageFields kind 1 fields (nativeStaged g0).
Proof.
  intros Hwf Hname Hord Hlen H1 H2 Ht Hhex g1.
  pose proof (sentence_to_checksum g0 kind name fields Hwf Hname Hord Hlen)
    as (Hwf1 & Hoff1 & Hc1 & Hk1 & Hp1 & Hf1 & _).
  pose proof (sentence_staged g0 kind name fields Hwf Hname Hord Hlen) as Hst.
  assert (Hg1 : g1 = feed millis
                  (feed millis g0
                     ("$"%char :: sentenceBody name fields ++ ["*"%char]))
                  [h1; h2]).
  { subst g1. rewrite <- feed_app. f_equal. cbn [app]. f_equal.
    now rewrite <- app_assoc. }
  set (gs := feed millis g0
               ("$"%char :: sentenceBody name fields ++ ["*"%char])) in *.
  destruct (checksum_commit gs h1 h2 t Hwf1 Hoff1 Hc1 H1 H2 Ht
              ltac:(congruence))
    as (G & Henc & Hn & Hk & Hf & _).
  rewrite <- Hg1 in Henc. rewrite Henc. cbn [snd].
  destruct (countPassed_frame G) as (Hn' & Hk' & Hf').
  exists (countPassed G).
  split.
  - rewrite natives_nextTerm.
    now destruct (commitCustoms_frame (commitNative millis (countPassed G)))
      as (_ & _ & _ & _ & -> & _).
  - repeat split; try congruence.
    rewrite <- Hst. apply natives_nativeStaged. congruence.
Qed.

Lemma at_termText_0 w : at_ (termText w) 0 = at_ w 0.
Proof. now destruct w. Qed.

Lemma present_termText f :
  present f = true -> (at_ (termText f) 0 =c NUL) = false.
Proof.
  unfold present. rewrite at_termText_0. now destruct (at_ f 0 =c NUL).
Qed.

Lemma stageTerm_past kind i t s : 10 <= i -> stageTerm kind i t s = s.
Proof.
  intros Hi. unfold stageTerm.
  destruct s as [[[[[[[[lat lng] dt] tm] spd] crs] alt] sat] hd].
  repeat match goal with
         | |- context [i =? ?k] =>
             replace (i =? k) with false by (symmetry; apply Z.eqb_neq; lia)
         end.
  destruct (at_ t 0 =c NUL); [reflexivity|].
  destruct (kind =? GPS_SENTENCE_GPRMC); [reflexivity|].
  now destruct (kind =? GPS_SENTENCE_GPGGA).
Qed.

Lemma stageFields_past kind fs : forall i s,
  10 <= i -> stageFields kind i fs s = s.
Proof.
  induction fs as [|f fs IH]; intros i s Hi; cbn [stageFields];
    [reflexivity|].
  rewrite IH by lia. now apply stageTerm_past.
Qed.

Lemma if_same {A : Type} (b : bool) (x : A) : (if b then x else x) = x.
Proof. now destruct b. Qed.

(** Evaluates the innermost [stageTerm], whose argument is a tuple; [tac]
    decides the test for an absent field. *)
Ltac stage_innermost tac :=
  match goal with
  | |- context [stageTerm ?k ?i ?t (?x, ?y)] =>
      let v := eval cbv beta iota zeta
                 delta [stageTerm Z.eqb Pos.eqb Z.add Pos.add Pos.succ
                        GPS_SENTENCE_GPRMC GPS_SENTENCE_GPGGA]
               in (stageTerm k i t (x, y)) in
      lazymatch v with
      | (if _ then _ else ?w) =>
          let E := fresh "E" in
          assert (E : stageTerm k i t (x, y) = w)
            by (change (stageTerm k i t (x, y)) with v; tac);
          rewrite E; clear E
      end
  end.

Ltac stage P := stage_innermost ltac:(rewrite P; reflexivity).
Ltac stage_nothing := stage_innermost ltac:(apply if_same).

Lemma stageFields_cons kind i f r s :
  stageFields kind i (f :: r) s
  = stageFields kind (i + 1) r (stageTerm kind i (termText f) s).
Proof. reflexivity. Qed.

Lemma stageFields_GPRMC tm st lat ns lng ew spd crs dt more s :
  forallb present [tm; lat; ns; lng; ew; spd; crs; dt] = true ->
  stageFields GPS_SENTENCE_GPRMC 1
    (tm :: st :: lat :: ns :: lng :: ew :: spd :: crs :: dt :: more) s
  = let '(_, _, _, _, _, _, alt, sat, hd) := s in
    (signedDegrees (parseDegrees (termText lat)) (at_ ns 0 =c "S"%char),
     signedDegrees (parseDegrees (termText lng)) (at_ ew 0 =c "W"%char),
     to_uint32 (atol (termText dt)), to_uint32 (parseDecimal (termText tm)),
     parseDecimal (termText spd), parseDecimal (termText crs), alt, sat, hd).
Proof.
  cbn [forallb]. rewrite !andb_true_iff.
  intros (P1 & P3 & P4 & P5 & P6 & P7 & P8 & P9 & _).
  apply present_termText in P1, P3, P4, P5, P6, P7, P8, P9.
  destruct s as [[[[[[[[lat0 lng0] dt0] tm0] spd0] crs0] alt0] sat0] hd0].
  rewrite !stageFields_cons, stageFields_past by lia.
  stage P1. stage_nothing. stage P3. stage P4. stage P5. stage P6.
  stage P7. stage P8. stage P9.
  rewrite !at_termText_0. reflexivity.
Qed.

Lemma stageFields_GPGGA tm lat ns lng ew q sat hd alt more s :
  forallb present [tm; lat; ns; lng; ew; sat; hd; alt] = true ->
  stageFields GPS_SENTENCE_GPGGA 1
    (tm :: lat :: ns :: lng :: ew :: q :: sat :: hd :: alt :: more) s
  = let '(_, _, dt, _, spd, crs, _, _, _) := s in
    (signedDegrees (parseDegrees (termText lat)) (at_ ns 0 =c "S"%char),
     signedDegrees (parseDegrees (termText lng)) (at_ ew 0 =c "W"%char),
     dt, to_uint32 (parseDecimal (termText tm)), spd, crs,
     parseDecimal (termText alt), to_uint32 (atol (termText sat)),
     parseDecimal (termText hd)).
Proof.
  cbn [forallb]. rewrite !andb_true_iff.
  intros (P1 & P2 & P3 & P4 & P5 & P7 & P8 & P9 & _).
  apply present_termText in P1, P2, P3, P4, P5, P7, P8, P9.
  destruct s as [[[[[[[[lat0 lng0] dt0] tm0] spd0] crs0] alt0] sat0] hd0].
  rewrite !stageFields_cons, stageFields_past by lia.
  stage P1. stage P2. stage P3. stage P4. stage P5. stage_nothing.
  stage P7. stage P8. stage P9.
  rewrite !at_termText_0. reflexivity.
Qed.

(** The values that the commit switch publishes. *)
Lemma commitNative_GPRMC_values Y lat lng dt tm spd crs alt sat hd :
  curSentenceType Y = GPS_SENTENCE_GPRMC ->
  sentenceHasFix Y = true ->
  nativeStaged Y = (lat, lng, dt, tm, spd, crs, alt, sat, hd) ->
  let N := commitNative millis Y in
  TinyGPSTime.time (time N) = tm /\ TinyGPSTime.valid (time N) = true
  /\ TinyGPSDate.date (date N) = dt /\ TinyGPSDate.valid (date N) = true
  /\ TinyGPSLocation.rawLatData (location N) = lat
  /\ TinyGPSLocation.rawLngData (location N) = lng
  /\ TinyGPSLocation.valid (location N) = true
  /\ TinyGPSDecimal.val (speed N) = spd /\ TinyGPSDecimal.valid (speed N) = true
  /\ TinyGPSDecimal.val (course N) = crs
  /\ TinyGPSDecimal.valid (course N) = true.
Proof.
  intros Hk Hf Hst N. subst N. unfold commitNative. rewrite Hk.
  change (GPS_SENTENCE_GPRMC =? GPS_SENTENCE_GPRMC) with true. cbv iota zeta.
  destruct Y. cbn in Hf, Hst |- *. subst sentenceHasFix0.
  assert (E : forall A B (a a' : A) (b b' : B), (a, b) = (a', b') -> a = a' /\ b = b')
    by (intros; split; congruence).
  repeat (apply E in Hst; destruct Hst as [Hst ?]). subst.
  repeat split.
Qed.

Lemma commitNative_GPGGA_values Y lat lng dt tm spd crs alt sat hd :
  curSentenceType Y = GPS_SENTENCE_GPGGA ->
  sentenceHasFix Y = true ->
  nativeStaged Y = (lat, lng, dt, tm, spd, crs, alt, sat, hd) ->
  let N := commitNative millis Y in
  TinyGPSTime.time (time N) = tm /\ TinyGPSTime.valid (time N) = true
  /\ TinyGPSLocation.rawLatData (location N) = lat
  /\ TinyGPSLocation.rawLngData (location N) = lng
  /\ TinyGPSLocation.valid (location N) = true
  /\ TinyGPSDecimal.val (altitude N) = alt
  /\ TinyGPSDecimal.valid (altitude N) = true
  /\ TinyGPSInteger.val (satellites N) = sat
  /\ TinyGPSInteger.valid (satellites N) = true
  /\ TinyGPSDecimal.val (hdop N) = hd /\ TinyGPSDecimal.valid (hdop N) = true.
Proof.
  intros Hk Hf Hst N. subst N. unfold commitNative. rewrite Hk.
  change (GPS_SENTENCE_GPGGA =? GPS_SENTENCE_GPRMC) with false.
  change (GPS_SENTENCE_GPGGA =? GPS_SENTENCE_GPGGA) with true. cbv iota zeta.
  destruct Y. cbn in Hf, Hst |- *. subst sentenceHasFix0.
  assert (E : forall A B (a a' : A) (b b' : B), (a, b) = (a', b') -> a = a' /\ b = b')
    by (intros; split; congruence).
  repeat (apply E in Hst; destruct Hst as [Hst ?]). subst.
  repeat split.
Qed.

Lemma natives_fields g g' :
  natives g' = natives g ->
  location g' = location g /\ date g' = date g /\ time g' = time g
  /\ speed g' = speed g /\ course g' = course g /\ altitude g' = altitude g
  /\ satellites g' = satellites g /\ hdop g' = hdop g.
Proof.
  unfold natives. intros H.
  assert (E : forall A B (a a' : A) (b b' : B), (a, b) = (a', b') -> a = a' /\ b = b')
    by (intros; split; congruence).
  repeat (apply E in H; destruct H as [H ?]). repeat split; assumption.
Qed.

(** X11.  A position/velocity sentence ([GPRMC] or [GNRMC]) with status
    ['A'] that passes its checksum publishes what its fields write: time
    from field 1, latitude from fields 3 and 4, longitude from fields 5
    and 6, speed from field 7, course from field 8 and date from field 9,
    each decoded from the text that the term buffer keeps of the field.
    The hemisphere letters ['S'] and ['W'] give the negative sign. *)
Theorem rmc_sentence_decodes
    (g0 : TinyGPSPlus) (name tm st lat ns lng ew spd crs dt : list ascii)
    (more : list (list ascii)) (h1 h2 t : ascii) :
  let fields := tm :: st :: lat :: ns :: lng :: ew :: spd :: crs :: dt :: more in
  wellFormed g0 ->
  name = _GPRMCterm \/ name = _GNRMCterm ->
  forallb (forallb ordinary) fields = true ->
  (length more <= 22)%nat ->
  forallb present [tm; lat; ns; lng; ew; spd; crs; dt] = true ->
  at_ st 0 = "A"%char ->
  ordinary h1 = true -> ordinary h2 = true -> lineEnd t = true ->
  hexByte h1 h2 = xorAll (sentenceBody name fields) ->
  let g2 :=
    snd (encode millis t
           (feed millis g0
              ("$"%char :: sentenceBody name fields ++ "*"%char :: [h1; h2]))) in
  fst (TinyGPSTime.value (time g2)) = to_uint32 (parseDecimal (termText tm))
  /\ fst (TinyGPSDate.value (date g2)) = to_uint32 (atol (termText dt))
  /\ fst (TinyGPSLocation.rawLat (location g2))
     = signedDegrees (parseDegrees (termText lat)) (at_ ns 0 =c "S"%char)
  /\ fst (TinyGPSLocation.rawLng (location g2))
     = signedDegrees (parseDegrees (termText lng)) (at_ ew 0 =c "W"%char)
  /\ fst (TinyGPSDecimal.value (speed g2)) = parseDecimal (termText spd)
  /\ fst (TinyGPSDecimal.value (course g2)) = parseDecimal (termText crs)
  /\ TinyGPSTime.isValid (time g2) = true
  /\ TinyGPSDate.isValid (date g2) = true
  /\ TinyGPSLocation.isValid (location g2) = true
  /\ TinyGPSDecimal.isValid (speed g2) = true
  /\ TinyGPSDecimal.isValid (course g2) = true.
Proof.
  intros fields Hwf Hname Hord Hlen Hpres Hst H1 H2 Ht Hhex g2.
  assert (Hkind : namesKind GPS_SENTENCE_GPRMC name) by (left; now split).
  assert (Hlen' : (length fields <= 31)%nat) by (subst fields; cbn [length]; lia).
  destruct (valid_sentence_commit_state g0 _ name fields h1 h2 t Hwf Hkind Hord
              Hlen' H1 H2 Ht Hhex) as (Y & Hnat & Hk & Hf & Hstaged).
  fold g2 in Hnat. clearbody g2.
  assert (Hfix : sentenceHasFix Y = true).
  { rewrite Hf. unfold fixIndicated, fields. cbn [nth].
    change (GPS_SENTENCE_GPRMC =? GPS_SENTENCE_GPRMC) with true. cbv iota.
    now rewrite Hst. }
  unfold fields in Hstaged. rewrite (stageFields_GPRMC _ _ _ _ _ _ _ _ _ _ _ Hpres) in Hstaged.
  destruct (nativeStaged g0) as [[[[[[[[lat0 lng0] dt0] tm0] spd0] crs0] alt0] sat0] hd0].
  destruct (commitNative_GPRMC_values Y _ _ _ _ _ _ _ _ _ Hk Hfix Hstaged)
    as (V1 & V2 & V3 & V4 & V5 & V6 & V7 & V8 & V9 & V10 & V11).
  destruct (natives_fields _ _ Hnat) as (-> & -> & -> & -> & -> & _).
  unfold TinyGPSTime.isValid, TinyGPSDate.isValid, TinyGPSLocation.isValid,
    TinyGPSDecimal.isValid.
  cbn [TinyGPSTime.value TinyGPSDate.value TinyGPSLocation.rawLat
       TinyGPSLocation.rawLng TinyGPSDecimal.value fst].
  repeat split; assumption.
Qed.

(** X12.  A fix-data sentence ([GPGGA] or [GNGGA]) with a quality digit
    above ['0'] that passes its checksum publishes what its fields write:
    time from field 1, latitude from fields 2 and 3, longitude from fields
    4 and 5, the satellite count from field 7, HDOP from field 8 and
    altitude from field 9. *)
Theorem gga_sentence_decodes
    (g0 : TinyGPSPlus) (name tm lat ns lng ew q sat hd alt : list ascii)
    (more : list (list ascii)) (h1 h2 t : ascii) :
  let fields := tm :: lat :: ns :: lng :: ew :: q :: sat :: hd :: alt :: more in
  wellFormed g0 ->
  name = _GPGGAterm \/ name = _GNGGAterm ->
  forallb (forallb ordinary) fields = true ->
  (length more <= 22)%nat ->
  forallb present [tm; lat; ns; lng; ew; sat; hd; alt] = true ->
  code "0"%char < code (at_ q 0) ->
  ordinary h1 = true -> ordinary h2 = true -> lineEnd t = true ->
  hexByte h1 h2 = xorAll (sentenceBody name fields) ->
  let g2 :=
    snd (encode millis t
           (feed millis g0
              ("$"%char :: sentenceBody name fields ++ "*"%char :: [h1; h2]))) in
  fst (TinyGPSTime.value (time g2)) = to_uint32 (parseDecimal (termText tm))
  /\ fst (TinyGPSLocation.rawLat (location g2))
     = signedDegrees (parseDegrees (termText lat)) (at_ ns 0 =c "S"%char)
  /\ fst (TinyGPSLocation.rawLng (location g2))
     = signedDegrees (parseDegrees (termText lng)) (at_ ew 0 =c "W"%char)
  /\ fst (TinyGPSInteger.value (satellites g2)) = to_uint32 (atol (termText sat))
  /\ fst (TinyGPSDecimal.value (hdop g2)) = parseDecimal (termText hd)
  /\ fst (TinyGPSDecimal.value (altitude g2)) = parseDecimal (termText alt)
  /\ TinyGPSTime.isValid (time g2) = true
  /\ TinyGPSLocation.isValid (location g2) = true
  /\ TinyGPSInteger.isValid (satellites g2) = true
  /\ TinyGPSDecimal.isValid (hdop g2) = true
  /\ TinyGPSDecimal.isValid (altitude g2) = true.
Proof.
  intros fields Hwf Hname Hord Hlen Hpres Hq H1 H2 Ht Hhex g2.
  assert (Hkind : namesKind GPS_SENTENCE_GPGGA name) by (right; now split).
  assert (Hlen' : (length fields <= 31)%nat) by (subst fields; cbn [length]; lia).
  destruct (valid_sentence_commit_state g0 _ name fields h1 h2 t Hwf Hkind Hord
              Hlen' H1 H2 Ht Hhex) as (Y & Hnat & Hk & Hf & Hstaged).
  fold g2 in Hnat. clearbody g2.
  assert (Hfix : sentenceHasFix Y = true).
  { rewrite Hf. unfold fixIndicated, fields. cbn [nth].
    change (GPS_SENTENCE_GPGGA =? GPS_SENTENCE_GPRMC) with false. cbv iota.
    now apply Z.ltb_lt. }
  unfold fields in Hstaged. rewrite (stageFields_GPGGA _ _ _ _ _ _ _ _ _ _ _ Hpres) in Hstaged.
  destruct (nativeStaged g0) as [[[[[[[[lat0 lng0] dt0] tm0] spd0] crs0] alt0] sat0] hd0].
  destruct (commitNative_GPGGA_values Y _ _ _ _ _ _ _ _ _ Hk Hfix Hstaged)
    as (V1 & V2 & V3 & V4 & V5 & V6 & V7 & V8 & V9 & V10 & V11).
  destruct (natives_fields _ _ Hnat) as (-> & _ & -> & _ & _ & -> & -> & ->).
  unfold TinyGPSTime.isValid, TinyGPSLocation.isValid, TinyGPSInteger.isValid,
    TinyGPSDecimal.isValid.
  cbn [TinyGPSTime.value TinyGPSLocation.rawLat TinyGPSLocation.rawLng
       TinyGPSDecimal.value TinyGPSInteger.value fst].
  repeat split; assumption.
Qed.

(** ** Names as texts *)

Lemma strcmp_refl a : strcmp a a = 0.
Proof. pose proof (strcmp_antisym a a). lia. Qed.

Lemma strcmp_cstr_l a : forall b, strcmp (cstr a) b = strcmp a b.
Proof.
  induction a as [|x a IH]; intros b; [reflexivity|].
  cbn [cstr]. destruct (Ascii.eqb_spec x NUL) as [->|Hx].
  - destruct b as [|y b]; cbn [strcmp]; [reflexivity|].
    destruct (Ascii.eqb_spec NUL y) as [<-|_]; reflexivity.
  - destruct b as [|y b]; cbn [strcmp]; [reflexivity|].
    destruct (x =c y); [|reflexivity].
    destruct (x =c NUL); [reflexivity | apply IH].
Qed.

Lemma strcmp_cstr_r a b : strcmp a (cstr b) = strcmp a b.
Proof.
  now rewrite (strcmp_antisym (cstr b) a), strcmp_cstr_l, <- strcmp_antisym.
Qed.

Lemma strcmp_eq_cstr a : forall b, strcmp a b = 0 -> cstr a = cstr b.
Proof.
  induction a as [|x a IH]; intros [|y b]; cbn [strcmp cstr]; intros H.
  - reflexivity.
  - assert (y = NUL) by (apply code_NUL; lia). now subst y.
  - assert (x = NUL) by (apply code_NUL; lia). now subst x.
  - destruct (Ascii.eqb_spec x y) as [->|Hxy].
    + destruct (y =c NUL); [reflexivity|]. f_equal. now apply IH.
    + apply neq_code in Hxy. lia.
Qed.

Lemma strcmp_zero_iff a b : strcmp a b = 0 <-> cstr a = cstr b.
Proof.
  split; [apply strcmp_eq_cstr|].
  intros H. rewrite <- strcmp_cstr_l, <- strcmp_cstr_r, H. apply strcmp_refl.
Qed.

(** Equal names compare alike with every other name. *)
Lemma strcmp_eq_l a b c : strcmp a b = 0 -> strcmp a c = strcmp b c.
Proof.
  intros H. apply strcmp_eq_cstr in H.
  now rewrite <- (strcmp_cstr_l a), <- (strcmp_cstr_l b), H.
Qed.

Lemma strcmp_eq_r a b c : strcmp a b = 0 -> strcmp c a = strcmp c b.
Proof.
  intros H. rewrite (strcmp_antisym a c), (strcmp_antisym b c).
  f_equal. now apply strcmp_eq_l.
Qed.

Lemma strcmp_le_lt_trans a b c :
  strcmp a b <= 0 -> strcmp b c < 0 -> strcmp a c < 0.
Proof.
  intros Hab Hbc.
  destruct (Z_lt_le_dec (strcmp a c) 0) as [|Hca]; [assumption|].
  exfalso.
  assert (Hba : strcmp b a < 0).
  { apply (strcmp_lt_le_trans b c a); [exact Hbc|].
    rewrite (strcmp_antisym a c). lia. }
  rewrite (strcmp_antisym a b) in Hba. lia.
Qed.

Lemma entryLe_trans e1 e2 e3 : entryLe e1 e2 -> entryLe e2 e3 -> entryLe e1 e3.
Proof.
  unfold entryLe. intros [H12 | [H12 T12]] [H23 | [H23 T23]].
  - left. apply (strcmp_lt_le_trans _ (entryName e2)); lia.
  - left. apply (strcmp_lt_le_trans _ (entryName e2)); lia.
  - left. apply (strcmp_le_lt_trans _ (entryName e2)); lia.
  - right. split; [|lia].
    rewrite (strcmp_eq_l _ _ _ H12). exact H23.
Qed.

Lemma sorted_strongly l : Sorted entryLe l -> StronglySorted entryLe l.
Proof.
  apply Sorted_StronglySorted. intros x y z. apply entryLe_trans.
Qed.

(** X13.  The first term of a sentence is recognized exactly when its text
    is one of the four names: [GPRMC] and [GNRMC] for the position/velocity
    kind, [GPGGA] and [GNGGA] for the fix-data kind.  The comparison is
    exact and case-sensitive, and every other text gives the kind
    [GPS_SENTENCE_OTHER]. *)
Theorem classify_recognizes (t : list ascii) :
  (classify t = GPS_SENTENCE_GPRMC
   <-> cstr t = _GPRMCterm \/ cstr t = _GNRMCterm)
  /\ (classify t = GPS_SENTENCE_GPGGA
      <-> cstr t = _GPGGAterm \/ cstr t = _GNGGAterm)
  /\ (classify t = GPS_SENTENCE_OTHER
      <-> cstr t <> _GPRMCterm /\ cstr t <> _GNRMCterm
          /\ cstr t <> _GPGGAterm /\ cstr t <> _GNGGAterm).
Proof.
  unfold classify.
  pose proof (strcmp_zero_iff t _GPRMCterm) as H1.
  pose proof (strcmp_zero_iff t _GNRMCterm) as H2.
  pose proof (strcmp_zero_iff t _GPGGAterm) as H3.
  pose proof (strcmp_zero_iff t _GNGGAterm) as H4.
  change (cstr _GPRMCterm) with _GPRMCterm in H1.
  change (cstr _GNRMCterm) with _GNRMCterm in H2.
  change (cstr _GPGGAterm) with _GPGGAterm in H3.
  change (cstr _GNGGAterm) with _GNGGAterm in H4.
  assert (D1 : _GPRMCterm <> _GPGGAterm) by discriminate.
  assert (D2 : _GPRMCterm <> _GNGGAterm) by discriminate.
  assert (D3 : _GNRMCterm <> _GPGGAterm) by discriminate.
  assert (D4 : _GNRMCterm <> _GNGGAterm) by discriminate.
  assert (K1 : GPS_SENTENCE_GPRMC <> GPS_SENTENCE_GPGGA) by discriminate.
  assert (K2 : GPS_SENTENCE_GPRMC <> GPS_SENTENCE_OTHER) by discriminate.
  assert (K3 : GPS_SENTENCE_GPGGA <> GPS_SENTENCE_OTHER) by discriminate.
  destruct (Z.eqb_spec (strcmp t _GPRMCterm) 0) as [E1|E1];
    destruct (Z.eqb_spec (strcmp t _GNRMCterm) 0) as [E2|E2];
    destruct (Z.eqb_spec (strcmp t _GPGGAterm) 0) as [E3|E3];
    destruct (Z.eqb_spec (strcmp t _GNGGAterm) 0) as [E4|E4];
    cbn [orb]; intuition congruence.
Qed.

(** ** The candidate run of a sorted registry *)

Lemma stageEntry_other head tm cur p :
  strcmp (entryName p) head <> 0 \/ entryTerm p <> cur ->
  stageEntry head tm cur p = p.
Proof.
  unfold stageEntry. intros [H|H].
  - apply Z.eqb_neq in H. now rewrite H.
  - apply Z.eqb_neq in H. rewrite H. now rewrite andb_false_r.
Qed.

Lemma map_fixed {A : Type} (f : A -> A) l :
  (forall x, In x l -> f x = x) -> map f l = l.
Proof.
  induction l as [|y l IH]; intros H; cbn [map]; [reflexivity|].
  rewrite H by now left. f_equal. apply IH. intros x Hx. apply H. now right.
Qed.

(** On a sorted run whose names are not below [head], the staging loop
    stages every entry named [head] with the current term number. *)
Lemma setCandidates_sorted head tm cur l :
  StronglySorted entryLe l ->
  Forall (fun x => strcmp head (entryName x) <= 0) l ->
  setCandidates head tm cur l = map (stageEntry head tm cur) l.
Proof.
  induction 1 as [|p l Hl IH Hp]; intros Hge; [reflexivity|].
  inversion Hge as [|? ? Hgp Hgl]; subst.
  cbn [setCandidates map].
  destruct (Z.eqb_spec (strcmp (TinyGPSCustom.sentenceName p) head) 0) as [En|En];
    [destruct (Z.leb_spec (TinyGPSCustom.termNumber p) cur) as [Et|Et]|];
    cbn [andb].
  - rewrite (IH Hgl). f_equal. unfold stageEntry, entryName, entryTerm.
    rewrite En. change (0 =? 0) with true. reflexivity.
  - (* the term number of [p] is above the current one *)
    f_equal.
    + symmetry. apply stageEntry_other. right. unfold entryTerm. lia.
    + symmetry. apply map_fixed.
      intros x Hx. apply stageEntry_other.
      rewrite Forall_forall in Hp. specialize (Hp x Hx).
      destruct Hp as [Hlt | [Heq Hle]].
      * left. unfold entryName in *.
        rewrite (strcmp_antisym head), <- (strcmp_eq_l _ _ _ En). lia.
      * right. unfold entryTerm in *. lia.
  - (* the name of [p] is above [head] *)
    assert (Hlt : strcmp head (entryName p) < 0).
    { unfold entryName in *.
      rewrite (strcmp_antisym head) in En. lia. }
    f_equal.
    + symmetry. apply stageEntry_other. now left.
    + symmetry. apply map_fixed.
      intros x Hx. apply stageEntry_other. left.
      rewrite Forall_forall in Hp. specialize (Hp x Hx).
      assert (Hpx : strcmp (entryName p) (entryName x) <= 0)
        by (unfold entryLe in Hp; lia).
      pose proof (strcmp_lt_le_trans _ _ _ Hlt Hpx) as Hhx.
      rewrite (strcmp_antisym head). lia.
Qed.

(** On such a run, an entry named [head] is in the part that a commit
    covers. *)
Lemma sameNamePrefix_sorted head l : forall m e,
  StronglySorted entryLe l ->
  Forall (fun x => strcmp head (entryName x) <= 0) l ->
  nth_error l m = Some e ->
  strcmp (entryName e) head = 0 ->
  nth_error (sameNamePrefix head l) m = Some e.
Proof.
  induction l as [|p l IH]; intros m e Hs Hge Hm He; [now destruct m|].
  inversion Hs as [|? ? Hl Hp]; subst.
  inversion Hge as [|? ? Hgp Hgl]; subst.
  destruct m as [|m]; cbn [nth_error] in Hm.
  - injection Hm as ->. cbn [sameNamePrefix]. rewrite He. reflexivity.
  - assert (Hpe : entryLe p e).
    { rewrite Forall_forall in Hp. apply Hp. eapply nth_error_In; eauto. }
    assert (En : strcmp (entryName p) head = 0).
    { assert (H1 : strcmp (entryName p) (entryName e) <= 0)
        by (unfold entryLe in Hpe; lia).
      rewrite (strcmp_eq_r _ _ (entryName p) He) in H1.
      rewrite (strcmp_antisym (entryName p) head) in Hgp. lia. }
    cbn [sameNamePrefix]. rewrite En. change (0 =? 0) with true.
    cbn [nth_error]. now apply IH.
Qed.

Lemma nth_error_skipn_cons {A : Type} (l : list A) : forall k x,
  nth_error l k = Some x -> skipn k l = x :: skipn (S k) l.
Proof.
  induction l as [|y l IH]; intros [|k] x H; cbn in *; try discriminate.
  - now injection H as ->.
  - now apply IH.
Qed.

Lemma nth_error_from {A : Type} (l : list A) : forall k m,
  nth_error (skipn k l) m = nth_error l (k + m).
Proof.
  induction l as [|y l IH]; intros [|k] m; cbn [skipn Nat.add nth_error];
    try reflexivity.
  - now destruct m.
  - apply IH.
Qed.

Lemma strongly_sorted_skipn l : forall k,
  StronglySorted entryLe l -> StronglySorted entryLe (skipn k l).
Proof.
  induction l as [|y l IH]; intros [|k] H; cbn [skipn]; try assumption.
  apply IH. now inversion H.
Qed.

(** The run that starts at the candidate pointer of a sorted registry. *)
Lemma candidate_run_sorted elts k first :
  Sorted entryLe elts ->
  nth_error elts k = Some first ->
  skipn k elts = first :: skipn (S k) elts
  /\ StronglySorted entryLe (skipn k elts)
  /\ Forall (fun x => strcmp (entryName first) (entryName x) <= 0)
       (skipn k elts).
Proof.
  intros Hs Hk.
  pose proof (nth_error_skipn_cons elts k first Hk) as Hskip.
  pose proof (strongly_sorted_skipn elts k (sorted_strongly elts Hs)) as Hss.
  split; [exact Hskip|]. split; [exact Hss|].
  rewrite Hskip in Hss |- *. inversion Hss as [|? ? _ Hall]; subst.
  constructor.
  - rewrite strcmp_refl. lia.
  - eapply Forall_impl; [|exact Hall]. unfold entryLe. intros x Hx. cbv beta in Hx. lia.
Qed.

(** What the custom staging does to an entry at or after the candidate
    pointer of a sorted registry. *)
Lemma setCustoms_sorted_nth g k first j e :
  registrySorted g ->
  customCandidates g = Some k ->
  nth_error (customElts g) k = Some first ->
  (k <= j)%nat ->
  nth_error (customElts g) j = Some e ->
  nth_error (customElts (setCustoms g)) j
  = Some (stageEntry (entryName first) (term g) (curTermNumber g) e).
Proof.
  intros Hs Hc Hk Hkj Hj.
  destruct (candidate_run_sorted _ _ _ Hs Hk) as (Hskip & Hss & Hge).
  unfold setCustoms. rewrite Hc, Hskip.
  change (customElts (set_customElts ?x g)) with x.
  rewrite <- Hskip.
  change (TinyGPSCustom.sentenceName first) with (entryName first).
  rewrite (setCandidates_sorted _ _ _ _ Hss Hge).
  assert (Hlen : length (firstn k (customElts g)) = k).
  { apply firstn_length_le. apply Nat.lt_le_incl.
    apply nth_error_Some. congruence. }
  rewrite nth_error_app2 by lia. rewrite Hlen.
  rewrite nth_error_map, nth_error_from.
  replace (k + (j - k))%nat with j by lia. now rewrite Hj.
Qed.

(** ** Custom fields along a sentence *)

Lemma cstr_app_NUL w junk : cstr (w ++ NUL :: junk) = cstr w.
Proof.
  induction w as [|c w IH]; [reflexivity|].
  cbn [app cstr]. now rewrite IH.
Qed.

Lemma length_cstr s : (length (cstr s) <= length s)%nat.
Proof.
  induction s as [|c s IH]; cbn [cstr length]; [lia|].
  destruct (c =c NUL); cbn [length]; lia.
Qed.

Lemma cstr_strncpy dst src :
  (length (cstr src) < S _GPS_MAX_FIELD_SIZE)%nat ->
  cstr (strncpy dst src (S _GPS_MAX_FIELD_SIZE)) = cstr src.
Proof.
  unfold strncpy, _GPS_MAX_FIELD_SIZE. intros H.
  rewrite (firstn_all2 (n := 16) (cstr src)) by lia.
  replace (16 - length (cstr src))%nat
    with (S (15 - length (cstr src))) by lia.
  cbn [repeat app]. apply cstr_terminated.
Qed.

Lemma stageEntry_key head tm cur p :
  entryKey (stageEntry head tm cur p) = entryKey p
  /\ TinyGPSCustom.published (stageEntry head tm cur p)
     = TinyGPSCustom.published p.
Proof. unfold stageEntry. now destruct (_ && _). Qed.

Lemma stageEntry_text head w junk cur p :
  strcmp (entryName p) head = 0 ->
  cstr (TinyGPSCustom.stagingBuffer
          (stageEntry head (termText w ++ NUL :: junk) cur p))
  = if entryTerm p =? cur then cstr (termText w)
    else cstr (TinyGPSCustom.stagingBuffer p).
Proof.
  intros Hn. unfold stageEntry. rewrite Hn. change (0 =? 0) with true.
  cbn [andb]. destruct (entryTerm p =? cur); [|reflexivity].
  cbn [TinyGPSCustom.set TinyGPSCustom.stagingBuffer].
  rewrite cstr_strncpy; rewrite cstr_app_NUL; [reflexivity|].
  pose proof (length_cstr (termText w)). pose proof (length_termText w).
  unfold _GPS_MAX_FIELD_SIZE. lia.
Qed.

Lemma keys_nth l l' k first :
  map entryKey l' = map entryKey l ->
  nth_error l k = Some first ->
  exists first', nth_error l' k = Some first' /\ entryKey first' = entryKey first.
Proof.
  intros Hm Hk.
  assert (H : nth_error (map entryKey l') k = Some (entryKey first)).
  { rewrite Hm, nth_error_map, Hk. reflexivity. }
  rewrite nth_error_map in H.
  destruct (nth_error l' k) as [first'|]; [|discriminate].
  exists first'. split; [reflexivity|]. cbn [option_map] in H. congruence.
Qed.

(** One data field of a sentence with candidates. *)
Lemma custom_field_step i k keys g f d first :
  atCustomField i k keys g ->
  1 <= i <= 254 ->
  registrySorted g ->
  forallb ordinary f = true ->
  d = ","%char \/ d = "*"%char ->
  nth_error (customElts g) k = Some first ->
  let g' := feed millis g (f ++ [d]) in
  let tm := termText f ++ NUL :: skipn (S (length (termText f))) (term g) in
  wellFormed g'
  /\ curTermOffset g' = 0
  /\ isChecksumTerm g' = (d =c "*"%char)
  /\ curTermNumber g' = i + 1
  /\ customCandidates g' = Some k
  /\ registryKeys g' = keys
  /\ forall j e, (k <= j)%nat -> nth_error (customElts g) j = Some e ->
       nth_error (customElts g') j
       = Some (stageEntry (entryName first) tm i e).
Proof.
  intros (Hwf & Hoff & Hc & Hn & Hcc & Hkeys) Hi Hs Hord Hd Hk g' tm.
  assert (Ht : isTermTerminator d = true) by (destruct Hd; now subst d).
  subst g'. rewrite feed_app. cbn [feed].
  pose proof (term_atEndOfTerm g f d Hwf Hoff Hord) as Hterm. fold tm in Hterm.
  pose proof (feed_wellFormed f g Hwf) as Hwf1.
  pose proof (feed_ordinary f g Hord) as Hg1.
  destruct (afterOrdinary_frame f g)
    as (_ & _ & Hr1 & Hc1 & _ & Hn1 & _ & He1 & Hcc1 & _).
  rewrite <- Hg1 in Hr1, Hc1, Hn1, He1, Hcc1.
  set (g1 := feed millis g f) in *.
  pose proof (encode_wellFormed d g1 Hwf1) as Hwf2.
  pose proof (encode_isChecksumTerm d g1) as Hc2. rewrite Ht in Hc2.
  pose proof (encode_registryKeys d g1) as Hr2.
  destruct Hwf1 as [Hlen1 Hoff1].
  destruct (encode_terminator_parsing d g1 Ht ltac:(lia)) as (_ & Hn2 & Hoff2).
  destruct (atEndOfTerm_frame d g1)
    as (_ & _ & _ & Hc3 & _ & Hn3 & _ & _ & He3 & Hcc3 & _).
  split; [exact Hwf2|]. split; [exact Hoff2|]. split; [exact Hc2|].
  split. { rewrite Hn2, Hn1, Hn. unfold to_uint8. apply Z.mod_small. lia. }
  assert (Henc : snd (encode millis d g1)
                 = nextTerm d (setCustoms (setNative (atEndOfTerm d g1)))).
  { rewrite encode_terminator by (assumption || lia).
    rewrite endOfTermHandler_data by (rewrite ?Hn3; congruence || lia).
    reflexivity. }
  set (G := atEndOfTerm d g1) in *.
  destruct (setNative_frame G) as (Hp4 & _ & _ & He4 & Hcc4 & _).
  destruct (setCustoms_frame (setNative G))
    as (_ & _ & _ & _ & _ & Hcc5 & _).
  assert (Hnext : forall h, customElts (nextTerm d h) = customElts h
                            /\ customCandidates (nextTerm d h) = customCandidates h)
    by (now intros []).
  split. { rewrite Henc. destruct (Hnext (setCustoms (setNative G))) as [_ ->].
           congruence. }
  split; [congruence|].
  intros j e Hkj Hj. rewrite Henc.
  destruct (Hnext (setCustoms (setNative G))) as [-> _].
  assert (HeG : customElts (setNative G) = customElts g) by congruence.
  unfold parsing in Hp4.
  assert (HtG : term (setNative G) = tm) by congruence.
  assert (HnG : curTermNumber (setNative G) = i) by congruence.
  rewrite (setCustoms_sorted_nth (setNative G) k first j e).
  - now rewrite HtG, HnG.
  - unfold registrySorted. now rewrite HeG.
  - congruence.
  - now rewrite HeG.
  - exact Hkj.
  - now rewrite HeG.
Qed.

Lemma nth_field_shift (f : list ascii) l i tn :
  i < tn ->
  nth (Z.to_nat (tn - i)) (f :: l) [] = nth (Z.to_nat (tn - (i + 1))) l [].
Proof.
  intros H.
  replace (Z.to_nat (tn - i)) with (S (Z.to_nat (tn - (i + 1)))) by lia.
  reflexivity.
Qed.

Lemma entryKey_inv e e' :
  entryKey e' = entryKey e ->
  entryName e' = entryName e /\ entryTerm e' = entryTerm e.
Proof. unfold entryKey. intros H. split; congruence. Qed.

Lemma sorted_registryKeys g g' :
  registryKeys g' = registryKeys g -> registrySorted g -> registrySorted g'.
Proof. intros Hk Hs. exact (sorted_by_keys _ _ Hk Hs). Qed.

(** The data fields of a sentence with candidates, up to the ['*'] that
    ends the last one: the entry at position [j] of the candidate run
    holds the text of the field that its term number designates. *)
Lemma custom_fields k keys j fs : forall i g e first,
  atCustomField i k keys g ->
  1 <= i -> i + Z.of_nat (length fs) <= 255 -> fs <> [] ->
  registrySorted g ->
  forallb (forallb ordinary) fs = true ->
  nth_error (customElts g) k = Some first ->
  (k <= j)%nat ->
  nth_error (customElts g) j = Some e ->
  strcmp (entryName e) (entryName first) = 0 ->
  let g' := feed millis g (joined fs ++ ["*"%char]) in
  wellFormed g' /\ curTermOffset g' = 0 /\ isChecksumTerm g' = true
  /\ customCandidates g' = Some k
  /\ registryKeys g' = keys
  /\ exists e' first',
       nth_error (customElts g') j = Some e'
       /\ nth_error (customElts g') k = Some first'
       /\ entryKey first' = entryKey first
       /\ entryKey e' = entryKey e
       /\ cstr (TinyGPSCustom.stagingBuffer e')
          = if (i <=? entryTerm e) && (entryTerm e <? i + Z.of_nat (length fs))
            then cstr (termText (nth (Z.to_nat (entryTerm e - i)) fs []))
            else cstr (TinyGPSCustom.stagingBuffer e).
Proof.
  induction fs as [|f fs IH];
    intros i g e first Hat Hi Hlen Hne Hs Hord Hk Hkj Hj Hnm g';
    [contradiction|].
  cbn [forallb] in Hord. apply andb_true_iff in Hord as [Hf Hord].
  cbn [length] in Hlen. rewrite Nat2Z.inj_succ in Hlen.
  destruct fs as [|f2 fs].
  - subst g'. cbn [joined].
    destruct (custom_field_step i k keys g f "*"%char first Hat ltac:(cbn [length] in Hlen; lia)
                Hs Hf (or_intror eq_refl) Hk)
      as (H1 & H2 & H3 & _ & H5 & H6 & Hnth).
    repeat (split; [assumption|]).
    eexists. eexists.
    split; [exact (Hnth j e Hkj Hj)|].
    split; [exact (Hnth k first (le_n k) Hk)|].
    split; [apply stageEntry_key|]. split; [apply stageEntry_key|].
    rewrite (stageEntry_text _ _ _ _ _ Hnm). cbn [length].
    destruct (Z.eqb_spec (entryTerm e) i) as [->|Hne'].
    + rewrite Z.leb_refl. replace (i <? i + Z.of_nat 1) with true
        by (symmetry; apply Z.ltb_lt; lia).
      now rewrite Z.sub_diag.
    + destruct (Z.leb_spec i (entryTerm e)); [|reflexivity].
      destruct (Z.ltb_spec (entryTerm e) (i + Z.of_nat 1)); [lia | reflexivity].
  - subst g'.
    change (joined (f :: f2 :: fs)) with (f ++ ","%char :: joined (f2 :: fs)).
    rewrite <- app_assoc. cbn [app].
    change (f ++ ","%char :: joined (f2 :: fs) ++ ["*"%char])
      with (f ++ [","%char] ++ (joined (f2 :: fs) ++ ["*"%char])).
    rewrite app_assoc, feed_app.
    destruct (custom_field_step i k keys g f ","%char first Hat
                ltac:(cbn [length] in Hlen; lia)
                Hs Hf (or_introl eq_refl) Hk)
      as (H1 & H2 & H3 & H4 & H5 & H6 & Hnth).
    change (","%char =c "*"%char) with false in H3.
    set (g1 := feed millis g (f ++ [","%char])) in *.
    set (tm := termText f ++ NUL :: skipn (S (length (termText f))) (term g)) in *.
    assert (Hat1 : atCustomField (i + 1) k keys g1) by (repeat split; assumption || apply H1).
    assert (Hs1 : registrySorted g1).
    { apply (sorted_registryKeys g); [|exact Hs].
      destruct Hat as (_ & _ & _ & _ & _ & Hkeys). congruence. }
    pose proof (Hnth j e Hkj Hj) as Hj1.
    pose proof (Hnth k first (le_n k) Hk) as Hk1.
    destruct (stageEntry_key (entryName first) tm i e) as [Ke _].
    destruct (stageEntry_key (entryName first) tm i first) as [Kf _].
    destruct (entryKey_inv _ _ Ke) as [Ne Te].
    destruct (entryKey_inv _ _ Kf) as [Nf _].
    destruct (IH (i + 1) g1 _ _ Hat1 ltac:(lia) ltac:(lia) ltac:(discriminate)
                Hs1 Hord Hk1 Hkj Hj1 ltac:(rewrite Ne, Nf; exact Hnm))
      as (G1 & G2 & G3 & G4 & G5 & e' & first' & E1 & E2 & E3 & E4 & E5).
    repeat (split; [assumption|]).
    exists e', first'.
    split; [exact E1|]. split; [exact E2|].
    split; [congruence|]. split; [congruence|].
    rewrite E5, Te. unfold tm. rewrite (stageEntry_text _ _ _ _ _ Hnm).
    set (n := Z.of_nat (length (f2 :: fs))).
    assert (Hn : Z.of_nat (length (f :: f2 :: fs)) = n + 1)
      by (subst n; cbn [length]; lia).
    rewrite Hn.
    destruct (Z.eqb_spec (entryTerm e) i) as [E|E].
    + rewrite E, Z.leb_refl.
      replace (i + 1 <=? i) with false by (symmetry; apply Z.leb_gt; lia).
      replace (i <? i + (n + 1)) with true
        by (symmetry; apply Z.ltb_lt; subst n; lia).
      cbn [andb]. now rewrite Z.sub_diag.
    + destruct (Z.leb_spec (i + 1) (entryTerm e)) as [L|L];
        destruct (Z.leb_spec i (entryTerm e)) as [L'|L']; try lia; cbn [andb];
        [|reflexivity].
      replace (entryTerm e <? i + (n + 1)) with (entryTerm e <? i + 1 + n)
        by (f_equal; lia).
      destruct (entryTerm e <? i + 1 + n); [|reflexivity].
      now rewrite (nth_field_shift f (f2 :: fs) i (entryTerm e)) by lia.
Qed.

(** The body of a sentence has no ['*'], no ['$'] and no line end. *)
Lemma ordinary_plain c :
  ordinary c = true ->
  notStar c = true /\ notDollar c = true /\ lineEnd c = false.
Proof.
  unfold ordinary, isTermTerminator, notStar, notDollar, lineEnd.
  destruct (c =c ","%char), (c =c CR), (c =c LF), (c =c "*"%char),
    (c =c "$"%char); cbn; intros H; try discriminate; auto.
Qed.

Lemma plain_text s :
  forallb (fun c => ordinary c || (c =c ","%char)) s = true ->
  forallb notStar s = true /\ forallb notDollar s = true /\ covered s = s.
Proof.
  induction s as [|c s IH]; cbn [forallb]; [now repeat split|].
  intros H. apply andb_true_iff in H as [Hc Hs].
  destruct (IH Hs) as (I1 & I2 & I3).
  assert (Hp : notStar c = true /\ notDollar c = true /\ lineEnd c = false).
  { apply orb_true_iff in Hc as [Hc|Hc]; [now apply ordinary_plain|].
    apply Ascii.eqb_eq in Hc. subst c. now repeat split. }
  destruct Hp as (P1 & P2 & P3).
  unfold covered in *. cbn [filter]. rewrite P1, P2, P3, I1, I2. cbn [negb andb].
  now rewrite I3.
Qed.

Lemma sentenceBody_plain name fields :
  forallb ordinary name = true ->
  forallb (forallb ordinary) fields = true ->
  forallb (fun c => ordinary c || (c =c ","%char)) (sentenceBody name fields)
  = true.
Proof.
  intros Hn Hf. unfold sentenceBody. rewrite forallb_app. apply andb_true_iff.
  split.
  - rewrite forallb_forall in *. intros c Hc. now rewrite (Hn c Hc).
  - induction fields as [|f r IH]; [reflexivity|].
    cbn [forallb] in Hf. apply andb_true_iff in Hf as [Hf Hr].
    cbn [map concat app forallb]. rewrite forallb_app.
    change (","%char =c ","%char) with true. rewrite orb_true_r. cbn [andb].
    apply andb_true_iff. split; [|now apply IH].
    rewrite forallb_forall in *. intros c Hc. now rewrite (Hf c Hc).
Qed.

(** The accumulator when the checksum term starts. *)
Lemma sentence_parity g0 name fields :
  forallb ordinary name = true ->
  forallb (forallb ordinary) fields = true ->
  parity (feed millis g0 ("$"%char :: sentenceBody name fields ++ ["*"%char]))
  = xorAll (sentenceBody name fields).
Proof.
  intros Hn Hf.
  destruct (plain_text _ (sentenceBody_plain name fields Hn Hf))
    as (P1 & P2 & P3).
  cbn [feed]. rewrite encode_dollar. cbn [snd]. rewrite feed_app. cbn [feed].
  rewrite encode_parity.
  change (isTermTerminator "*"%char) with true. cbv iota.
  change ("*"%char =c ","%char) with false. cbv iota.
  rewrite feed_parity_body by (assumption || reflexivity).
  now rewrite P3.
Qed.

(** The name of a sentence for which the sorted registry has an entry. *)
Lemma custom_name_step g0 name d j e :
  wellFormed g0 -> registrySorted g0 ->
  forallb ordinary name = true ->
  d = ","%char \/ d = "*"%char ->
  nth_error (customElts g0) j = Some e ->
  strcmp (entryName e) (termText name) = 0 ->
  let g1 := feed millis g0 ("$"%char :: name ++ [d]) in
  exists k first,
    (k <= j)%nat
    /\ nth_error (customElts g0) k = Some first
    /\ strcmp (entryName first) (termText name) = 0
    /\ wellFormed g1
    /\ curTermOffset g1 = 0
    /\ isChecksumTerm g1 = (d =c "*"%char)
    /\ curTermNumber g1 = 1
    /\ customCandidates g1 = Some k
    /\ customElts g1 = customElts g0.
Proof.
  intros Hwf Hs Hord Hd Hj Hnm g1.
  assert (Ht : isTermTerminator d = true) by (destruct Hd; now subst d).
  pose proof (feed_wellFormed ("$"%char :: name ++ [d]) g0 Hwf) as Hwf1.
  fold g1 in Hwf1.
  destruct (feed_sentence_name g0 name d Hwf Hord Ht)
    as (Henc & _ & _ & _ & He & _).
  assert (Hg : g1 = snd (encode millis d (feed millis g0 ("$"%char :: name)))).
  { subst g1. change ("$"%char :: name ++ [d]) with (("$"%char :: name) ++ [d]).
    now rewrite feed_app. }
  rewrite Henc in Hg. cbn [snd] in Hg.
  rewrite findCandidates_scanThenCheck, scanThenCheck_terminated,
    (scanThenCheck_sorted _ _ _ Hs) in Hg.
  set (G := atEndOfTerm d (feed millis g0 ("$"%char :: name))) in *.
  assert (Hn : curTermNumber G = 0).
  { subst G. cbn [feed]. rewrite encode_dollar. cbn [snd].
    rewrite feed_ordinary by assumption.
    destruct (atEndOfTerm_frame d (afterOrdinary name (afterDollar g0)))
      as (_ & _ & _ & _ & _ & -> & _).
    now destruct (afterOrdinary_frame name (afterDollar g0))
      as (_ & _ & _ & _ & _ & -> & _). }
  destruct (firstNamed (termText name) (customElts g0) 0) as [k|] eqn:Hfirst.
  2:{ exfalso. apply firstNamed_none in Hfirst.
      rewrite Forall_forall in Hfirst.
      exact (Hfirst e (nth_error_In _ _ Hj) Hnm). }
  destruct (firstNamed_some _ _ _ _ Hfirst) as (_ & first & Hk & Hkn & Hbefore).
  rewrite Nat.sub_0_r in Hk, Hbefore.
  exists k, first.
  split.
  { destruct (Nat.le_gt_cases k j) as [|Hlt]; [assumption|].
    exfalso. exact (Hbefore j e Hlt Hj Hnm). }
  split; [exact Hk|]. split; [exact Hkn|]. split; [exact Hwf1|].
  clearbody G g1. subst g1. destruct G. cbn in *. subst.
  repeat split.
Qed.

Lemma countPassed_customs g :
  customElts (countPassed g) = customElts g
  /\ customCandidates (countPassed g) = customCandidates g.
Proof. unfold countPassed. destruct g. cbn. now destruct sentenceHasFix0. Qed.

(** X14.  A custom field registered for a sentence name and a term number
    yields, after a sentence of that name has passed its checksum, the
    text of the data field with that number, as far as the term buffer
    keeps it (its first [_GPS_MAX_FIELD_SIZE - 1] characters); the entry is
    then valid and updated.  The registry is sorted, as registrations leave
    it, the sentence has at most 254 data fields, and the name is compared
    as the term buffer keeps it. *)
Theorem custom_field_round_trip
    (g0 : TinyGPSPlus) (name : list ascii) (fields : list (list ascii))
    (h1 h2 t : ascii) (j : nat) (e : TinyGPSCustom.t) :
  wellFormed g0 ->
  registrySorted g0 ->
  forallb ordinary name = true ->
  forallb (forallb ordinary) fields = true ->
  (length fields <= 254)%nat ->
  nth_error (customElts g0) j = Some e ->
  strcmp (entryName e) (termText name) = 0 ->
  1 <= entryTerm e <= Z.of_nat (length fields) ->
  ordinary h1 = true -> ordinary h2 = true -> lineEnd t = true ->
  hexByte h1 h2 = xorAll (sentenceBody name fields) ->
  let g2 :=
    snd (encode millis t
           (feed millis g0
              ("$"%char :: sentenceBody name fields ++ "*"%char :: [h1; h2]))) in
  exists e',
    nth_error (customElts g2) j = Some e'
    /\ entryKey e' = entryKey e
    /\ TinyGPSCustom.isValid e' = true
    /\ TinyGPSCustom.isUpdated e' = true
    /\ fst (TinyGPSCustom.value e')
       = cstr (termText (nth (Z.to_nat (entryTerm e - 1)) fields [])).
Proof.
  intros Hwf Hs Hname Hord Hlen Hj Hnm Htn H1 H2 Ht Hhex g2.
  destruct fields as [|f r]; [cbn [length] in Htn; lia|].
  pose proof (sentence_parity g0 name (f :: r) Hname Hord) as Hpar.
  (* the name *)
  destruct (custom_name_step g0 name ","%char j e Hwf Hs Hname
              (or_introl eq_refl) Hj Hnm)
    as (k & first & Hkj & Hk & Hkn & W1 & W2 & W3 & W4 & W5 & W6).
  change (","%char =c "*"%char) with false in W3.
  set (g1 := feed millis g0 ("$"%char :: name ++ [","%char])) in *.
  assert (Hat : atCustomField 1 k (registryKeys g0) g1).
  { repeat split; try assumption; try apply W1.
    unfold registryKeys. now rewrite W6. }
  assert (Hs1 : registrySorted g1) by (unfold registrySorted; now rewrite W6).
  assert (Hee : strcmp (entryName e) (entryName first) = 0).
  { rewrite (strcmp_eq_r _ _ (entryName e) Hkn). exact Hnm. }
  (* the data fields *)
  rewrite <- W6 in Hk, Hj.
  destruct (custom_fields k (registryKeys g0) j (f :: r) 1 g1 e first Hat
              ltac:(lia) ltac:(lia) ltac:(discriminate) Hs1 Hord Hk Hkj Hj Hee)
    as (F1 & F2 & F3 & F4 & F5 & e1 & first1 & E1 & E2 & E3 & E4 & E5).
  assert (Hgs : feed millis g1 (joined (f :: r) ++ ["*"%char])
                = feed millis g0
                    ("$"%char :: sentenceBody name (f :: r) ++ ["*"%char])).
  { subst g1. rewrite <- feed_app. f_equal. unfold sentenceBody.
    cbn [map concat app]. rewrite <- (joined_concat r f).
    cbn [app]. f_equal. now rewrite <- !app_assoc. }
  rewrite Hgs in F1, F2, F3, F4, F5, E1, E2.
  set (gs := feed millis g0
               ("$"%char :: sentenceBody name (f :: r) ++ ["*"%char])) in *.
  assert (Hin : (1 <=? entryTerm e)
                && (entryTerm e <? 1 + Z.of_nat (length (f :: r))) = true).
  { apply andb_true_iff. split; [apply Z.leb_le | apply Z.ltb_lt]; lia. }
  rewrite Hin in E5. clear Hin.
  (* the checksum term *)
  assert (Hg2 : g2 = snd (encode millis t (feed millis gs [h1; h2]))).
  { subst g2 gs. rewrite <- feed_app. do 3 f_equal. cbn [app]. f_equal.
    now rewrite <- app_assoc. }
  destruct (checksum_commit gs h1 h2 t F1 F2 F3 H1 H2 Ht ltac:(congruence))
    as (G & Henc & _ & _ & _ & He & Hc & _).
  rewrite Henc in Hg2. cbn [snd] in Hg2.
  set (X := commitNative millis (countPassed G)) in *.
  assert (HX : customElts X = customElts gs /\ customCandidates X = Some k).
  { subst X.
    destruct (commitNative_frame (countPassed G))
      as (_ & _ & _ & _ & -> & -> & _).
    destruct (countPassed_customs G) as [-> ->]. split; congruence. }
  destruct HX as [HXe HXc].
  assert (Hss : registrySorted gs).
  { apply (sorted_registryKeys g0); assumption. }
  destruct (candidate_run_sorted _ _ _ Hss E2) as (Hskip & Hstrong & Hge).
  destruct (entryKey_inv _ _ E3) as [N3 _].
  destruct (entryKey_inv _ _ E4) as [N4 T4].
  assert (Hrun : nth_error (candidateRun k (customElts X)) (j - k) = Some e1).
  { unfold candidateRun. rewrite HXe, Hskip. rewrite <- Hskip.
    apply sameNamePrefix_sorted; try assumption.
    - rewrite nth_error_from. now replace (k + (j - k))%nat with j by lia.
    - rewrite N3, N4. exact Hee. }
  pose proof (commitCustoms_run X k (j - k) e1 HXc Hrun) as Hcommit.
  replace (k + (j - k))%nat with j in Hcommit by lia.
  exists (TinyGPSCustom.commit (millis (clockReads X + (j - k))) e1).
  split.
  { rewrite Hg2.
    assert (Hnext : forall h, customElts (nextTerm t h) = customElts h)
      by (now intros []).
    rewrite Hnext. exact Hcommit. }
  split; [exact E4|].
  split; [reflexivity|]. split; [reflexivity|].
  cbn [TinyGPSCustom.value TinyGPSCustom.commit TinyGPSCustom.buffer fst].
  now rewrite cstr_strcpy, E5.
Qed.

(** ** Sentences that are not recognized *)

Lemma setNative_other g :
  curSentenceType g = GPS_SENTENCE_OTHER -> setNative g = g.
Proof. intros H. unfold setNative. now rewrite H. Qed.

Lemma commitNative_other g :
  curSentenceType g = GPS_SENTENCE_OTHER -> commitNative millis g = g.
Proof. intros H. unfold commitNative. now rewrite H. Qed.

(** One character of a sentence of kind [GPS_SENTENCE_OTHER], past the
    sentence name. *)
Lemma encode_other c g :
  wellFormed g ->
  curSentenceType g = GPS_SENTENCE_OTHER ->
  (c =c "$"%char) = false ->
  isChecksumTerm g = true \/ curTermNumber g <> 0 ->
  natives (snd (encode millis c g)) = natives g
  /\ curSentenceType (snd (encode millis c g)) = GPS_SENTENCE_OTHER.
Proof.
  intros [Hlen Hoff] Hk Hd Hn.
  destruct (isTermTerminator c) eqn:Ht.
  - rewrite encode_terminator by (assumption || lia). cbn [snd].
    destruct (atEndOfTerm_frame c g)
      as (_ & _ & _ & Hc1 & Hk1 & Hn1 & _ & _ & _ & _ & Hnat1 & _).
    set (G := atEndOfTerm c g) in *.
    assert (Hnext : forall h, natives (nextTerm c h) = natives h
                              /\ curSentenceType (nextTerm c h) = curSentenceType h)
      by (now intros []).
    destruct (Hnext (snd (endOfTermHandler millis G))) as [-> ->].
    split.
    + rewrite <- Hnat1.
      destruct (isChecksumTerm G) eqn:Hc.
      * destruct (Z.eq_dec (termChecksum (term G)) (parity G)) as [E|E].
        -- rewrite (endOfTermHandler_match G Hc E). cbn [snd].
           fold (countPassed G).
           destruct (countPassed_frame G) as (Hp1 & Hp2 & _).
           rewrite commitNative_other by congruence.
           now destruct (commitCustoms_frame (countPassed G))
             as (_ & _ & _ & _ & -> & _).
        -- rewrite (endOfTermHandler_mismatch G Hc E). cbn [snd].
           now destruct G.
      * rewrite endOfTermHandler_data
          by (assumption || (destruct Hn; congruence)).
        cbn [snd]. rewrite setNative_other by congruence.
        now destruct (setCustoms_frame G) as (_ & _ & _ & _ & -> & _).
    + rewrite endOfTermHandler_type, Hk1, Hk.
      destruct (isChecksumTerm G) eqn:Hc; [reflexivity|].
      cbn [negb andb].
      destruct (Z.eqb_spec (curTermNumber G) 0) as [E|_]; [|reflexivity].
      destruct Hn; congruence.
  - rewrite encode_ordinary by (unfold ordinary; now rewrite Ht, Hd).
    cbn [snd].
    destruct (afterOrdinary_frame [c] g)
      as (_ & _ & _ & _ & -> & _ & _ & _ & _ & -> & _).
    now split.
Qed.

Lemma feed_other rest : forall g,
  wellFormed g ->
  curSentenceType g = GPS_SENTENCE_OTHER ->
  forallb notDollar rest = true ->
  1 <= curTermNumber g ->
  curTermNumber g + terminators rest <= 255 ->
  natives (feed millis g rest) = natives g.
Proof.
  induction rest as [|c rest IH]; intros g Hwf Hk Hd Hn Hcount; [reflexivity|].
  cbn [forallb] in Hd. apply andb_true_iff in Hd as [Hc Hd].
  unfold notDollar in Hc. apply negb_true_iff in Hc.
  cbn [feed].
  destruct (encode_other c g Hwf Hk Hc ltac:(right; lia)) as [Hnat Hk'].
  rewrite <- Hnat.
  assert (Hn' : curTermNumber (snd (encode millis c g))
                = if isTermTerminator c then curTermNumber g + 1
                  else curTermNumber g).
  { destruct (isTermTerminator c) eqn:Ht.
    - destruct Hwf as [Hlen Hoff].
      destruct (encode_terminator_parsing c g Ht ltac:(lia)) as (_ & -> & _).
      unfold to_uint8. apply Z.mod_small.
      unfold terminators in Hcount. cbn [filter] in Hcount.
      rewrite Ht in Hcount. cbn [length] in Hcount. lia.
    - rewrite encode_ordinary by (unfold ordinary; now rewrite Ht, Hc).
      cbn [snd].
      now destruct (afterOrdinary_frame [c] g)
        as (_ & _ & _ & _ & _ & -> & _). }
  apply IH; try assumption.
  - now apply encode_wellFormed.
  - rewrite Hn'. destruct (isTermTerminator c); lia.
  - rewrite Hn'. unfold terminators in *. cbn [filter] in Hcount.
    destruct (isTermTerminator c); cbn [length] in Hcount; lia.
Qed.

(** X15.  A sentence whose name is not one of the four recognized names
    leaves the eight native containers as they were, staged values
    included, whatever follows the name up to the next ['$'] and whether or
    not a checksum passes, as long as at most 254 terms follow the name. *)
Theorem unrecognized_sentence_keeps_natives
    (g0 : TinyGPSPlus) (name rest : list ascii) (d : ascii) :
  wellFormed g0 ->
  forallb ordinary name = true ->
  isTermTerminator d = true ->
  classify (termText name) = GPS_SENTENCE_OTHER ->
  forallb notDollar rest = true ->
  terminators rest <= 254 ->
  natives (feed millis g0 ("$"%char :: name ++ d :: rest)) = natives g0.
Proof.
  intros Hwf Hname Hd Hcl Hrest Hcount.
  change ("$"%char :: name ++ d :: rest)
    with (("$"%char :: name) ++ [d] ++ rest).
  rewrite feed_app, feed_app. cbn [feed].
  destruct (feed_sentence_name g0 name d Hwf Hname Hd) as (Henc & _).
  cbn [feed] in Henc.
  set (g := feed millis (snd (encode millis "$"%char g0)) name) in *.
  set (tm := termText name ++ NUL :: skipn (S (length (termText name))) (term g0)) in *.
  assert (Hcl' : classify tm = GPS_SENTENCE_OTHER).
  { subst tm. unfold classify in *. now rewrite !strcmp_terminated_l. }
  assert (Hwf1 : wellFormed (snd (encode millis d g))).
  { apply encode_wellFormed. subst g. apply feed_wellFormed.
    now apply encode_wellFormed. }
  assert (Hn : curTermNumber (atEndOfTerm d g) = 0
               /\ natives (atEndOfTerm d g) = natives g0).
  { subst g. rewrite encode_dollar. cbn [snd].
    rewrite feed_ordinary by assumption.
    destruct (atEndOfTerm_frame d (afterOrdinary name (afterDollar g0)))
      as (_ & _ & _ & _ & _ & -> & _ & _ & _ & _ & -> & _).
    destruct (afterOrdinary_frame name (afterDollar g0))
      as (_ & _ & _ & _ & _ & -> & _ & _ & _ & -> & _).
    split; [reflexivity | now destruct g0]. }
  destruct Hn as [Hn Hnat].
  rewrite Henc in Hwf1 |- *. cbn [snd] in Hwf1 |- *.
  rewrite Hcl' in Hwf1 |- *.
  set (G := atEndOfTerm d g) in *. clearbody G.
  rewrite feed_other; try assumption.
  - now destruct G.
  - destruct G. cbn in *. subst. cbv. discriminate.
  - destruct G. cbn in *. subst.
    change (to_uint8 (0 + 1)) with 1. lia.
Qed.

(** ** Term numbers above 31 *)

(** X16.  The dispatch keys on [(type << 5) | term number], so that data
    field [32 + i] of either recognized kind, for [i] from 1 to 31, is
    dispatched as data field [i] of a position/velocity sentence: it stages
    what that field stages and sets the fix flag as that field does. *)
Theorem dispatch_wraps_at_32 (g : TinyGPSPlus) (kind i : Z) :
  kind = GPS_SENTENCE_GPRMC \/ kind = GPS_SENTENCE_GPGGA ->
  1 <= i <= 31 ->
  curSentenceType g = kind ->
  curTermNumber g = 32 + i ->
  nativeStaged (setNative g)
  = stageTerm GPS_SENTENCE_GPRMC i (term g) (nativeStaged g)
  /\ sentenceHasFix (setNative g)
     = fixAfter GPS_SENTENCE_GPRMC i (term g) (sentenceHasFix g).
Proof.
  intros Hkind Hi Hk Hn.
  unfold setNative, stageTerm, fixAfter, nativeStaged. rewrite Hk, Hn.
  destruct (at_ (term g) 0 =c NUL).
  { rewrite andb_false_r. now split. }
  assert (Hcases : i = 1 \/ i = 2 \/ i = 3 \/ i = 4 \/ i = 5 \/ i = 6 \/ i = 7
            \/ i = 8 \/ i = 9 \/ 10 <= i <= 31) by lia.
  assert (Hrest : 10 <= i <= 31 ->
            i = 10 \/ i = 11 \/ i = 12 \/ i = 13 \/ i = 14 \/ i = 15 \/ i = 16
            \/ i = 17 \/ i = 18 \/ i = 19 \/ i = 20 \/ i = 21 \/ i = 22
            \/ i = 23 \/ i = 24 \/ i = 25 \/ i = 26 \/ i = 27 \/ i = 28
            \/ i = 29 \/ i = 30 \/ i = 31) by lia.
  destruct Hkind; subst kind;
    repeat (destruct Hcases as [->|Hcases]; [split; reflexivity|]);
    specialize (Hrest Hcases);
    repeat (destruct Hrest as [->|Hrest]; [split; reflexivity|]);
    rewrite Hrest; split; reflexivity.
Qed.

(** ** The checksum counters *)

Lemma statistics_nextTerm c h : statistics (nextTerm c h) = statistics h.
Proof. now destruct h. Qed.

(** X17.  Every checksum term is counted exactly once when its terminator
    arrives: as passed when [encode] answers true, as failed otherwise; a
    passed sentence with the fix flag set is also counted as a sentence
    with fix.  No other character changes a counter. *)
Theorem checksum_terms_counted_once (g : TinyGPSPlus) (c : ascii) :
  wellFormed g ->
  let g' := snd (encode millis c g) in
  let ok := fst (encode millis c g) in
  passedChecksum g'
  = (if ok then to_uint32 (passedChecksum g + 1) else passedChecksum g)
  /\ failedChecksum g'
     = (if isTermTerminator c && isChecksumTerm g && negb ok
        then to_uint32 (failedChecksum g + 1) else failedChecksum g)
  /\ sentencesWithFix g'
     = (if ok && sentenceHasFix g
        then to_uint32 (sentencesWithFix g + 1) else sentencesWithFix g).
Proof.
  intros [Hlen Hoff] g' ok. subst g' ok.
  unfold passedChecksum, failedChecksum, sentencesWithFix.
  assert (Hproj : forall a b : TinyGPSPlus, statistics a = statistics b ->
            passedChecksumCount a = passedChecksumCount b
            /\ failedChecksumCount a = failedChecksumCount b
            /\ sentencesWithFixCount a = sentencesWithFixCount b).
  { unfold statistics. intros a b H. repeat split; congruence. }
  destruct (isTermTerminator c && isChecksumTerm g) eqn:Hboth.
  2:{ destruct (encode_quiet c g) as (-> & _ & Hs & _).
      { apply andb_false_iff in Hboth. tauto. }
      destruct (Hproj _ _ Hs) as (-> & -> & ->). cbn [andb]. now repeat split. }
  apply andb_true_iff in Hboth as [Ht Hc].
  rewrite encode_terminator by (assumption || lia). cbn [fst snd].
  destruct (atEndOfTerm_frame c g)
    as (_ & Hs1 & _ & Hc1 & _ & _ & _ & Hf1 & _).
  set (G := atEndOfTerm c g) in *. rewrite Hc in Hc1.
  destruct (Hproj _ _ Hs1) as (<- & <- & <-). rewrite <- Hf1.
  destruct (Hproj _ _ (statistics_nextTerm c (snd (endOfTermHandler millis G))))
    as (-> & -> & ->).
  clearbody G.
  destruct (Z.eq_dec (termChecksum (term G)) (parity G)) as [E|E].
  - rewrite (endOfTermHandler_match G Hc1 E). cbn [fst snd negb andb].
    fold (countPassed G).
    destruct (commitCustoms_frame (commitNative millis (countPassed G)))
      as (_ & _ & _ & Hs2 & _).
    destruct (commitNative_frame (countPassed G)) as (_ & _ & _ & Hs3 & _).
    destruct (Hproj _ _ Hs2) as (-> & -> & ->).
    destruct (Hproj _ _ Hs3) as (-> & -> & ->).
    unfold countPassed. destruct G. cbn. now destruct sentenceHasFix0.
  - rewrite (endOfTermHandler_mismatch G Hc1 E). cbn [fst snd negb andb].
    now destruct G.
Qed.

(** ** Registration *)

Lemma insertCustom_pos_le name tn l :
  (insertCustom_pos name tn l 0 <= length l)%nat.
Proof.
  induction l as [|e l IH]; cbn [insertCustom_pos length]; [lia|].
  destruct (_ || _); [lia|].
  rewrite insertCustom_pos_shift. lia.
Qed.

(** X18.  A registration links the new entry into the registry and leaves
    every entry that is already there as it is, in the same order; the
    entry that the candidate pointer designates is the same entry
    afterwards. *)
Theorem registration_keeps_entries (g : TinyGPSPlus) (name : list ascii) (tn : Z) :
  exists l1 l2,
    customElts g = l1 ++ l2
    /\ customElts (begin name tn g) = l1 ++ TinyGPSCustom.fresh name tn :: l2
    /\ forall k x,
         customCandidates g = Some k ->
         nth_error (customElts g) k = Some x ->
         exists k', customCandidates (begin name tn g) = Some k'
                    /\ nth_error (customElts (begin name tn g)) k' = Some x.
Proof.
  set (k0 := insertCustom_pos name tn (customElts g) 0).
  pose proof (insertCustom_pos_le name tn (customElts g)) as Hk0. fold k0 in Hk0.
  assert (He : customElts (begin name tn g)
               = firstn k0 (customElts g)
                 ++ TinyGPSCustom.fresh name tn :: skipn k0 (customElts g)).
  { unfold begin, insertCustom. fold k0.
    destruct (customCandidates g); [destruct (_ <=? _)%nat|]; reflexivity. }
  exists (firstn k0 (customElts g)), (skipn k0 (customElts g)).
  split; [now rewrite firstn_skipn|]. split; [exact He|].
  intros k x Hc Hx. rewrite He.
  assert (Hlt : (k < length (customElts g))%nat)
    by (apply nth_error_Some; congruence).
  assert (Hlen : length (firstn k0 (customElts g)) = k0)
    by (apply firstn_length_le; exact Hk0).
  unfold begin, insertCustom. fold k0. rewrite Hc.
  destruct (Nat.leb_spec k0 k) as [Hle|Hgt].
  - exists (S k). split; [reflexivity|].
    rewrite nth_error_app2 by lia. rewrite Hlen.
    replace (S k - k0)%nat with (S (k - k0)) by lia. cbn [nth_error].
    rewrite nth_error_from. now replace (k0 + (k - k0))%nat with k by lia.
  - exists k. split; [exact Hc|].
    rewrite nth_error_app1 by lia.
    now rewrite nth_error_firstn, (proj2 (Nat.ltb_lt k k0) Hgt).
Qed.

(** ** Fields that a sentence leaves empty *)

Lemma stageTerm_speed kind i t s :
  stagedSpeed (stageTerm kind i t s)
  = if (kind =? GPS_SENTENCE_GPRMC) && (i =? 7) && present t
    then parseDecimal t else stagedSpeed s.
Proof.
  unfold stageTerm, stagedSpeed, present.
  destruct s as [[[[[[[[lat lng] dt] tm] spd] crs] alt] sat] hd].
  destruct (at_ t 0 =c NUL); cbn [negb]; [now rewrite andb_false_r|].
  rewrite andb_true_r.
  destruct (kind =? GPS_SENTENCE_GPRMC); cbn [andb].
  - destruct (Z.eqb_spec i 7) as [->|H7]; [reflexivity|].
    repeat match goal with
           | |- context [i =? ?k] => destruct (i =? k)
           end; reflexivity.
  - destruct (kind =? GPS_SENTENCE_GPGGA); [|reflexivity].
    repeat match goal with
           | |- context [i =? ?k] => destruct (i =? k)
           end; reflexivity.
Qed.

Lemma stageFields_speed_absent kind fs : forall i s,
  1 <= i ->
  (i <= 7 -> present (nth (Z.to_nat (7 - i)) fs []) = false) ->
  stagedSpeed (stageFields kind i fs s) = stagedSpeed s.
Proof.
  induction fs as [|f fs IH]; intros i s Hi Habs; [reflexivity|].
  rewrite stageFields_cons, IH; [| lia |].
  - rewrite stageTerm_speed.
    destruct (Z.eqb_spec i 7) as [->|H7]; [|now rewrite andb_false_r].
    specialize (Habs ltac:(lia)). cbn in Habs.
    unfold present in *. rewrite at_termText_0, Habs.
    now rewrite andb_false_r.
  - intros Hi'. specialize (Habs ltac:(lia)).
    replace (Z.to_nat (7 - i)) with (S (Z.to_nat (7 - (i + 1)))) in Habs by lia.
    exact Habs.
Qed.

(** X19.  A position/velocity sentence with status ['A'] that passes its
    checksum while its speed field (data field 7) is empty or missing
    marks the speed as valid and updated all the same, and publishes the
    speed that was staged before the sentence. *)
Theorem absent_speed_republishes_staged
    (g0 : TinyGPSPlus) (name : list ascii) (fields : list (list ascii))
    (h1 h2 t : ascii) :
  wellFormed g0 ->
  name = _GPRMCterm \/ name = _GNRMCterm ->
  forallb (forallb ordinary) fields = true ->
  (length fields <= 31)%nat ->
  at_ (nth 1 fields []) 0 = "A"%char ->
  present (nth 6 fields []) = false ->
  ordinary h1 = true -> ordinary h2 = true -> lineEnd t = true ->
  hexByte h1 h2 = xorAll (sentenceBody name fields) ->
  let g2 :=
    snd (encode millis t
           (feed millis g0
              ("$"%char :: sentenceBody name fields ++ "*"%char :: [h1; h2]))) in
  fst (TinyGPSDecimal.value (speed g2)) = TinyGPSDecimal.newval (speed g0)
  /\ TinyGPSDecimal.isValid (speed g2) = true
  /\ TinyGPSDecimal.isUpdated (speed g2) = true.
Proof.
  intros Hwf Hname Hord Hlen Hst Habs H1 H2 Ht Hhex g2.
  assert (Hkind : namesKind GPS_SENTENCE_GPRMC name) by (left; now split).
  destruct (valid_sentence_commit_state g0 _ name fields h1 h2 t Hwf Hkind Hord
              Hlen H1 H2 Ht Hhex) as (Y & Hnat & Hk & Hf & Hstaged).
  fold g2 in Hnat. clearbody g2.
  assert (Hfix : sentenceHasFix Y = true).
  { rewrite Hf. unfold fixIndicated.
    change (GPS_SENTENCE_GPRMC =? GPS_SENTENCE_GPRMC) with true. cbv iota.
    now rewrite Hst. }
  pose proof (stageFields_speed_absent GPS_SENTENCE_GPRMC fields 1
                (nativeStaged g0) ltac:(lia) (fun _ => Habs)) as Hspd.
  rewrite <- Hstaged in Hspd.
  destruct (nativeStaged Y)
    as [[[[[[[[lat1 lng1] dt1] tm1] spd1] crs1] alt1] sat1] hd1] eqn:HY.
  destruct (commitNative_GPRMC_values Y _ _ _ _ _ _ _ _ _ Hk Hfix HY)
    as (_ & _ & _ & _ & _ & _ & _ & V8 & V9 & _).
  destruct (natives_fields _ _ Hnat) as (_ & _ & _ & -> & _).
  assert (Hup : TinyGPSDecimal.updated (speed (commitNative millis Y)) = true).
  { now destruct (commitNative_GPRMC Y Hk) as (_ & _ & Ufix & _);
      destruct (Ufix Hfix) as (_ & -> & _). }
  unfold TinyGPSDecimal.isValid, TinyGPSDecimal.isUpdated.
  cbn [TinyGPSDecimal.value fst].
  split; [|split; assumption].
  rewrite V8. cbn [stagedSpeed] in Hspd. rewrite Hspd.
  unfold nativeStaged. reflexivity.
Qed.

End Machine.

(** * Concrete runs *)

(** C3: a position/velocity sentence with status ['V'] passes its
    checksum, and location, speed and course are not updated; the same
    happens to a sentence with status ['A'] whose term 34 is dispatched as
    term 2 and clears the fix flag. *)
Lemma valid_sentence_without_fix_counterexample :
  let g1 := feed clock0 TinyGPSPlus_init
    (chars "$GPRMC,123519,V,4807.038,N,01131.000,E,022.4,084.4,230394,003.1,W*7D") in
  let g2 := snd (encode clock0 CR g1) in
  let h1 := feed clock0 TinyGPSPlus_init
    (chars "$GPRMC,1,A,,,,,,,,,,,,,,,,,,,,,,,,,,,,,,,,V*6D") in
  let h2 := snd (encode clock0 CR h1) in
  fst (encode clock0 CR g1) = true
  /\ TinyGPSTime.isUpdated (time g2) = true
  /\ TinyGPSDate.isUpdated (date g2) = true
  /\ TinyGPSLocation.isUpdated (location g2) = false
  /\ TinyGPSDecimal.isUpdated (speed g2) = false
  /\ TinyGPSDecimal.isUpdated (course g2) = false
  /\ fst (encode clock0 CR h1) = true
  /\ TinyGPSLocation.isUpdated (location h2) = false.
Proof. vm_compute. repeat split. Qed.

Lemma valid_sentence_updates_witness :
  let g1 := feed clock0 TinyGPSPlus_init (chars "$GPRMC,1,A*3B") in
  let g2 := snd (encode clock0 CR g1) in
  fst (encode clock0 CR g1) = true
  /\ TinyGPSTime.isUpdated (time g2) = true
  /\ TinyGPSLocation.isUpdated (location g2) = true.
Proof.
  pose proof (valid_sentence_updates clock0 TinyGPSPlus_init
                GPS_SENTENCE_GPRMC _GPRMCterm [chars "1"; chars "A"]
                "3"%char "B"%char CR wellFormed_init
                (or_introl (conj eq_refl (or_introl eq_refl)))
                eq_refl (proj1 (Nat.leb_le 2 31) eq_refl)
                eq_refl eq_refl eq_refl eq_refl) as H.
  cbv zeta in H. destruct H as (H1 & H2 & _ & _ & H5 & _).
  split; [exact H1|]. split; [exact H2|]. exact (proj1 (H5 eq_refl)).
Defined.

(** When a [','] instead of a line end follows the checksum digits of
    ["$A*41"], that [','] is folded into the accumulator before the
    comparison, and the term is refused. *)
Lemma comma_after_checksum_digits :
  let g1 := feed clock0 TinyGPSPlus_init (chars "$A*41") in
  xorAll (chars "A") = 65
  /\ parity (atEndOfTerm ","%char g1) = 109
  /\ termChecksum (term (atEndOfTerm ","%char g1)) = 65
  /\ fst (encode clock0 ","%char g1) = false
  /\ fst (encode clock0 CR g1) = true.
Proof. vm_compute. repeat split; discriminate. Qed.

Lemma checksum_accumulator_coverage_witness :
  let g1 := feed clock0 TinyGPSPlus_init (chars "$GPRMC,1,A*3B") in
  parity g1 = xorAll (chars "GPRMC,1,A")
  /\ parity (atEndOfTerm CR g1) = xorAll (chars "GPRMC,1,A").
Proof.
  pose proof (checksum_accumulator_coverage clock0 TinyGPSPlus_init
                (chars "GPRMC,1,A") (chars "3B") CR
                eq_refl eq_refl eq_refl eq_refl) as H.
  cbv zeta in H. destruct H as (H1 & H2 & _).
  split; [exact H1 | exact H2].
Defined.

Lemma failed_checksum_discards_witness :
  let g1 := feed clock0 TinyGPSPlus_init (chars "$GPRMC,1,A*00") in
  let g2 := snd (encode clock0 CR g1) in
  fst (encode clock0 CR g1) = false
  /\ observable g2 = observable TinyGPSPlus_init
  /\ failedChecksumCount g2 = 1.
Proof.
  assert (Hne : termChecksum
                  (term (atEndOfTerm CR
                     (feed clock0 TinyGPSPlus_init
                        ("$"%char :: chars "GPRMC,1,A" ++ "*"%char :: chars "00"))))
                <> parity
                     (atEndOfTerm CR
                        (feed clock0 TinyGPSPlus_init
                           ("$"%char :: chars "GPRMC,1,A" ++ "*"%char :: chars "00"))))
    by (vm_compute; discriminate).
  pose proof (failed_checksum_discards clock0 TinyGPSPlus_init
                (chars "GPRMC,1,A") (chars "00") CR
                eq_refl eq_refl eq_refl Hne) as H.
  cbv zeta in H. destruct H as (H1 & H2 & _ & _ & H5 & _).
  split; [exact H1|]. split; [exact H2 | exact H5].
Defined.



(** C8: the term buffer keeps fourteen characters.  The sentence name
    "ABCDEFGHIJKLMNOP" selects the entry named "ABCDEFGHIJKLMN", which is
    not its name, and does not select the entry that carries its name. *)
Lemma long_sentence_name_counterexample :
  let short := begin (chars "ABCDEFGHIJKLMN") 1 TinyGPSPlus_init in
  let long := begin (chars "ABCDEFGHIJKLMNOP") 1 TinyGPSPlus_init in
  customCandidates (feed clock0 short (chars "$ABCDEFGHIJKLMNOP,")) = Some 0%nat
  /\ strcmp (chars "ABCDEFGHIJKLMN") (chars "ABCDEFGHIJKLMNOP") <> 0
  /\ customCandidates (feed clock0 long (chars "$ABCDEFGHIJKLMNOP,")) = None
  /\ map entryName (customElts long) = [chars "ABCDEFGHIJKLMNOP"].
Proof. vm_compute. repeat split; discriminate. Qed.

Lemma candidates_after_sentence_name_witness :
  let g0 := begin (chars "GPGSA") 3 (begin (chars "AAAAA") 1 TinyGPSPlus_init) in
  customCandidates (feed clock0 g0 (chars "$GPGSA,")) = Some 1%nat.
Proof.
  assert (Hsorted : registrySorted
            (begin (chars "GPGSA") 3 (begin (chars "AAAAA") 1 TinyGPSPlus_init))).
  { unfold registrySorted.
    apply Sorted_cons; [apply Sorted_cons; [apply Sorted_nil | apply HdRel_nil]|].
    apply HdRel_cons. left. reflexivity. }
  pose proof (candidates_after_sentence_name clock0
                (begin (chars "GPGSA") 3 (begin (chars "AAAAA") 1 TinyGPSPlus_init))
                (chars "GPGSA") ","%char
                (insertCustom_wellFormed _ _ _ _
                   (insertCustom_wellFormed _ _ _ _ wellFormed_init))
                Hsorted eq_refl eq_refl) as H.
  cbv zeta in H. destruct H as (_ & H2 & _). exact H2.
Defined.

Lemma empty_term_stages_nothing_witness :
  let g := feed clock0 TinyGPSPlus_init (chars "$GPRMC,123519,A,") in
  curTermOffset g = 0
  /\ nativeStaged (snd (encode clock0 ","%char g)) = nativeStaged g.
Proof.
  split; [reflexivity|].
  pose proof (empty_term_stages_nothing clock0
                (feed clock0 TinyGPSPlus_init (chars "$GPRMC,123519,A,"))
                ","%char
                (feed_wellFormed clock0 _ _ wellFormed_init)
                eq_refl eq_refl) as H.
  cbv zeta in H. exact (proj1 H).
Defined.

(** The entry registered for term 17 of "GPGSA" is committed by a
    sentence that has one data field. *)
Lemma passed_checksum_commits_run_witness :
  let g0 := begin (chars "GPGSA") 17 (begin (chars "GPGSA") 1 TinyGPSPlus_init) in
  let g := feed clock0 g0 (chars "$GPGSA,A*2F") in
  let g' := snd (encode clock0 CR g) in
  exists e',
    nth_error (customElts g') 1 = Some e'
    /\ entryTerm e' = 17
    /\ TinyGPSCustom.isValid e' = true
    /\ TinyGPSCustom.isUpdated e' = true
    /\ fst (TinyGPSCustom.value e') = [].
Proof.
  pose proof (passed_checksum_commits_run clock0
                (feed clock0
                   (begin (chars "GPGSA") 17
                      (begin (chars "GPGSA") 1 TinyGPSPlus_init))
                   (chars "$GPGSA,A*2F"))
                CR 0%nat
                (feed_wellFormed clock0 _ _
                   (insertCustom_wellFormed _ _ _ _
                      (insertCustom_wellFormed _ _ _ _ wellFormed_init)))
                eq_refl eq_refl eq_refl eq_refl) as H.
  cbv zeta in H. destruct H as (_ & _ & Hrun).
  destruct (Hrun 1%nat (TinyGPSCustom.fresh (chars "GPGSA") 17) eq_refl)
    as (_ & e' & H1 & H2 & H3 & H4 & _ & H6).
  exists e'. split; [exact H1|]. split; [|split; [exact H2|split; [exact H3|exact H4]]].
  exact (f_equal snd H6).
Defined.

(** * Concrete runs of the further properties *)

(** X1 on the time field ["123519.25"]. *)
Lemma time_accessors_decode_witness :
  let d' := TinyGPSTime.commit 0
              (TinyGPSTime.setTime (chars "123519.25") TinyGPSTime.init) in
  fst (TinyGPSTime.hour d') = 12
  /\ fst (TinyGPSTime.minute d') = 35
  /\ fst (TinyGPSTime.second d') = 19
  /\ fst (TinyGPSTime.centisecond d') = 25.
Proof.
  apply (time_accessors_decode (chars "123519") (chars ".25") 12 35 19 0
           TinyGPSTime.init);
    [reflexivity | reflexivity | discriminate | reflexivity | lia | lia | lia].
Defined.

(** X2 on the date field ["230394"]: the year reads 2094. *)
Lemma date_accessors_decode_witness :
  let d' := TinyGPSDate.commit 0
              (TinyGPSDate.setDate (chars "230394") TinyGPSDate.init) in
  fst (TinyGPSDate.day d') = 23
  /\ fst (TinyGPSDate.month d') = 3
  /\ fst (TinyGPSDate.year d') = 2094.
Proof.
  apply (date_accessors_decode (chars "230394") [] 23 3 94 0 TinyGPSDate.init);
    [reflexivity | reflexivity | discriminate | reflexivity | lia | lia | lia].
Defined.

(** X3 across the wrap-around of the clock: a commit 10 ms before the
    clock wraps, read 15 ms after it. *)
Lemma age_after_commit_witness :
  TinyGPSTime.age 15 (TinyGPSTime.commit 4294967286 TinyGPSTime.init) = 25
  /\ TinyGPSCustom.age 15
       (TinyGPSCustom.commit 4294967286 (TinyGPSCustom.fresh (chars "GPGSA") 2))
     = 25.
Proof.
  assert (H : 0 <= 25 < 2 ^ 32) by lia.
  destruct (age_after_commit (2 ^ 32 - 10) 25 H) as (_ & _ & Ht & _ & _ & Hc).
  split; [exact (Ht TinyGPSTime.init) | exact (Hc _)].
Defined.

(** X6 on the byte 0x6A. *)
Lemma hexByte_round_trip_witness :
  hexByte "6"%char "A"%char = 106 /\ termChecksum (chars "6a") = 106.
Proof.
  assert (H : 0 <= 106 < 256) by lia.
  split.
  - exact (proj1 (hexByte_round_trip 106 true true H)).
  - exact (proj2 (hexByte_round_trip 106 true false H)).
Defined.

(** X10 on a registry with one entry, after a sentence that stages and
    commits a text for it. *)
Lemma custom_buffers_fit_witness :
  let acts := Register (chars "GPGSA") 2
              :: map Feed (chars "$GPGSA,A,3*30" ++ [CR]) in
  exists e,
    nth_error (customElts (session clock0 acts)) 0 = Some e
    /\ length (TinyGPSCustom.buffer e) = 16%nat
    /\ (length (fst (TinyGPSCustom.value e)) < 15)%nat.
Proof.
  intros acts.
  destruct (nth_error (customElts (session clock0 acts)) 0) as [e|] eqn:He;
    [|vm_compute in He; discriminate].
  exists e. split; [reflexivity|].
  destruct (custom_buffers_fit clock0 acts e (nth_error_In _ _ He))
    as (_ & H2 & _ & H4).
  split; [exact H2 | exact H4].
Defined.

(** X11 on the position/velocity sentence of the NMEA documentation. *)
Lemma rmc_sentence_decodes_witness :
  let g2 :=
    snd (encode clock0 CR
           (feed clock0 TinyGPSPlus_init
              (chars "$GPRMC,123519,A,4807.038,N,01131.000,E,022.4,084.4,230394,003.1,W*6A"))) in
  fst (TinyGPSTime.value (time g2)) = 12351900
  /\ fst (TinyGPSDate.value (date g2)) = 230394
  /\ fst (TinyGPSLocation.rawLat (location g2)) = mkRawDegrees 48 117300000 false
  /\ fst (TinyGPSLocation.rawLng (location g2)) = mkRawDegrees 11 516666667 false
  /\ fst (TinyGPSDecimal.value (speed g2)) = 2240
  /\ fst (TinyGPSDecimal.value (course g2)) = 8440.
Proof.
  pose proof (rmc_sentence_decodes clock0 TinyGPSPlus_init _GPRMCterm
                (chars "123519") (chars "A") (chars "4807.038") (chars "N")
                (chars "01131.000") (chars "E") (chars "022.4") (chars "084.4")
                (chars "230394") [chars "003.1"; chars "W"]
                "6"%char "A"%char CR wellFormed_init (or_introl eq_refl)
                eq_refl (proj1 (Nat.leb_le 2 22) eq_refl) eq_refl eq_refl
                eq_refl eq_refl eq_refl eq_refl) as H.
  cbv zeta in H. destruct H as (H1 & H2 & H3 & H4 & H5 & H6 & _).
  exact (conj H1 (conj H2 (conj H3 (conj H4 (conj H5 H6))))).
Defined.

(** X12 on the fix-data sentence of the NMEA documentation. *)
Lemma gga_sentence_decodes_witness :
  let g2 :=
    snd (encode clock0 CR
           (feed clock0 TinyGPSPlus_init
              (chars "$GPGGA,123519,4807.038,N,01131.000,E,1,08,0.9,545.4,M,46.9,M,,*47"))) in
  fst (TinyGPSTime.value (time g2)) = 12351900
  /\ fst (TinyGPSLocation.rawLat (location g2)) = mkRawDegrees 48 117300000 false
  /\ fst (TinyGPSLocation.rawLng (location g2)) = mkRawDegrees 11 516666667 false
  /\ fst (TinyGPSInteger.value (satellites g2)) = 8
  /\ fst (TinyGPSDecimal.value (hdop g2)) = 90
  /\ fst (TinyGPSDecimal.value (altitude g2)) = 54540.
Proof.
  pose proof (gga_sentence_decodes clock0 TinyGPSPlus_init _GPGGAterm
                (chars "123519") (chars "4807.038") (chars "N")
                (chars "01131.000") (chars "E") (chars "1") (chars "08")
                (chars "0.9") (chars "545.4")
                [chars "M"; chars "46.9"; chars "M"; []; []]
                "4"%char "7"%char CR wellFormed_init (or_introl eq_refl)
                eq_refl (proj1 (Nat.leb_le 5 22) eq_refl) eq_refl eq_refl
                eq_refl eq_refl eq_refl eq_refl) as H.
  cbv zeta in H. destruct H as (H1 & H2 & H3 & H4 & H5 & H6 & _).
  exact (conj H1 (conj H2 (conj H3 (conj H4 (conj H5 H6))))).
Defined.

(** X14 on a field registered for term 2 of [GPGSA]. *)
Lemma custom_field_round_trip_witness :
  let g0 := session clock0 [Register (chars "GPGSA") 2] in
  let g2 := snd (encode clock0 CR (feed clock0 g0 (chars "$GPGSA,A,3*30"))) in
  exists e',
    nth_error (customElts g2) 0 = Some e'
    /\ TinyGPSCustom.isValid e' = true
    /\ TinyGPSCustom.isUpdated e' = true
    /\ fst (TinyGPSCustom.value e') = chars "3".
Proof.
  destruct (custom_field_round_trip clock0
              (session clock0 [Register (chars "GPGSA") 2])
              (chars "GPGSA") [chars "A"; chars "3"] "3"%char "0"%char CR
              0%nat (TinyGPSCustom.fresh (chars "GPGSA") 2)
              (session_wellFormed clock0 _) (session_sorted clock0 _)
              eq_refl eq_refl (proj1 (Nat.leb_le 2 254) eq_refl)
              eq_refl eq_refl
              (conj (proj1 (Z.leb_le 1 2) eq_refl) (proj1 (Z.leb_le 2 2) eq_refl))
              eq_refl eq_refl eq_refl eq_refl)
    as (e' & H1 & _ & H3 & H4 & H5).
  exists e'. exact (conj H1 (conj H3 (conj H4 H5))).
Defined.

(** X15 on a [GPGSA] sentence with a right checksum, after a
    position/velocity sentence has staged its fields. *)
Lemma unrecognized_sentence_keeps_natives_witness :
  let g0 := feed clock0 TinyGPSPlus_init (chars "$GPRMC,123519,A,4807.038,N*") in
  natives (feed clock0 g0 (chars "$GPGSA,A,3*30" ++ [CR; LF])) = natives g0.
Proof.
  apply (unrecognized_sentence_keeps_natives clock0
           (feed clock0 TinyGPSPlus_init (chars "$GPRMC,123519,A,4807.038,N*"))
           (chars "GPGSA") (chars "A,3*30" ++ [CR; LF]) ","%char);
    [apply feed_wellFormed, wellFormed_init | reflexivity | reflexivity
    | reflexivity | reflexivity | vm_compute; discriminate].
Defined.

(** X16 on term 34 of a fix-data sentence, which sets the fix flag as the
    status field of a position/velocity sentence does. *)
Lemma dispatch_wraps_at_32_witness :
  let g := set_curTermNumber 34
             (set_curSentenceType GPS_SENTENCE_GPGGA
                (set_term (chars "A") TinyGPSPlus_init)) in
  sentenceHasFix (setNative g) = true.
Proof.
  exact (proj2 (dispatch_wraps_at_32
                  (set_curTermNumber 34
                     (set_curSentenceType GPS_SENTENCE_GPGGA
                        (set_term (chars "A") TinyGPSPlus_init)))
                  GPS_SENTENCE_GPGGA 2 (or_intror eq_refl)
                  (conj (proj1 (Z.leb_le 1 2) eq_refl)
                        (proj1 (Z.leb_le 2 31) eq_refl))
                  eq_refl eq_refl)).
Defined.

(** X17 on the line end of a sentence with a right checksum and on that
    of one with a wrong checksum. *)
Lemma checksum_terms_counted_once_witness :
  let g := feed clock0 TinyGPSPlus_init (chars "$GPRMC,1,A*3B") in
  let h := feed clock0 TinyGPSPlus_init (chars "$GPRMC,1,A*3C") in
  passedChecksum (snd (encode clock0 CR g)) = 1
  /\ sentencesWithFix (snd (encode clock0 CR g)) = 1
  /\ failedChecksum (snd (encode clock0 CR h)) = 1.
Proof.
  intros g h.
  destruct (checksum_terms_counted_once clock0 g CR
              (feed_wellFormed clock0 _ _ wellFormed_init)) as (H1 & _ & H3).
  destruct (checksum_terms_counted_once clock0 h CR
              (feed_wellFormed clock0 _ _ wellFormed_init)) as (_ & H2 & _).
  split; [exact H1|]. split; [exact H3 | exact H2].
Defined.

(** X19 after a sentence that failed its checksum and had staged the
    speed 99.99: the sentence without a speed field publishes it. *)
Lemma absent_speed_republishes_staged_witness :
  let g0 := feed clock0 TinyGPSPlus_init
              (chars "$GPRMC,,,,,,,99.99*00" ++ [CR; LF]) in
  let g2 :=
    snd (encode clock0 CR
           (feed clock0 g0
              (chars "$GPRMC,123519,A,4807.038,N,01131.000,E,,084.4,230394*3B"))) in
  failedChecksum g0 = 1
  /\ passedChecksum g0 = 0
  /\ fst (TinyGPSDecimal.value (speed g2)) = 9999
  /\ TinyGPSDecimal.isUpdated (speed g2) = true.
Proof.
  pose proof (absent_speed_republishes_staged clock0
                (feed clock0 TinyGPSPlus_init
                   (chars "$GPRMC,,,,,,,99.99*00" ++ [CR; LF]))
                _GPRMCterm
                [chars "123519"; chars "A"; chars "4807.038"; chars "N";
                 chars "01131.000"; chars "E"; []; chars "084.4";
                 chars "230394"]
                "3"%char "B"%char CR
                (feed_wellFormed clock0 _ _ wellFormed_init)
                (or_introl eq_refl) eq_refl (proj1 (Nat.leb_le 9 31) eq_refl)
                eq_refl eq_refl eq_refl eq_refl eq_refl eq_refl) as H.
  cbv zeta in H. destruct H as (H1 & _ & H3).
  exact (conj eq_refl (conj eq_refl (conj H1 H3))).
Defined.
